(** * flatsurf: flat triangulations, their vertical collapse and the
      saddle connection query builder

    A shallow embedding of

    - [FlatTriangulation] (flat_triangulation.cc): the face closure check of
      the constructor and the [updateAfterFlip] hook of the vector store;
    - [FlatTriangulationCollapsed] (flat_triangulation_collapsed.cc): [make],
      [flip], [collapse], [check] and the two hooks [updateAfterFlip] and
      [updateBeforeCollapse] that re-route [vectors] and the hidden lists;
    - [SaddleConnections] (saddle_connections.cc): [bound], [sector] and
      [Sector::refine] / [Sector::contains].

    The coordinate ring [T] is instantiated with the integers ([mpz_class] is
    one of the rings the test-suite instantiates the templates with). *)

From Stdlib Require Import ZArith List Bool Lia.
Import ListNotations.

Local Open Scope Z_scope.

Set Implicit Arguments.

(** ** Errors

    [CHECK_ARGUMENT] raises [InvalidArgument], [ASSERT] raises
    [InvariantViolated]; [check] throws a [logic_error] on a surface with
    boundary. *)

Inductive Error : Type :=
| InvalidArgument
| InvariantViolated
| NotImplemented.

Inductive Result (A : Type) : Type :=
| Ok (a : A)
| Err (e : Error).

Arguments Ok {A} a.
Arguments Err {A} e.

Definition bind {A B : Type} (r : Result A) (k : A -> Result B) : Result B :=
  match r with
  | Ok a => k a
  | Err e => Err e
  end.

Notation "x <- r ;; k" := (bind r (fun x => k))
  (at level 61, r at next level, right associativity).

(** [CHECK_ARGUMENT(c, ...)] and [ASSERT(c, ...)] *)
Definition CHECK_ARGUMENT (c : bool) : Result unit :=
  if c then Ok tt else Err InvalidArgument.

Definition ASSERT (c : bool) : Result unit :=
  if c then Ok tt else Err InvariantViolated.

(** ** Half edges

    A half edge is a signed non-zero integer; [- e] is the opposite half
    edge. *)

Definition HalfEdge : Type := Z.

(** ** Vectors over the coordinate ring *)

Module Vec.

Record Vector : Type := V { x : Z; y : Z }.

Definition zero : Vector := V 0 0.
Definition add (u v : Vector) : Vector := V (x u + x v) (y u + y v).
Definition opp (u : Vector) : Vector := V (- x u) (- y u).
Definition sub (u v : Vector) : Vector := V (x u - x v) (y u - y v).

Definition eqb (u v : Vector) : bool := (x u =? x v) && (y u =? y v).

(** [operator bool]: a vector is true iff it is not the zero vector. *)
Definition nonzero (u : Vector) : bool := negb (eqb u zero).

Definition cross (u v : Vector) : Z := x u * y v - y u * x v.
Definition dot (u v : Vector) : Z := x u * x v + y u * y v.

Inductive CCW : Type := COUNTERCLOCKWISE | CLOCKWISE | COLLINEAR.
Inductive ORIENTATION : Type := SAME | OPPOSITE | ORTHOGONAL.

Definition CCW_eqb (a b : CCW) : bool :=
  match a, b with
  | COUNTERCLOCKWISE, COUNTERCLOCKWISE
  | CLOCKWISE, CLOCKWISE
  | COLLINEAR, COLLINEAR => true
  | _, _ => false
  end.

Definition ORIENTATION_eqb (a b : ORIENTATION) : bool :=
  match a, b with
  | SAME, SAME | OPPOSITE, OPPOSITE | ORTHOGONAL, ORTHOGONAL => true
  | _, _ => false
  end.

(** Modelled from the spec: [Vector::ccw] (vector.cc is not among the
    sources) is given by the sign of the cross product. *)
Definition ccw (u v : Vector) : CCW :=
  match cross u v ?= 0 with
  | Gt => COUNTERCLOCKWISE
  | Lt => CLOCKWISE
  | Eq => COLLINEAR
  end.

(** Modelled from the spec: [Vector::orientation] is given by the sign of the
    dot product. *)
Definition orientation (u v : Vector) : ORIENTATION :=
  match dot u v ?= 0 with
  | Gt => SAME
  | Lt => OPPOSITE
  | Eq => ORTHOGONAL
  end.

(** [v] lies on the ray spanned by [b]. *)
Definition onRay (v b : Vector) : bool :=
  CCW_eqb (ccw b v) COLLINEAR && ORIENTATION_eqb (orientation b v) SAME.

(** Modelled from the spec: [Vector::inSector] decides whether [v] lies in
    the half-open angular interval from [b] (inclusive) counter-clockwise to
    [e] (exclusive).  When [b] and [e] span the same ray the sector is that
    ray, both boundaries inclusive (the tests require [v.inSector(v, v)], and
    saddle_connections.cc remarks that the boundaries are inclusive if they
    coincide).  The zero vector is not accepted. *)
Definition inSectorNonzero (v b e : Vector) : bool :=
  match ccw b e with
  | COUNTERCLOCKWISE =>
      negb (CCW_eqb (ccw b v) CLOCKWISE) && CCW_eqb (ccw v e) COUNTERCLOCKWISE
  | CLOCKWISE =>
      negb (CCW_eqb (ccw b v) CLOCKWISE) || CCW_eqb (ccw v e) COUNTERCLOCKWISE
  | COLLINEAR =>
      match orientation b e with
      | OPPOSITE => CCW_eqb (ccw b v) COUNTERCLOCKWISE || onRay v b
      | _ => onRay v b
      end
  end.

Definition inSector (v b e : Vector) : Result bool :=
  _ <- CHECK_ARGUMENT (nonzero v && nonzero b && nonzero e) ;;
  Ok (inSectorNonzero v b e).

End Vec.

Import Vec.

(** ** Loops over the half edges

    [for (auto e : halfEdges()) body(e)], where the body may throw. *)

Fixpoint forEach {A : Type} (f : A -> Result unit) (l : list A) : Result unit :=
  match l with
  | [] => Ok tt
  | a :: l' => _ <- f a ;; forEach f l'
  end.

(** ** Combinatorial triangulations

    [Implementation<FlatTriangulationCombinatorial>] holds the two
    permutations [vertices] and [faces] on the half edges; a permutation is
    its image function on the listed half edges, and the preimage is found by
    search, as [Permutation] does. *)

Definition Permutation : Type := HalfEdge -> HalfEdge.

Definition preimage (domain : list HalfEdge) (p : Permutation) (e : HalfEdge)
  : HalfEdge :=
  match find (fun h => p h =? e) domain with
  | Some h => h
  | None => 0
  end.

Record FlatTriangulationCombinatorial : Type := Combinatorial {
  halfEdges : list HalfEdge;
  vertices : Permutation;
  faces : Permutation;
  boundary : HalfEdge -> bool
}.

Definition nextInFace (c : FlatTriangulationCombinatorial) (e : HalfEdge)
  : HalfEdge := faces c e.
Definition previousInFace (c : FlatTriangulationCombinatorial) (e : HalfEdge)
  : HalfEdge := preimage (halfEdges c) (faces c) e.
Definition nextAtVertex (c : FlatTriangulationCombinatorial) (e : HalfEdge)
  : HalfEdge := vertices c e.
Definition previousAtVertex (c : FlatTriangulationCombinatorial)
    (e : HalfEdge) : HalfEdge := preimage (halfEdges c) (vertices c) e.

(** Pointwise update of a function on half edges: the stores are dense
    arrays indexed by the half edge, every half edge has an entry. *)
Definition upd {A : Type} (m : HalfEdge -> A) (k : HalfEdge) (a : A)
  : HalfEdge -> A :=
  fun h => if h =? k then a else m h.

(** ** Flat triangulations (flat_triangulation.cc) *)

Module Flat.

(** Modelled from the spec: [HalfEdgeMap<Vector>] (half_edge_map.hpp is not
    among the sources) is built from the vectors of the positive half edges
    and keeps [vectors[-e] = -vectors[e]]: [set] stores the value at the key
    and its negative at the opposite half edge. *)
Definition HalfEdgeMap : Type := HalfEdge -> Vector.

Definition get (m : HalfEdgeMap) (e : HalfEdge) : Vector := m e.

Definition set (m : HalfEdgeMap) (e : HalfEdge) (v : Vector) : HalfEdgeMap :=
  upd (upd m (- e) (Vec.opp v)) e v.

Definition fromList (l : list Vector) : HalfEdgeMap :=
  fun e =>
    if 0 <? e then nth (Z.to_nat (e - 1)) l Vec.zero
    else Vec.opp (nth (Z.to_nat (- e - 1)) l Vec.zero).

(** [updateAfterFlip(map, halfEdge, parent)] *)
Definition updateAfterFlip (map : HalfEdgeMap) (halfEdge : HalfEdge)
    (parent : FlatTriangulationCombinatorial) : HalfEdgeMap :=
  set map halfEdge
    (Vec.add (get map (- nextInFace parent halfEdge))
             (get map (nextAtVertex parent halfEdge))).

Record FlatTriangulation : Type := Build {
  combinatorial : FlatTriangulationCombinatorial;
  vectors : HalfEdgeMap
}.

Definition fromEdge (s : FlatTriangulation) (e : HalfEdge) : Vector :=
  get (vectors s) e.

(** The sum the constructor accumulates in [zero] for one half edge. *)
Definition faceSum (c : FlatTriangulationCombinatorial) (m : HalfEdgeMap)
    (edge : HalfEdge) : Vector :=
  let zero := get m edge in
  let edge := nextInFace c edge in
  let zero := Vec.add zero (get m edge) in
  let edge := nextInFace c edge in
  Vec.add zero (get m edge).

(** [FlatTriangulation(combinatorial, HalfEdgeMap&&)] *)
Definition make_from_map (c : FlatTriangulationCombinatorial)
    (m : HalfEdgeMap) : Result FlatTriangulation :=
  _ <- forEach (fun edge => CHECK_ARGUMENT (negb (Vec.nonzero (faceSum c m edge))))
               (halfEdges c) ;;
  Ok (Build c m).

(** [FlatTriangulation(combinatorial, const vector<Vector>&)] *)
Definition make (c : FlatTriangulationCombinatorial) (l : list Vector)
  : Result FlatTriangulation :=
  make_from_map c (fromList l).

(** [clone()]: the vectors of the half edges [1, ..., halfEdges().size() / 2]
    are collected and the constructor runs on them and on a copy of the
    combinatorial triangulation. *)
Definition clone (s : FlatTriangulation) : Result FlatTriangulation :=
  let vectors :=
    map (fun e => fromEdge s (Z.of_nat e))
        (seq 1 (Nat.div (length (halfEdges (combinatorial s))) 2)) in
  make (combinatorial s) vectors.

End Flat.

(** ** Vertices

    Modelled from the spec: vertex.hpp and vertex.cc of libflatsurf are not
    among the sources.  [Vertex::source(e, surface)] is the vertex the half
    edge [e] starts at, and vertices are compared with [==].  By
    vertex.impl.hpp a vertex is the set of the half edges that start at it. *)

Module Vertex.

Class Vertices : Type := {
  t : Type;
  source : HalfEdge -> FlatTriangulationCombinatorial -> t;
  eqb : t -> t -> bool;
  eqb_eq : forall u v, eqb u v = true <-> u = v
}.

End Vertex.

(** ** Saddle connections

    saddle_connection.hpp and chain.hpp are not among the sources.  The code
    under study uses a saddle connection through the operations collected
    here: its [source()] and [target()] half edges, the conversion of its
    chain to a vector, the constructor
    [SaddleConnection(surface, source, target, chain)], unary minus,
    [operator==] and [Implementation<SaddleConnection>::check]. The chain, a
    formal integer combination of half edges, is represented by its vector
    sum. *)

Module Conn.

Class Connection (SC : Type) : Type := {
  source : SC -> HalfEdge;
  target : SC -> HalfEdge;
  vector : SC -> Vector;
  connect : HalfEdge -> HalfEdge -> Vector -> SC;
  negate : SC -> SC;
  equal : SC -> SC -> bool;
  checkConnection : SC -> bool
}.

(** What the spec says of these operations: the vector of a connection is
    the vector sum of its chain, and negation negates it. *)
Class ConnectionLaws (SC : Type) `{Connection SC} : Prop := {
  vector_connect : forall s t v, vector (connect s t v) = v;
  vector_negate : forall c, vector (negate c) = Vec.opp (vector c)
}.

End Conn.

Import Conn.

(** The connections of a surface as plain triples (source, target, vector).
    The constructor of the library settles in which sector at its end points
    a connection lies; two triples stand for the same connection when their
    vectors are equal and they start at the same vertex and end at the same
    vertex, the vertex of a half edge being its cycle in [vertices]. *)
Module Triple.

Record SaddleConnection : Type := SC {
  source : HalfEdge;
  target : HalfEdge;
  vector : Vector
}.

Definition negate (c : SaddleConnection) : SaddleConnection :=
  SC (target c) (source c) (Vec.opp (vector c)).

Fixpoint orbit (p : Permutation) (n : nat) (h : HalfEdge) : list HalfEdge :=
  match n with
  | O => []
  | S n' => h :: orbit p n' (p h)
  end.

Definition sameVertex (t : FlatTriangulationCombinatorial)
    (h h' : HalfEdge) : bool :=
  existsb (Z.eqb h') (orbit (vertices t) (length (halfEdges t)) h).

Definition equal (t : FlatTriangulationCombinatorial)
    (c d : SaddleConnection) : bool :=
  sameVertex t (source c) (source d)
  && sameVertex t (target c) (target d)
  && Vec.eqb (vector c) (vector d).

End Triple.

Definition connectionsOf (t : FlatTriangulationCombinatorial)
  : Connection Triple.SaddleConnection := {|
  source := Triple.source;
  target := Triple.target;
  vector := Triple.vector;
  connect := Triple.SC;
  negate := Triple.negate;
  equal := Triple.equal t;
  checkConnection := fun _ => true
|}.

(** ** Collapsed flat triangulations (flat_triangulation_collapsed.cc) *)

Module Collapsed.

Section Surface.

Context {SC : Type} `{Connection SC}.

(** [FlatTriangulationCollapsed<T>] with its [Implementation]: the
    combinatorial triangulation it derives from, the [original] surface, the
    [vertical] and the two stores [collapsedHalfEdges] (the [connections]
    list of each [CollapsedHalfEdge]) and [vectors] (the [value] of each
    [AsymmetricConnection]). *)
Record Surface : Type := Build {
  combinatorial : FlatTriangulationCombinatorial;
  original : Flat.FlatTriangulation;
  vertical : Vector;
  collapsedHalfEdges : HalfEdge -> list SC;
  vectors : HalfEdge -> SC
}.

(** Code of the repository that the collapsed surface calls and that is not
    among the sources:
    - [Implementation<FlatTriangulation<T>>::area] on three vectors and
      [FlatTriangulation<T>::area] on the original surface;
    - [Vertical::large];
    - the structural part of [FlatTriangulationCombinatorial::collapse], run
      after the [beforeCollapse] hooks, which merges the end points of the
      edge and re-keys the attribute stores through swap and erase. *)
Class Collaborators : Type := {
  area : Vector -> Vector -> Vector -> Z;
  originalArea : Flat.FlatTriangulation -> Z;
  large : Surface -> HalfEdge -> bool;
  collapseCombinatorial : Surface -> HalfEdge -> Surface
}.

Context `{Collaborators}.

Definition withStores (s : Surface) (c : HalfEdge -> list SC)
    (v : HalfEdge -> SC) : Surface :=
  Build (combinatorial s) (original s) (vertical s) c v.

Definition withCombinatorial (s : Surface)
    (c : FlatTriangulationCombinatorial) : Surface :=
  Build c (original s) (vertical s) (collapsedHalfEdges s) (vectors s).

(** [fromEdge(e)] and [cross(e)] *)
Definition fromEdge (s : Surface) (e : HalfEdge) : SC := vectors s e.
Definition cross (s : Surface) (e : HalfEdge) : list SC :=
  collapsedHalfEdges s e.

(** Modelled from the spec: [Vertical] (vertical.hpp is not among the
    sources) measures a vector against the vertical: [perpendicular] is its
    component across the vertical, [parallel] its component along the
    vertical, and a half edge is parallel to the vertical when its vector has
    no component across it. *)
Definition perpendicular (s : Surface) (v : Vector) : Z :=
  Vec.cross v (vertical s).
Definition parallelTo (s : Surface) (v : Vector) : Z :=
  Vec.dot (vertical s) v.
Definition parallel (s : Surface) (e : HalfEdge) : bool :=
  perpendicular s (vector (fromEdge s e)) =? 0.

(** The [sum] lambda of [updateAfterFlip]. *)
Definition sum (lhs rhs : SC) : SC :=
  connect (source lhs) (target rhs) (Vec.add (vector lhs) (vector rhs)).

(** *** Store updates *)

(** [vectors.set(k, v)] *)
Definition setVector (s : Surface) (k : HalfEdge) (v : SC) : Surface :=
  withStores s (collapsedHalfEdges s) (upd (vectors s) k v).

(** [connections(k).push_front(c)] *)
Definition pushFront (s : Surface) (k : HalfEdge) (c : SC) : Surface :=
  withStores s (upd (collapsedHalfEdges s) k (c :: collapsedHalfEdges s k))
             (vectors s).

(** [connections(tgt).splice(connections(tgt).end(), connections(src))]:
    the elements of the list at [src] are moved behind those at [tgt], and
    the list at [src] is left empty.  Splicing a list into itself is
    undefined; no caller below does so on a surface whose faces are proper
    cycles, and the model leaves the store alone in that case. *)
Definition spliceEnd (s : Surface) (tgt src : HalfEdge) : Surface :=
  if tgt =? src then s
  else
    let h := collapsedHalfEdges s in
    withStores s (upd (upd h tgt (h tgt ++ h src)) src []) (vectors s).

(** [connections(tgt).splice(connections(tgt).begin(), connections(src))] *)
Definition spliceBegin (s : Surface) (tgt src : HalfEdge) : Surface :=
  if tgt =? src then s
  else
    let h := collapsedHalfEdges s in
    withStores s (upd (upd h tgt (h src ++ h tgt)) src []) (vectors s).

(** The [set] lambda of [updateBeforeCollapse]: both stores of [target] are
    overwritten with those of [source]. *)
Definition set (s : Surface) (target source : HalfEdge) : Surface :=
  withStores s
    (upd (collapsedHalfEdges s) target (collapsedHalfEdges s source))
    (upd (vectors s) target (vectors s source)).

(** *** [updateAfterFlip] *)

(** [for (connection : connections) vectors.set(k, sum(vectors.get(k), connection))] *)
Definition extend (s : Surface) (k : HalfEdge) (connections : list SC)
  : Surface :=
  fold_left (fun s connection => setVector s k (sum (vectors s k) connection))
            connections s.

(** [handleFlip] reads the four outer half edges off the flipped surface and
    the handler of [updateAfterFlip] runs on them. *)
Definition updateAfterFlip (s : Surface) (flip : HalfEdge) : Result Surface :=
  let surface := combinatorial s in
  let a := previousInFace surface (- flip) in
  let b := nextInFace surface flip in
  let c := previousInFace surface flip in
  let d := nextInFace surface (- flip) in
  let s := extend s b (collapsedHalfEdges s flip) in
  let s := extend s d (collapsedHalfEdges s (- flip)) in
  let s := spliceEnd s (- b) flip in
  let s := spliceEnd s (- d) (- flip) in
  let s := setVector s flip (sum (vectors s d) (vectors s a)) in
  let s := setVector s (- flip) (negate (vectors s flip)) in
  _ <- ASSERT (equal (vectors s (- flip)) (sum (vectors s b) (vectors s c))) ;;
  Ok s.

(** *** [updateBeforeCollapse] *)

(** The case distinction on the identifications among the outer half edges
    of the gadget [(a -collapse d)(c collapse b)]. *)
Definition reroute (s : Surface) (a b c d : HalfEdge) : Result Surface :=
  if (a =? - c) && (b =? - d) then
    let s := setVector s (- a) (negate (vectors s a)) in
    let s := spliceEnd s a b in
    let s := spliceBegin s (- a) (- b) in
    let s := set s b a in
    let s := set s (- b) (- a) in
    Ok s
  else if a =? - c then
    let s := spliceEnd s (- b) c in
    let s := spliceEnd s (- b) d in
    let s := spliceEnd s (- d) a in
    let s := spliceEnd s (- d) b in
    let s := set s a (- d) in
    let s := set s b (- d) in
    let s := set s c (- b) in
    let s := set s d (- b) in
    Ok s
  else if b =? - d then
    let s := spliceEnd s (- a) d in
    let s := spliceEnd s (- a) c in
    let s := spliceEnd s (- c) b in
    let s := spliceEnd s (- c) a in
    let s := set s a (- c) in
    let s := set s b (- c) in
    let s := set s c (- a) in
    let s := set s d (- a) in
    Ok s
  else if (a =? - d) || (b =? - c) then
    let s :=
      if a =? - d then setVector s (- a) (negate (vectors s a))
      else
        let s := spliceEnd s (- a) d in
        let s := spliceEnd s (- d) a in
        let s := set s a (- d) in
        set s d (- a) in
    let s :=
      if b =? - c then setVector s (- b) (negate (vectors s b))
      else
        let s := spliceEnd s (- b) c in
        let s := spliceEnd s (- c) b in
        let s := set s b (- c) in
        set s c (- b) in
    Ok s
  else
    _ <- ASSERT (Nat.eqb (length (nodup Z.eq_dec
                   [a; b; c; d; - a; - b; - c; - d])) 8) ;;
    let s := spliceEnd s (- a) d in
    let s := spliceEnd s (- b) c in
    let s := spliceEnd s (- c) b in
    let s := spliceEnd s (- d) a in
    let s := set s a (- d) in
    let s := set s b (- c) in
    let s := set s c (- b) in
    let s := set s d (- a) in
    Ok s.

Definition nonempty (l : list SC) : bool :=
  negb (Nat.eqb (length l) 0).

(** [handleCollapse] orients the edge along the vertical and the handler of
    [updateBeforeCollapse] runs on the oriented half edge. *)
Definition updateBeforeCollapse (s : Surface) (collapse_ : HalfEdge)
  : Result Surface :=
  let collapse := Z.abs collapse_ in
  _ <- ASSERT (parallel s collapse) ;;
  let collapse :=
    if parallelTo s (vector (fromEdge s collapse)) <? 0 then - collapse
    else collapse in
  let surface := combinatorial s in
  let a := previousInFace surface (- collapse) in
  let b := nextInFace surface collapse in
  let c := previousInFace surface collapse in
  let d := nextInFace surface (- collapse) in
  let connection := vectors s collapse in
  _ <- ASSERT (equal (negate connection) (vectors s (- collapse))) ;;
  _ <- ASSERT (checkConnection connection) ;;
  let s := pushFront s b connection in
  let s := pushFront s d (negate connection) in
  s <- reroute s a b c d ;;
  _ <- ASSERT (nonempty (collapsedHalfEdges s (- a))) ;;
  _ <- ASSERT (nonempty (collapsedHalfEdges s b)) ;;
  _ <- ASSERT (nonempty (collapsedHalfEdges s (- c))) ;;
  _ <- ASSERT (nonempty (collapsedHalfEdges s d)) ;;
  Ok s.

(** *** [check] *)

(** The first loop: every face that is neither on the boundary nor collapsed
    closes across the vertical. *)
Definition checkFace (s : Surface) (e : HalfEdge) : Result unit :=
  let surface := combinatorial s in
  if boundary surface e then Ok tt
  else if nextInFace surface e =? - e then Ok tt
  else
    let zero :=
      perpendicular s (vector (fromEdge s e))
      + perpendicular s (vector (fromEdge s (nextInFace surface e)))
      + perpendicular s (vector (fromEdge s (previousInFace surface e))) in
    ASSERT (zero =? 0).

(** One round of the second loop: the triangle of [e], unless its face is
    collapsed, and three times the triangle spanned by [e] and each of the
    connections hidden in it. *)
Definition addArea (s : Surface) (area0 : Z) (e : HalfEdge) : Z :=
  let surface := combinatorial s in
  let area1 :=
    if negb (nextInFace surface e =? previousInFace surface e) then
      area0 + area (vector (fromEdge s e))
                   (vector (fromEdge s (nextInFace surface e)))
                   (vector (fromEdge s (previousInFace surface e)))
    else area0 in
  fold_left
    (fun acc connection =>
       acc + 3 * area (vector connection)
                      (Vec.sub (vector (fromEdge s e)) (vector connection))
                      (vector (negate (fromEdge s e))))
    (cross s e) area1.

Fixpoint areaLoop (s : Surface) (l : list HalfEdge) (acc : Z) : Result Z :=
  match l with
  | [] => Ok acc
  | e :: l' =>
      if boundary (combinatorial s) e then Err NotImplemented
      else areaLoop s l' (addArea s acc e)
  end.

Definition check (s : Surface) : Result unit :=
  _ <- forEach (checkFace s) (halfEdges (combinatorial s)) ;;
  total <- areaLoop s (halfEdges (combinatorial s)) 0 ;;
  _ <- ASSERT (total =? originalArea (original s)) ;;
  forEach (fun e => ASSERT (checkConnection (vectors s e)))
          (halfEdges (combinatorial s)).

(** *** [flip], [collapse] and [make] *)

(** Modelled from the spec: [FlatTriangulationCombinatorial::flip] is not
    among the sources.  Where the face cycles were [(a b e)(c d -e)] they
    become [(a -e d)(c e b)]; the vertex permutation follows the faces: the
    half edge after [h] around its source is the opposite of the one before
    [h] in its face. *)
Definition flipFaces (c : FlatTriangulationCombinatorial) (e : HalfEdge)
  : FlatTriangulationCombinatorial :=
  let a := nextInFace c e in
  let b := nextInFace c a in
  let c' := nextInFace c (- e) in
  let d := nextInFace c c' in
  let f := faces c in
  let f := upd f a (- e) in
  let f := upd f (- e) d in
  let f := upd f d a in
  let f := upd f c' e in
  let f := upd f e b in
  let f := upd f b c' in
  Combinatorial (halfEdges c)
                (fun h => - preimage (halfEdges c) f h)
                f (boundary c).

(** [FlatTriangulationCombinatorial::flip(e)]: the faces are rearranged and
    [afterFlip(e)] is emitted; of the two subscribed stores, the hook of
    [vectors] does all the work on both of them. *)
Definition flipCombinatorial (s : Surface) (e : HalfEdge) : Result Surface :=
  updateAfterFlip (withCombinatorial s (flipFaces (combinatorial s) e)) e.

(** [FlatTriangulationCollapsed<T>::collapse(e)]: the combinatorial collapse
    emits [beforeCollapse] and then changes the structure. *)
Definition collapse (s : Surface) (e : HalfEdge) : Result Surface :=
  s <- updateBeforeCollapse s e ;;
  let s := collapseCombinatorial s e in
  _ <- check s ;;
  Ok s.

Definition next3 (s : Surface) (e : HalfEdge) : HalfEdge :=
  let surface := combinatorial s in
  nextInFace surface (nextInFace surface (nextInFace surface e)).

(** [FlatTriangulationCollapsed<T>::flip(e)] *)
Definition flip (s : Surface) (e : HalfEdge) : Result Surface :=
  _ <- CHECK_ARGUMENT (large s e) ;;
  _ <- CHECK_ARGUMENT ((next3 s e =? e) && (next3 s (- e) =? - e)) ;;
  let e := if perpendicular s (vector (fromEdge s e)) <? 0 then - e else e in
  s <- flipCombinatorial s e ;;
  s <- (if parallel s e then collapse s e else Ok s) ;;
  _ <- check s ;;
  Ok s.

(** The constructor: no connection is hidden and every half edge carries the
    saddle connection along itself in the original surface, from [e] to
    [-e]. *)
Definition construct (surface : Flat.FlatTriangulation) (vertical : Vector)
  : Surface :=
  Build (Flat.combinatorial surface) surface vertical
        (fun _ => [])
        (fun e => connect e (- e) (Flat.fromEdge surface e)).

(** The loop of [make]: as long as some half edge is parallel to the
    vertical, the first such is collapsed.  [fuel] bounds the number of
    rounds; [None] means the bound was reached. *)
Fixpoint collapseVerticals (fuel : nat) (s : Surface)
  : option (Result Surface) :=
  match find (parallel s) (halfEdges (combinatorial s)) with
  | None => Some (Ok s)
  | Some e =>
      match fuel with
      | O => None
      | S fuel' =>
          match collapse s e with
          | Ok s' => collapseVerticals fuel' s'
          | Err err => Some (Err err)
          end
      end
  end.

(** [FlatTriangulationCollapsed<T>::make(surface, vertical)] *)
Definition make (fuel : nat) (surface : Flat.FlatTriangulation)
    (vertical : Vector) : option (Result Surface) :=
  match collapseVerticals fuel (construct surface vertical) with
  | None => None
  | Some r => Some (ret <- r ;; _ <- check ret ;; Ok ret)
  end.

(** *** [inSector], [turn] and [uncollapsed] *)

(** [inSector(HalfEdge sector, const Vector& vector)] *)
Definition inSector (s : Surface) (sector : HalfEdge) (v : Vector) : bool :=
  negb (Vec.CCW_eqb (Vec.ccw (vector (fromEdge s sector)) v) Vec.CLOCKWISE)
  && Vec.CCW_eqb
       (Vec.ccw (vector (negate (fromEdge s (previousInFace (combinatorial s)
                                                           sector)))) v)
       Vec.CLOCKWISE.

(** [inSector(HalfEdge sector, const Vertical& vector)] *)
Definition inSectorVertical (s : Surface) (sector : HalfEdge) : bool :=
  inSector s sector (vertical s).

(** [uncollapsed()] *)
Definition uncollapsed (s : Surface) : Flat.FlatTriangulation := original s.

(** [std::unordered_set<SaddleConnection>(begin, end)]: the connections are
    inserted one after the other, and one that is [==] to an element of the
    set is not inserted. *)
Fixpoint unorderedSet (connections seen : list SC) : list SC :=
  match connections with
  | [] => seen
  | c :: rest =>
      if existsb (equal c) seen then unorderedSet rest seen
      else unorderedSet rest (seen ++ [c])
  end.

Context `{Vertex.Vertices}.

(** The loop of [turn]: [fuel] bounds the number of rounds, [None] means
    that the bound was reached. *)
Fixpoint turnLoop (fuel : nat) (s : Surface) (from to : HalfEdge)
    (connections : list SC) : option (list SC) :=
  if from =? to then Some connections
  else
    match fuel with
    | O => None
    | S fuel' =>
        turnLoop fuel' s (previousAtVertex (combinatorial s) from) to
                 (connections ++ cross s from)
    end.

(** [turn(from, to)] *)
Definition turn (fuel : nat) (s : Surface) (from to : HalfEdge)
  : option (Result (list SC)) :=
  if negb (Vertex.eqb (Vertex.source from (combinatorial s))
                      (Vertex.source to (combinatorial s)))
  then Some (Err InvalidArgument)
  else
    match turnLoop fuel s from to [] with
    | None => None
    | Some connections =>
        Some (_ <- ASSERT (Nat.eqb (length (unorderedSet connections []))
                                   (length connections)) ;;
              Ok connections)
    end.

End Surface.

End Collapsed.

(** ** The saddle connection query builder (saddle_connections.cc) *)

Module Query.

(** Modelled from the spec: [Bound] (bound.hpp is not among the sources) is a
    search radius, ordered; it is kept as an integer. *)
Definition Bound : Type := Z.

(** [std::min] *)
Definition min (a b : Bound) : Bound := if b <? a then b else a.

(** [ImplementationOf<SaddleConnections<Surface>>::Sector]: the half edge
    the sector starts at and, once refined, its two boundaries. *)
Record Sector : Type := mkSector {
  source : HalfEdge;
  sector : option (Vector * Vector)
}.

Record SaddleConnections : Type := Build {
  surface : Flat.FlatTriangulation;
  sectors : list Sector;
  searchRadius : option Bound
}.

(** [ImplementationOf(surface)]: one sector for each half edge, no bound. *)
Definition all (surface : Flat.FlatTriangulation) : SaddleConnections :=
  Build surface
        (map (fun he => mkSector he None)
             (halfEdges (Flat.combinatorial surface)))
        None.

(** [bound(searchRadius)]: the implementation is copied and its radius
    lowered. *)
Definition bound (self : SaddleConnections) (searchRadius : Bound)
  : SaddleConnections :=
  Build (surface self) (sectors self)
        (Some (match Query.searchRadius self with
               | Some r => min r searchRadius
               | None => searchRadius
               end)).

(** [sector(HalfEdge)] *)
Definition sectorAt (self : SaddleConnections) (source : HalfEdge)
  : SaddleConnections :=
  Build (surface self)
        (filter (fun s => Query.source s =? source) (sectors self))
        (searchRadius self).

Definition inSectorExclusive (v b e : Vector) : Result bool :=
  r <- Vec.inSector v b e ;;
  Ok (r && negb (Vec.CCW_eqb (Vec.ccw v b) Vec.COLLINEAR
                 && Vec.ORIENTATION_eqb (Vec.orientation v b) Vec.SAME)).

(** The boundaries of a sector: those it was refined to or else the two
    edges of the corner at [source]. *)
Definition boundaries (surface : Flat.FlatTriangulation) (s : Sector)
  : Vector * Vector :=
  match sector s with
  | Some p => p
  | None => (Flat.fromEdge surface (source s),
             Flat.fromEdge surface
               (nextAtVertex (Flat.combinatorial surface) (source s)))
  end.

(** [Sector::refine(surface, sectorBegin, sectorEnd)] *)
Definition refine (surface : Flat.FlatTriangulation) (this : Sector)
    (sectorBegin sectorEnd : Vector) : Result (list Sector) :=
  let source := Query.source this in
  let sector := boundaries surface this in
  _ <- ASSERT (negb (Vec.CCW_eqb
                       (Vec.ccw (fst sector) (Flat.fromEdge surface source))
                       Vec.CLOCKWISE)) ;;
  _ <- ASSERT (negb (Vec.CCW_eqb
                       (Vec.ccw (snd sector) (Flat.fromEdge surface source))
                       Vec.COUNTERCLOCKWISE)) ;;
  beginInside <- Vec.inSector sectorBegin (fst sector) (snd sector) ;;
  if beginInside then
    if Vec.CCW_eqb (Vec.ccw sectorBegin sectorEnd) Vec.CLOCKWISE then
      let fromBegin := mkSector source (Some (sectorBegin, snd sector)) in
      let toEnd := mkSector source (Some (fst sector, sectorEnd)) in
      if Vec.CCW_eqb (Vec.ccw (fst sector) sectorEnd) Vec.COUNTERCLOCKWISE
      then Ok [fromBegin; toEnd]
      else Ok [fromBegin]
    else
      endInside <- Vec.inSector sectorEnd (fst sector) (snd sector) ;;
      if endInside then Ok [mkSector source (Some (sectorBegin, sectorEnd))]
      else Ok [mkSector source (Some (sectorBegin, snd sector))]
  else
    endInside <- inSectorExclusive sectorEnd (fst sector) (snd sector) ;;
    if endInside then Ok [mkSector source (Some (fst sector, sectorEnd))]
    else
      firstInside <- Vec.inSector (fst sector) sectorBegin sectorEnd ;;
      if firstInside then Ok [this] else Ok [].

(** The loop of [sector(sectorBegin, sectorEnd)] over the sectors. *)
Fixpoint refineAll (surface : Flat.FlatTriangulation) (l : list Sector)
    (sectorBegin sectorEnd : Vector) : Result (list Sector) :=
  match l with
  | [] => Ok []
  | s :: l' =>
      refined <- refine surface s sectorBegin sectorEnd ;;
      rest <- refineAll surface l' sectorBegin sectorEnd ;;
      Ok (refined ++ rest)
  end.

(** [sector(const Vector&, const Vector&)] *)
Definition sectorBetween (self : SaddleConnections)
    (sectorBegin sectorEnd : Vector) : Result SaddleConnections :=
  l <- refineAll (surface self) (sectors self) sectorBegin sectorEnd ;;
  Ok (Build (surface self) l (searchRadius self)).

Section Contains.

Context {SC : Type} `{Connection SC}.

(** [Sector::contains(connection)] *)
Definition contains (s : Sector) (connection : SC) : Result bool :=
  if negb (Conn.source connection =? Query.source s) then Ok false
  else
    match sector s with
    | None => Ok true
    | Some (first, second) =>
        Vec.inSector (vector connection) first second
    end.

End Contains.

(** [SaddleConnections(surface, searchRadius)] *)
Definition make (surface : Flat.FlatTriangulation) (searchRadius : Bound)
  : SaddleConnections :=
  bound (all surface) searchRadius.

(** [SaddleConnections(surface, searchRadius, HalfEdge sectorBegin)] *)
Definition makeAt (surface : Flat.FlatTriangulation) (searchRadius : Bound)
    (sectorBegin : HalfEdge) : SaddleConnections :=
  sectorAt (bound (all surface) searchRadius) sectorBegin.

Section Vertices.

Context `{Vertex.Vertices}.

(** [source(const Vertex&)] *)
Definition sourceAt (self : SaddleConnections) (source : Vertex.t)
  : SaddleConnections :=
  Build (surface self)
        (filter (fun sector =>
                   Vertex.eqb
                     (Vertex.source (Query.source sector)
                                    (Flat.combinatorial (surface self)))
                     source)
                (sectors self))
        (searchRadius self).

(** [SaddleConnections(surface, searchRadius, Vertex source)] *)
Definition makeFrom (surface : Flat.FlatTriangulation) (searchRadius : Bound)
    (source : Vertex.t) : SaddleConnections :=
  sourceAt (bound (all surface) searchRadius) source.

(** The walk around the vertex in the last branch of
    [sector(SaddleConnection, SaddleConnection)]: whether the source of
    [sectorEnd] comes before that of [sectorBegin].  [fuel] bounds the number
    of steps, [None] means that the bound was reached. *)
Fixpoint walkTo (fuel : nat) (c : FlatTriangulationCombinatorial)
    (walk beginSource endSource : HalfEdge) : option bool :=
  if walk =? beginSource then Some false
  else if walk =? endSource then Some true
  else
    match fuel with
    | O => None
    | S fuel' => walkTo fuel' c (nextAtVertex c walk) beginSource endSource
    end.

Context {SC : Type} `{Connection SC}.

(** The body of the loop of [sector(SaddleConnection, SaddleConnection)]:
    what one sector contributes. *)
Definition sectorOf (fuel : nat) (surface : Flat.FlatTriangulation)
    (sector : Sector) (sectorBegin sectorEnd : SC)
  : option (Result (list Sector)) :=
  if Conn.source sectorBegin =? Conn.source sectorEnd then
    if Query.source sector =? Conn.source sectorBegin then
      Some (refine surface sector (vector sectorBegin) (vector sectorEnd))
    else if Vec.CCW_eqb (Vec.ccw (vector sectorBegin) (vector sectorEnd))
                        Vec.CLOCKWISE
    then Some (Ok [sector])
    else Some (Ok [])
  else if Query.source sector =? Conn.source sectorBegin then
    Some (refine surface sector (vector sectorBegin)
            (Flat.fromEdge surface
               (nextAtVertex (Flat.combinatorial surface)
                             (Query.source sector))))
  else if Query.source sector =? Conn.source sectorEnd then
    if Vec.CCW_eqb (Vec.ccw (Flat.fromEdge surface (Query.source sector))
                            (vector sectorEnd))
                   Vec.COLLINEAR
    then Some (Ok [])
    else Some (refine surface sector
                 (Flat.fromEdge surface (Query.source sector))
                 (vector sectorEnd))
  else
    match walkTo fuel (Flat.combinatorial surface) (Query.source sector)
                 (Conn.source sectorBegin) (Conn.source sectorEnd) with
    | None => None
    | Some true => Some (Ok [sector])
    | Some false => Some (Ok [])
    end.

Fixpoint sectorsOf (fuel : nat) (surface : Flat.FlatTriangulation)
    (l : list Sector) (sectorBegin sectorEnd : SC)
  : option (Result (list Sector)) :=
  match l with
  | [] => Some (Ok [])
  | sector :: l' =>
      match sectorOf fuel surface sector sectorBegin sectorEnd with
      | None => None
      | Some (Err err) => Some (Err err)
      | Some (Ok refined) =>
          match sectorsOf fuel surface l' sectorBegin sectorEnd with
          | None => None
          | Some rest => Some (rest <- rest ;; Ok (refined ++ rest))
          end
      end
  end.

(** [sector(const SaddleConnection&, const SaddleConnection&)] *)
Definition sectorConnections (fuel : nat) (self : SaddleConnections)
    (sectorBegin sectorEnd : SC) : option (Result SaddleConnections) :=
  let c := Flat.combinatorial (surface self) in
  let ret :=
    sourceAt (sourceAt self (Vertex.source (Conn.source sectorBegin) c))
             (Vertex.source (Conn.source sectorEnd) c) in
  match sectorsOf fuel (surface self) (sectors ret) sectorBegin sectorEnd with
  | None => None
  | Some r =>
      Some (sectors <- r ;;
            Ok (Build (surface self) sectors (searchRadius self)))
  end.

End Vertices.

End Query.

(** * Vocabulary of the properties *)

(** The sum of the three vectors around the face of [e]. *)
Definition faceVectorSum (s : Flat.FlatTriangulation) (e : HalfEdge)
  : Vector :=
  let c := Flat.combinatorial s in
  Vec.add (Vec.add (Flat.fromEdge s e) (Flat.fromEdge s (nextInFace c e)))
          (Flat.fromEdge s (nextInFace c (nextInFace c e))).

(** Two half edges are distinct.  The hypotheses on the distinctness of the
    half edges of a gadget are kept folded, and used one at a time. *)
Definition distinct (h h' : HalfEdge) : Prop := h <> h'.

(** [faces] is a permutation of the listed half edges. *)
Definition injective (c : FlatTriangulationCombinatorial) : Prop :=
  forall h h', In h (halfEdges c) -> In h' (halfEdges c) ->
               faces c h = faces c h' -> h = h'.

(** The face cycles of [c] at [flip] are [(a b flip)(c d -flip)]. *)
Definition facesAt (t : FlatTriangulationCombinatorial)
    (a b flip c d : HalfEdge) : Prop :=
  nextInFace t a = b /\ nextInFace t b = flip /\ nextInFace t flip = a
  /\ nextInFace t c = d /\ nextInFace t d = - flip
  /\ nextInFace t (- flip) = c.


(** ** Examples *)

(** A permutation given by its cycles, as the triangulations print them. *)
Fixpoint successors (first : HalfEdge) (cycle : list HalfEdge)
  : list (HalfEdge * HalfEdge) :=
  match cycle with
  | [] => []
  | h :: t =>
      match t with
      | [] => [(h, first)]
      | h' :: _ => (h, h') :: successors first t
      end
  end.

Definition ofCycles (cycles : list (list HalfEdge)) : Permutation :=
  let table := flat_map (fun c => successors (hd 0 c) c) cycles in
  fun h =>
    match find (fun p => fst p =? h) table with
    | Some p => snd p
    | None => h
    end.

Definition closedSurface (edges : list HalfEdge)
    (vertexCycles faceCycles : list (list HalfEdge))
  : FlatTriangulationCombinatorial :=
  Combinatorial (flat_map (fun e => [e; - e]) edges)
                (ofCycles vertexCycles) (ofCycles faceCycles)
                (fun _ => false).

(** The square torus: two triangles [(1 2 3)(-1 -2 -3)] around one vertex,
    with the vectors of scenario 1 of the spec. *)
Definition torus : FlatTriangulationCombinatorial :=
  closedSurface [1; 2; 3] [[1; -3; 2; -1; 3; -2]] [[1; 2; 3]; [-1; -2; -3]].

Definition torusVectors : list Vector := [V 1 0; V 0 1; V (-1) (-1)].

Definition flatTorus : Flat.FlatTriangulation :=
  Flat.Build torus (Flat.fromList torusVectors).

(** The torus after the flip of the diagonal: [(1 -3 -2)(-1 3 2)]. *)
Definition torusFlipped : FlatTriangulationCombinatorial :=
  closedSurface [1; 2; 3] [[1; 2; -3; -1; -2; 3]]
                [[1; -3; -2]; [-1; 3; 2]].

(** A collapsed surface on the square torus whose diagonal hides one
    vertical connection on either side; every half edge carries the
    connection along itself. *)
Definition verticalConnection : Triple.SaddleConnection :=
  Triple.SC 2 (- 2) (V 0 1).

Definition torusWithHidden : @Collapsed.Surface Triple.SaddleConnection :=
  Collapsed.Build torus flatTorus (V 0 1)
    (upd (upd (fun _ => []) 3 [verticalConnection])
         (- 3) [Triple.negate verticalConnection])
    (fun e => Triple.SC e (- e) (Flat.fromList torusVectors e)).

(** The outer half edges [a], [b], [c], [d] of the gadget
    [(a -collapse d)(c collapse b)], as [updateBeforeCollapse] reads them. *)
Definition gadget (t : FlatTriangulationCombinatorial) (collapse : HalfEdge)
  : HalfEdge * HalfEdge * HalfEdge * HalfEdge :=
  (previousInFace t (- collapse), nextInFace t collapse,
   previousInFace t collapse, nextInFace t (- collapse)).

(** The torus of two unit squares side by side, each cut along its
    diagonal: [(1 4 -5)(5 -1 -3)(2 3 -6)(6 -2 -4)], with the horizontal
    edges [1], [2], the vertical edges [3], [4] and the diagonals [5],
    [6]. *)
Definition twoSquares : FlatTriangulationCombinatorial :=
  closedSurface [1; 2; 3; 4; 5; 6]
    [[1; 5; 3; -2; -6; -3]; [4; -1; -5; -4; 2; 6]]
    [[1; 4; -5]; [5; -1; -3]; [2; 3; -6]; [6; -2; -4]].

Definition twoSquaresVectors : list Vector :=
  [V 1 0; V 1 0; V 0 1; V 0 1; V 1 1; V 1 1].

Definition flatTwoSquares : Flat.FlatTriangulation :=
  Flat.Build twoSquares (Flat.fromList twoSquaresVectors).

(** The collapsed surface the constructor builds on the torus of two
    squares for the vertical [(0,1)]. *)
Definition collapsedTwoSquares : @Collapsed.Surface Triple.SaddleConnection :=
  Collapsed.construct (H := connectionsOf twoSquares) flatTwoSquares (V 0 1).

Section Vocabulary.

Context {SC : Type} `{Connection SC}.

(** The relation of the spec between the lists hidden in the two half edges
    of an edge. *)
Definition hiddenSymmetricAt (s : @Collapsed.Surface SC) (e : HalfEdge)
  : Prop :=
  Collapsed.collapsedHalfEdges s (- e)
  = rev (map negate (Collapsed.collapsedHalfEdges s e)).

Definition hiddenSymmetric (s : @Collapsed.Surface SC) : Prop :=
  forall e, hiddenSymmetricAt s e.

(** The half edge [handleCollapse] hands to the handler: the positive half
    edge of the edge, or its opposite when that points against the
    vertical. *)
Definition oriented (s : @Collapsed.Surface SC) (collapse_ : HalfEdge)
  : HalfEdge :=
  let collapse := Z.abs collapse_ in
  if Collapsed.parallelTo s (vector (Collapsed.fromEdge s collapse)) <? 0
  then - collapse else collapse.

End Vocabulary.

(** The error is not [InvalidArgument]. *)
Definition accepted {A : Type} (r : Result A) : Prop :=
  r <> Err InvalidArgument.

Section FlipVocabulary.

Context {SC : Type} `{Connection SC} `{@Collapsed.Collaborators SC}.

(** What [flip] goes on to do once both preconditions are checked. *)
Definition flipChecked (s : @Collapsed.Surface SC) (e : HalfEdge) : Result (@Collapsed.Surface SC) :=
  let e :=
    if Collapsed.perpendicular s (vector (Collapsed.fromEdge s e)) <? 0
    then - e else e in
  s <- Collapsed.flipCombinatorial s e ;;
  s <- (if Collapsed.parallel s e then Collapsed.collapse s e else Ok s) ;;
  _ <- Collapsed.check s ;;
  Ok s.

End FlipVocabulary.

Section CollapsedVocabulary.

Context {SC : Type} `{Connection SC} `{@Collapsed.Collaborators SC}.

(** No half edge of the surface is parallel to the vertical. *)
Definition noVertical (s : @Collapsed.Surface SC) : Prop :=
  forall e, In e (halfEdges (Collapsed.combinatorial s)) ->
            Collapsed.parallel s e = false.

(** Every hidden connection is vertical. *)
Definition hiddenVertical (s : @Collapsed.Surface SC) : Prop :=
  forall e c, In c (Collapsed.collapsedHalfEdges s e) ->
              Collapsed.perpendicular s (vector c) = 0.

(** The outer half edges of the gadget at [e] and their opposites are half
    edges of the surface other than [e] and [-e]. *)
Definition properGadget (t : FlatTriangulationCombinatorial) (e : HalfEdge)
  : Prop :=
  let '(a, b, c, d) := gadget t e in
  forall k, In k [a; b; c; d; - a; - b; - c; - d] ->
            In k (halfEdges t) /\ k <> e /\ k <> - e.


(** What the spec says of the structural part of the collapse: it removes
    the collapsed edge, so that fewer half edges remain, *)
Definition collapseShrinks : Prop :=
  forall (s : @Collapsed.Surface SC) e,
    In e (halfEdges (Collapsed.combinatorial s)) ->
    (length (halfEdges
               (Collapsed.combinatorial (Collapsed.collapseCombinatorial s e)))
     < length (halfEdges (Collapsed.combinatorial s)))%nat.

(** it keeps the original surface and the vertical, and every half edge that
    remains carries the vector and the hidden list that the hooks left at a
    half edge other than the collapsed ones. *)
Definition collapseKeeps : Prop :=
  forall (s : @Collapsed.Surface SC) e,
    let s' := Collapsed.collapseCombinatorial s e in
    Collapsed.original s' = Collapsed.original s
    /\ Collapsed.vertical s' = Collapsed.vertical s
    /\ forall h, In h (halfEdges (Collapsed.combinatorial s')) ->
         exists h', In h' (halfEdges (Collapsed.combinatorial s))
                    /\ h' <> e /\ h' <> - e
                    /\ Collapsed.vectors s' h = Collapsed.vectors s h'
                    /\ Collapsed.collapsedHalfEdges s' h
                       = Collapsed.collapsedHalfEdges s h'.

(** The sum [check] compares with the area of the original surface. *)
Definition totalArea (s : @Collapsed.Surface SC) : Result Z :=
  Collapsed.areaLoop s (halfEdges (Collapsed.combinatorial s)) 0.

End CollapsedVocabulary.

(** Stand-ins, for the examples, for the code the collapsed surface calls
    and that is not among the sources: the area of a triangle is taken
    twice, as the cross product of two of its sides, the area of a flat
    triangulation is summed over its half edges, a half edge is large as the
    spec words it, when its vector points along the vertical, and the
    structural part of the collapse only removes the two half edges of the
    edge. *)
Section Examples.

Context {SC : Type} `{Connection SC}.

Definition exampleArea (surface : Flat.FlatTriangulation) : Z :=
  let t := Flat.combinatorial surface in
  fold_left
    (fun acc e => acc + Vec.cross (Flat.fromEdge surface e)
                                  (Flat.fromEdge surface (nextInFace t e)))
    (halfEdges t) 0.

Definition eraseEdge (s : @Collapsed.Surface SC) (e : HalfEdge)
  : @Collapsed.Surface SC :=
  let t := Collapsed.combinatorial s in
  Collapsed.withCombinatorial s
    (Combinatorial
       (filter (fun h => negb ((h =? e) || (h =? - e))) (halfEdges t))
       (vertices t) (faces t) (boundary t)).

Definition exampleCollaborators : @Collapsed.Collaborators SC := {|
  Collapsed.area := fun a b _ => Vec.cross a b;
  Collapsed.originalArea := exampleArea;
  Collapsed.large := fun s e =>
    0 <? Collapsed.parallelTo s (vector (Collapsed.fromEdge s e));
  Collapsed.collapseCombinatorial := eraseEdge
|}.

End Examples.

(** Two collapsed surfaces with the same original surface, vertical and
    combinatorial structure: the hooks only touch the stores. *)
Definition sameFrame {SC : Type} (s s' : @Collapsed.Surface SC) : Prop :=
  Collapsed.original s = Collapsed.original s'
  /\ Collapsed.vertical s = Collapsed.vertical s'
  /\ Collapsed.combinatorial s = Collapsed.combinatorial s'.

Section FlipVocabulary2.

Context {SC : Type} `{Connection SC}.

(** The half edge [flip] goes on with: [e] or, when its vector points to the
    left of the vertical, [-e]. *)
Definition rightward (s : @Collapsed.Surface SC) (e : HalfEdge) : HalfEdge :=
  if Collapsed.perpendicular s (vector (Collapsed.fromEdge s e)) <? 0
  then - e else e.

End FlipVocabulary2.

(** The vectors of the half edges that are [good] satisfy [P]. *)
Definition allVectors {SC : Type} (P : SC -> Prop) (good : HalfEdge -> Prop)
    (s : @Collapsed.Surface SC) : Prop :=
  forall k, good k -> P (Collapsed.vectors s k).

(** [v] is collinear with [b] and points the other way. *)
Definition opposite (v b : Vector) : bool :=
  Vec.CCW_eqb (Vec.ccw v b) Vec.COLLINEAR
  && Vec.ORIENTATION_eqb (Vec.orientation v b) Vec.OPPOSITE.

(** The sector spans less than a half turn, as the corner of a triangle
    does. *)
Definition narrow (surface : Flat.FlatTriangulation) (s : Query.Sector)
  : Prop :=
  Vec.ccw (fst (Query.boundaries surface s)) (snd (Query.boundaries surface s))
  = Vec.COUNTERCLOCKWISE.

(** [v] points into the sector: it lies between its boundaries. *)
Definition lies (surface : Flat.FlatTriangulation) (s : Query.Sector)
    (v : Vector) : bool :=
  Vec.inSectorNonzero v (fst (Query.boundaries surface s))
                      (snd (Query.boundaries surface s)).

(** The sector with the given boundaries at the same half edge. *)
Definition between (s : Query.Sector) (b e : Vector) : Query.Sector :=
  Query.mkSector (Query.source s) (Some (b, e)).

(** The branches of [Sector::refine] on a sector with the boundaries [s1]
    and [s2], by what they return. *)
Inductive refined (s1 s2 b e : Vector) (this : Query.Sector)
  : list Query.Sector -> Prop :=
| refined_both :
    Vec.inSectorNonzero b s1 s2 = true ->
    Vec.ccw b e = Vec.CLOCKWISE ->
    Vec.ccw s1 e = Vec.COUNTERCLOCKWISE ->
    refined s1 s2 b e this [between this b s2; between this s1 e]
| refined_fromBegin :
    Vec.inSectorNonzero b s1 s2 = true ->
    Vec.ccw b e = Vec.CLOCKWISE ->
    Vec.ccw s1 e <> Vec.COUNTERCLOCKWISE ->
    refined s1 s2 b e this [between this b s2]
| refined_inside :
    Vec.inSectorNonzero b s1 s2 = true ->
    Vec.ccw b e <> Vec.CLOCKWISE ->
    Vec.nonzero e = true ->
    Vec.inSectorNonzero e s1 s2 = true ->
    refined s1 s2 b e this [between this b e]
| refined_upToSecond :
    Vec.inSectorNonzero b s1 s2 = true ->
    Vec.ccw b e <> Vec.CLOCKWISE ->
    Vec.nonzero e = true ->
    Vec.inSectorNonzero e s1 s2 = false ->
    refined s1 s2 b e this [between this b s2]
| refined_toEnd :
    Vec.inSectorNonzero b s1 s2 = false ->
    Vec.nonzero e = true ->
    Vec.inSectorNonzero e s1 s2 = true ->
    Vec.onRay s1 e = false ->
    refined s1 s2 b e this [between this s1 e]
| refined_unchanged :
    Vec.inSectorNonzero b s1 s2 = false ->
    Vec.nonzero e = true ->
    Vec.inSectorNonzero e s1 s2 && negb (Vec.onRay s1 e) = false ->
    Vec.inSectorNonzero s1 b e = true ->
    refined s1 s2 b e this [this]
| refined_none :
    Vec.inSectorNonzero b s1 s2 = false ->
    Vec.nonzero e = true ->
    Vec.inSectorNonzero e s1 s2 && negb (Vec.onRay s1 e) = false ->
    Vec.inSectorNonzero s1 b e = false ->
    refined s1 s2 b e this [].

(** ** Vocabulary of the further properties *)

(** The store holds opposite vectors at opposite half edges. *)
Definition antisymmetric (m : Flat.HalfEdgeMap) : Prop :=
  forall e, e <> 0 -> Flat.get m (- e) = Vec.opp (Flat.get m e).

(** The multiple [k v] of a vector. *)
Definition scale (k : Z) (v : Vector) : Vector :=
  V (k * Vec.x v) (k * Vec.y v).

(** The vertices of a triangulation as the cycles of [vertices]: a vertex is
    named by the least half edge of its cycle. *)
Definition orbitVertices : Vertex.Vertices := {|
  Vertex.t := Z;
  Vertex.source := fun h c =>
    fold_right Z.min h (Triple.orbit (vertices c) (length (halfEdges c)) h);
  Vertex.eqb := Z.eqb;
  Vertex.eqb_eq := Z.eqb_eq
|}.

(** The square torus with the half edge [1] declared to be on the boundary,
    as a collapsed surface on which nothing is hidden. *)
Definition openTorus : @Collapsed.Surface Triple.SaddleConnection :=
  Collapsed.Build
    (Combinatorial (halfEdges torus) (vertices torus) (faces torus)
                   (fun e => e =? 1))
    flatTorus (V 1 2) (fun _ => [])
    (fun e => Triple.SC e (- e) (Flat.fromList torusVectors e)).

(** The cross product of two vectors given by their coordinates [(x, y)]
    with respect to a pair of independent vectors. *)
Definition crossIn (xu yu xw yw : Z) : Z := xu * yw - yu * xw.

Section GadgetVocabulary.

Context {SC : Type} `{Connection SC}.

(** [updateBeforeCollapse] reads the outer half edges [a], [b], [c], [d] at
    [collapse], and the two faces there are the triangles
    [(a -collapse d)(c collapse b)]. *)
Definition collapseFaces (t : FlatTriangulationCombinatorial)
    (a b c d collapse : HalfEdge) : Prop :=
  gadget t collapse = (a, b, c, d)
  /\ nextInFace t a = - collapse /\ nextInFace t d = a
  /\ nextInFace t c = collapse /\ nextInFace t b = c.

(** The face of [e] turns counter-clockwise at the head of [e]: the vector
    of the next half edge points to the left of the vector of [e]. *)
Definition turnsLeft (s : @Collapsed.Surface SC) (e : HalfEdge) : Prop :=
  Vec.ccw (vector (Collapsed.fromEdge s e))
          (vector (Collapsed.fromEdge s
                     (nextInFace (Collapsed.combinatorial s) e)))
  = Vec.COUNTERCLOCKWISE.

(** The vectors of [e] and [-e] have opposite components across the
    vertical: they differ by the vertical connections hidden in the edge. *)
Definition oddAcross (s : @Collapsed.Surface SC) (e : HalfEdge) : Prop :=
  Collapsed.perpendicular s (vector (Collapsed.fromEdge s (- e)))
  = - Collapsed.perpendicular s (vector (Collapsed.fromEdge s e)).

(** How far the vector of [h] turns to the left of the vector of
    [collapse]. *)
Definition leftOf (s : @Collapsed.Surface SC) (collapse h : HalfEdge) : Z :=
  Vec.cross (vector (Collapsed.fromEdge s collapse))
            (vector (Collapsed.fromEdge s h)).

End GadgetVocabulary.

(** The sum of [f] over the half edges of a list. *)
Definition sumOver (f : HalfEdge -> Z) (l : list HalfEdge) : Z :=
  fold_right (fun e acc => f e + acc) 0 l.

Section AreaVocabulary.

Context {SC : Type} `{Connection SC} `{@Collapsed.Collaborators SC}.

(** What one round of the area loop of [check] adds for the triangle of
    [e], *)
Definition faceTerm (s : @Collapsed.Surface SC) (e : HalfEdge) : Z :=
  let surface := Collapsed.combinatorial s in
  if negb (nextInFace surface e =? previousInFace surface e) then
    Collapsed.area
      (vector (Collapsed.fromEdge s e))
      (vector (Collapsed.fromEdge s (nextInFace surface e)))
      (vector (Collapsed.fromEdge s (previousInFace surface e)))
  else 0.

(** and what it adds for the connections hidden in [e]. *)
Definition hiddenTerm (s : @Collapsed.Surface SC) (e : HalfEdge) : Z :=
  fold_left
    (fun acc connection =>
       acc + 3 * Collapsed.area
                   (vector connection)
                   (Vec.sub (vector (Collapsed.fromEdge s e))
                            (vector connection))
                   (vector (negate (Collapsed.fromEdge s e))))
    (Collapsed.cross s e) 0.

(** What the spec and the message of [check] say of the area of a triangle
    with the sides [x], [y], [z]: it is the signed area, taken twice, so
    that the sum over the three half edges of every face is six times the
    area of the surface. *)
Definition areaOfTriangles : Prop :=
  forall x y z : Vector,
    Vec.add (Vec.add x y) z = Vec.zero -> Collapsed.area x y z = Vec.cross x y.

(** What the spec says of the equality of saddle connections: equal
    connections have equal vectors. *)
Definition equalVectors : Prop :=
  forall c d : SC, equal c d = true -> vector c = vector d.

(** The sum of the vectors of a list of connections. *)
Definition vectorSum (l : list SC) : Vector :=
  fold_right (fun c acc => Vec.add (vector c) acc) Vec.zero l.

End AreaVocabulary.

Section InvariantVocabulary.

Context {SC : Type} `{Connection SC}.

(** The vectors around the face of [e] sum to zero. *)
Definition closedFace (s : @Collapsed.Surface SC) (e : HalfEdge) : Prop :=
  let t := Collapsed.combinatorial s in
  Vec.add (Vec.add (vector (Collapsed.fromEdge s e))
                   (vector (Collapsed.fromEdge s (nextInFace t e))))
          (vector (Collapsed.fromEdge s (nextInFace t (nextInFace t e))))
  = Vec.zero.

(** What holds of a collapsed surface at an edge [flip] between the
    triangles [(a b flip)(c d -flip)]: the half edges are listed once and
    none of them is [0], [faces] is a permutation, the two triangles are
    distinct and their vectors close, the hidden connections are vertical,
    and the vectors of [b] and [-b], and of [d] and [-d], have opposite
    components across the vertical. *)
Definition flipInvariants (s : @Collapsed.Surface SC)
    (a b flip c d : HalfEdge) : Prop :=
  let t := Collapsed.combinatorial s in
  NoDup (halfEdges t) /\ ~ In 0 (halfEdges t) /\ injective t
  /\ (forall h, In h [a; b; flip; c; d; - flip; - b; - d] ->
                In h (halfEdges t))
  /\ NoDup [a; b; flip; c; d; - flip]
  /\ facesAt t a b flip c d
  /\ Collapsed.vertical s <> Vec.zero
  /\ hiddenVertical s
  /\ oddAcross s b /\ oddAcross s d
  /\ closedFace s a /\ closedFace s c.

(** What holds of a collapsed surface at a vertical edge [collapse] between
    the triangles [(a -collapse d)(c collapse b)]: [faces] is a
    permutation, the two triangles are distinct and their vectors close,
    the outer half edges and their opposites are distinct, the hidden
    connections are vertical, and the vectors of every outer half edge and
    of its opposite have opposite components across the vertical. *)
Definition collapseInvariants (s : @Collapsed.Surface SC)
    (a b c d collapse : HalfEdge) : Prop :=
  let t := Collapsed.combinatorial s in
  injective t
  /\ (forall h, In h [a; - collapse; d; c; collapse; b] ->
                In h (halfEdges t))
  /\ collapseFaces t a b c d collapse
  /\ NoDup [a; - collapse; d; c; collapse; b]
  /\ NoDup [a; b; c; d; - a; - b; - c; - d]
  /\ Collapsed.vertical s <> Vec.zero
  /\ hiddenVertical s
  /\ oddAcross s a /\ oddAcross s b /\ oddAcross s c /\ oddAcross s d
  /\ closedFace s a /\ closedFace s c.

End InvariantVocabulary.

(** * Properties *)

(** ** Stores and loops *)

Lemma upd_eq {A : Type} (m : HalfEdge -> A) k a : upd m k a k = a.
Proof. unfold upd. now rewrite Z.eqb_refl. Qed.

Lemma upd_ne {A : Type} (m : HalfEdge -> A) k a h :
  h <> k -> upd m k a h = m h.
Proof. unfold upd. intros Hne. apply Z.eqb_neq in Hne. now rewrite Hne. Qed.

Lemma forEach_check_argument {A : Type} (p : A -> bool) (l : list A) :
  forEach (fun a => CHECK_ARGUMENT (p a)) l
  = if forallb p l then Ok tt else Err InvalidArgument.
Proof.
  induction l as [|a l IH]; simpl; [reflexivity|].
  unfold CHECK_ARGUMENT at 1. destruct (p a); simpl; [exact IH | reflexivity].
Qed.

Lemma forEach_assert {A : Type} (p : A -> bool) (l : list A) :
  forEach (fun a => ASSERT (p a)) l
  = if forallb p l then Ok tt else Err InvariantViolated.
Proof.
  induction l as [|a l IH]; simpl; [reflexivity|].
  unfold ASSERT at 1. destruct (p a); simpl; [exact IH | reflexivity].
Qed.

Lemma forEach_Ok {A : Type} (f : A -> Result unit) (l : list A) :
  forEach f l = Ok tt <-> (forall a, In a l -> f a = Ok tt).
Proof.
  induction l as [|a l IH]; simpl.
  - split; [intros _ b [] | reflexivity].
  - destruct (f a) as [[]|err] eqn:Hfa; simpl.
    + rewrite IH. split.
      * intros Hl b [<-|Hb]; [exact Hfa | now apply Hl].
      * intros Hl b Hb. apply Hl. now right.
    + split; [discriminate|].
      intros Hl. specialize (Hl a (or_introl eq_refl)). congruence.
Qed.

(** ** Vectors *)

Lemma Vec_eqb_eq (u v : Vector) : Vec.eqb u v = true <-> u = v.
Proof.
  destruct u as [a b], v as [c d]. unfold Vec.eqb. simpl.
  rewrite andb_true_iff, !Z.eqb_eq. split.
  - intros [-> ->]. reflexivity.
  - intros [= -> ->]. split; reflexivity.
Qed.

Lemma Vec_nonzero_false (u : Vector) :
  Vec.nonzero u = false <-> u = Vec.zero.
Proof.
  unfold Vec.nonzero. rewrite negb_false_iff. apply Vec_eqb_eq.
Qed.

Lemma Vec_nonzero_true (u : Vector) :
  Vec.nonzero u = true <-> u <> Vec.zero.
Proof.
  unfold Vec.nonzero. rewrite negb_true_iff, <- not_true_iff_false.
  now rewrite Vec_eqb_eq.
Qed.

(** ** Flat triangulations *)

(** C9: the constructor of a flat triangulation from a combinatorial
    triangulation and the vectors of its half edges fails with
    [InvalidArgument] exactly when the three vectors around the face of some
    half edge do not sum to zero; otherwise it succeeds, and every flat
    triangulation it returns has all its faces closed. *)
Theorem Flat_make_face_closure (c : FlatTriangulationCombinatorial)
    (l : list Vector) :
  (Flat.make c l = Err InvalidArgument
   <-> exists e, In e (halfEdges c)
                 /\ faceVectorSum (Flat.Build c (Flat.fromList l)) e
                    <> Vec.zero)
  /\ (Flat.make c l <> Err InvalidArgument
      -> Flat.make c l = Ok (Flat.Build c (Flat.fromList l)))
  /\ (forall s, Flat.make c l = Ok s ->
        forall e, In e (halfEdges (Flat.combinatorial s)) ->
                  faceVectorSum s e = Vec.zero).
Proof.
  unfold Flat.make, Flat.make_from_map.
  rewrite forEach_check_argument.
  set (closed := fun edge =>
         negb (Vec.nonzero (Flat.faceSum c (Flat.fromList l) edge))).
  destruct (forallb closed (halfEdges c)) eqn:Hall; simpl.
  - rewrite forallb_forall in Hall. split; [|split].
    + split; [discriminate|]. intros (e & Hin & Hne). exfalso. apply Hne.
      specialize (Hall e Hin). unfold closed in Hall.
      apply negb_true_iff, Vec_nonzero_false in Hall. exact Hall.
    + reflexivity.
    + intros s [= <-] e Hin. simpl in Hin.
      specialize (Hall e Hin). unfold closed in Hall.
      apply negb_true_iff, Vec_nonzero_false in Hall. exact Hall.
  - split; [|split].
    + split; [intros _|reflexivity].
      assert (Hex : existsb (fun e => negb (closed e)) (halfEdges c) = true).
      { clear -Hall. induction (halfEdges c) as [|a t IH]; simpl in *.
        - discriminate.
        - destruct (closed a); simpl in *; [now apply IH | reflexivity]. }
      apply existsb_exists in Hex. destruct Hex as (e & Hin & Hne).
      exists e. split; [exact Hin|].
      unfold closed in Hne. rewrite negb_involutive in Hne.
      apply Vec_nonzero_true in Hne. exact Hne.
    + intros Hne. now elim Hne.
    + discriminate.
Qed.

(** C6: after the flip of [e], the hook stores at [e] the sum of the vectors
    of [-nextInFace(e)] and of [nextAtVertex(e)], both half edges taken in
    the flipped triangulation [parent], and the store then holds the
    negative of that vector at [-e]; no other half edge is touched. *)
Theorem Flat_updateAfterFlip_vectors (map : Flat.HalfEdgeMap) (e : HalfEdge)
    (parent : FlatTriangulationCombinatorial) :
  e <> 0 ->
  let map' := Flat.updateAfterFlip map e parent in
  Flat.get map' e
  = Vec.add (Flat.get map (- nextInFace parent e))
            (Flat.get map (nextAtVertex parent e))
  /\ Flat.get map' (- e) = Vec.opp (Flat.get map' e)
  /\ forall h, h <> e -> h <> - e -> Flat.get map' h = Flat.get map h.
Proof.
  intros He map'. unfold map', Flat.updateAfterFlip, Flat.set, Flat.get.
  rewrite upd_eq. split; [reflexivity|]. split.
  - rewrite upd_ne by lia. now rewrite upd_eq.
  - intros h H1 H2. now rewrite !upd_ne.
Qed.

(** The flip of the diagonal of the square torus of scenario 2 of the spec:
    the new diagonal is [(1,-1)]. *)
Lemma Flat_updateAfterFlip_vectors_witness :
  let map' :=
    Flat.updateAfterFlip (Flat.fromList torusVectors) 3 torusFlipped in
  3 <> 0
  /\ Flat.get map' 3 = V 1 (- 1)
  /\ Flat.get map' (- 3) = V (- 1) 1.
Proof.
  intros map'.
  assert (H3 : 3 <> 0) by discriminate.
  destruct (Flat_updateAfterFlip_vectors (Flat.fromList torusVectors)
              torusFlipped H3) as (Hget & Hopp & _).
  fold map' in Hget, Hopp.
  split; [exact H3|]. split.
  - rewrite Hget. reflexivity.
  - transitivity (Vec.opp (Flat.get map' 3)); [exact Hopp|].
    rewrite Hget. reflexivity.
Defined.

(** ** The query builder *)

Lemma Query_min_is_min (a b : Query.Bound) : Query.min a b = Z.min a b.
Proof. unfold Query.min. destruct (Z.ltb_spec b a); lia. Qed.

(** C10: bounding a query by [r1] and then by [r2] yields the very query
    that bounding by the smaller of the two radii yields, its radius being
    the minimum of the radius it had, [r1] and [r2]; so [bound] is
    idempotent and the order of two bounds does not matter. *)
Theorem Query_bound_bound (q : Query.SaddleConnections)
    (r1 r2 : Query.Bound) :
  Query.bound (Query.bound q r1) r2 = Query.bound q (Query.min r1 r2)
  /\ Query.searchRadius (Query.bound (Query.bound q r1) r2)
     = Some (match Query.searchRadius q with
             | Some r => Z.min r (Z.min r1 r2)
             | None => Z.min r1 r2
             end)
  /\ Query.bound (Query.bound q r1) r1 = Query.bound q r1
  /\ Query.bound (Query.bound q r1) r2 = Query.bound (Query.bound q r2) r1.
Proof.
  assert (Hidem : forall a : Z, Z.min a a = a) by (intros; lia).
  assert (Hidem' : forall a b : Z, Z.min (Z.min a b) b = Z.min a b)
    by (intros; lia).
  assert (Hassoc : forall a b c : Z, Z.min (Z.min a b) c = Z.min a (Z.min b c))
    by (intros; lia).
  assert (Hcomm : forall a b c : Z, Z.min (Z.min a b) c = Z.min (Z.min a c) b)
    by (intros; lia).
  destruct q as [surface sectors [r|]]; unfold Query.bound; simpl;
    rewrite ?Query_min_is_min; repeat split;
    rewrite ?Hidem, ?Hidem', ?Hassoc; try reflexivity;
    do 2 f_equal; lia.
Qed.

(** ** Collapsed flat triangulations: the stores *)

Section CollapsedStores.

Context {SC : Type} `{Connection SC}.

Abbreviation Surface := (@Collapsed.Surface SC).

Lemma extend_vectors (s : Surface) k l h :
  Collapsed.vectors (Collapsed.extend s k l) h
  = if h =? k then fold_left Collapsed.sum l (Collapsed.vectors s k)
    else Collapsed.vectors s h.
Proof.
  unfold Collapsed.extend. revert s.
  induction l as [|c l IH]; intros s; simpl.
  - destruct (Z.eqb_spec h k); congruence.
  - rewrite IH. unfold Collapsed.setVector, Collapsed.withStores. simpl.
    rewrite upd_eq. destruct (Z.eqb_spec h k) as [Heq|Hne].
    + reflexivity.
    + now rewrite upd_ne.
Qed.

Lemma extend_collapsedHalfEdges (s : Surface) k l :
  Collapsed.collapsedHalfEdges (Collapsed.extend s k l)
  = Collapsed.collapsedHalfEdges s.
Proof.
  unfold Collapsed.extend. revert s.
  induction l as [|c l IH]; intros s; simpl; [reflexivity|].
  now rewrite IH.
Qed.

Lemma extend_combinatorial (s : Surface) k l :
  Collapsed.combinatorial (Collapsed.extend s k l)
  = Collapsed.combinatorial s.
Proof.
  unfold Collapsed.extend. revert s.
  induction l as [|c l IH]; intros s; simpl; [reflexivity|].
  now rewrite IH.
Qed.

Lemma extend_vertical (s : Surface) k l :
  Collapsed.vertical (Collapsed.extend s k l) = Collapsed.vertical s.
Proof.
  unfold Collapsed.extend. revert s.
  induction l as [|c l IH]; intros s; simpl; [reflexivity|].
  now rewrite IH.
Qed.

Lemma extend_original (s : Surface) k l :
  Collapsed.original (Collapsed.extend s k l) = Collapsed.original s.
Proof.
  unfold Collapsed.extend. revert s.
  induction l as [|c l IH]; intros s; simpl; [reflexivity|].
  now rewrite IH.
Qed.

Lemma hidden_set (s : Surface) t src h :
  Collapsed.collapsedHalfEdges (Collapsed.set s t src) h
  = if h =? t then Collapsed.collapsedHalfEdges s src
    else Collapsed.collapsedHalfEdges s h.
Proof. reflexivity. Qed.

Lemma hidden_pushFront (s : Surface) k c h :
  Collapsed.collapsedHalfEdges (Collapsed.pushFront s k c) h
  = if h =? k then c :: Collapsed.collapsedHalfEdges s k
    else Collapsed.collapsedHalfEdges s h.
Proof. reflexivity. Qed.

Lemma hidden_setVector (s : Surface) k v h :
  Collapsed.collapsedHalfEdges (Collapsed.setVector s k v) h
  = Collapsed.collapsedHalfEdges s h.
Proof. reflexivity. Qed.

Lemma hidden_spliceEnd (s : Surface) tgt src h :
  Collapsed.collapsedHalfEdges (Collapsed.spliceEnd s tgt src) h
  = if tgt =? src then Collapsed.collapsedHalfEdges s h
    else if h =? src then []
    else if h =? tgt
         then Collapsed.collapsedHalfEdges s tgt
              ++ Collapsed.collapsedHalfEdges s src
         else Collapsed.collapsedHalfEdges s h.
Proof.
  unfold Collapsed.spliceEnd. destruct (tgt =? src); reflexivity.
Qed.

Lemma hidden_spliceBegin (s : Surface) tgt src h :
  Collapsed.collapsedHalfEdges (Collapsed.spliceBegin s tgt src) h
  = if tgt =? src then Collapsed.collapsedHalfEdges s h
    else if h =? src then []
    else if h =? tgt
         then Collapsed.collapsedHalfEdges s src
              ++ Collapsed.collapsedHalfEdges s tgt
         else Collapsed.collapsedHalfEdges s h.
Proof.
  unfold Collapsed.spliceBegin. destruct (tgt =? src); reflexivity.
Qed.

Lemma vectors_set (s : Surface) t src h :
  Collapsed.vectors (Collapsed.set s t src) h
  = if h =? t then Collapsed.vectors s src else Collapsed.vectors s h.
Proof. reflexivity. Qed.

Lemma vectors_pushFront (s : Surface) k c h :
  Collapsed.vectors (Collapsed.pushFront s k c) h = Collapsed.vectors s h.
Proof. reflexivity. Qed.

Lemma vectors_setVector (s : Surface) k v h :
  Collapsed.vectors (Collapsed.setVector s k v) h
  = if h =? k then v else Collapsed.vectors s h.
Proof. reflexivity. Qed.

Lemma vectors_spliceEnd (s : Surface) tgt src h :
  Collapsed.vectors (Collapsed.spliceEnd s tgt src) h
  = Collapsed.vectors s h.
Proof.
  unfold Collapsed.spliceEnd. destruct (tgt =? src); reflexivity.
Qed.

Lemma vectors_spliceBegin (s : Surface) tgt src h :
  Collapsed.vectors (Collapsed.spliceBegin s tgt src) h
  = Collapsed.vectors s h.
Proof.
  unfold Collapsed.spliceBegin. destruct (tgt =? src); reflexivity.
Qed.

End CollapsedStores.

Ltac by_distinct :=
  first
    [ lia
    | congruence
    | match goal with
      | Hd : distinct _ _ |- _ => unfold distinct in Hd; lia
      end ].

(** Decide the comparisons of half edges that the hypotheses settle. *)
Ltac decide_eqb :=
  repeat match goal with
         | |- context [?p =? ?q] =>
             first
               [ replace (p =? q) with true
                   by (symmetry; apply Z.eqb_eq; by_distinct)
               | replace (p =? q) with false
                   by (symmetry; apply Z.eqb_neq; by_distinct) ]
         end.

(** Read a store of a surface built by a chain of updates, one update at a
    time, settling the comparisons of half edges on the way. *)
Ltac read_stores :=
  repeat (first
            [ rewrite hidden_set | rewrite hidden_pushFront
            | rewrite hidden_setVector | rewrite hidden_spliceEnd
            | rewrite hidden_spliceBegin | rewrite vectors_set
            | rewrite vectors_pushFront | rewrite vectors_setVector
            | rewrite vectors_spliceEnd | rewrite vectors_spliceBegin ];
          decide_eqb).

Ltac unfold_stores :=
  unfold Collapsed.set, Collapsed.spliceEnd, Collapsed.spliceBegin,
    Collapsed.pushFront, Collapsed.setVector, Collapsed.withStores,
    Collapsed.withCombinatorial.

(** The hypothesis [NoDup [x1; ...; xn]] as pairwise distinctness. *)
Ltac split_NoDup H :=
  repeat match type of H with
         | NoDup (_ :: _) =>
             let Hn := fresh "Hnotin" in
             let Ht := fresh "Hrest" in
             apply NoDup_cons_iff in H; destruct H as [Hn Ht];
             simpl in Hn; rename Ht into H
         end;
  clear H;
  repeat match goal with
         | Hn : ~ (_ \/ _) |- _ =>
             let H1 := fresh "Hne" in
             let H2 := fresh "Hnotin" in
             apply Decidable.not_or in Hn; destruct Hn as [H1 H2];
             match type of H1 with
             | ?p <> ?q => change (distinct p q) in H1
             end
         | Hn : ~ False |- _ => clear Hn
         end.

(** ** The flip of the collapsed surface *)

Lemma preimage_unique (domain : list HalfEdge) (p : Permutation)
    (e h : HalfEdge) :
  In h domain -> p h = e ->
  (forall h', In h' domain -> p h' = e -> h' = h) ->
  preimage domain p e = h.
Proof.
  intros Hin Hp Huniq. unfold preimage.
  destruct (find (fun h0 => p h0 =? e) domain) as [h0|] eqn:Hfind.
  - apply find_some in Hfind. destruct Hfind as [Hin0 Heq0].
    apply Z.eqb_eq in Heq0. now apply Huniq.
  - apply find_none with (x := h) in Hfind; [|exact Hin].
    apply Z.eqb_neq in Hfind. contradiction.
Qed.

Lemma flipFaces_gadget (t : FlatTriangulationCombinatorial)
    (a b flip c d : HalfEdge) :
  injective t ->
  (forall h, In h [a; b; flip; c; d; - flip] -> In h (halfEdges t)) ->
  NoDup [a; b; flip; c; d; - flip] ->
  facesAt t a b flip c d ->
  let t' := Collapsed.flipFaces t flip in
  previousInFace t' (- flip) = a /\ nextInFace t' flip = b
  /\ previousInFace t' flip = c /\ nextInFace t' (- flip) = d.
Proof.
  intros Hinj Hin Hnd (Hab & Hbf & Hfa & Hcd & Hdf & Hfc) t'.
  unfold nextInFace in *.
  split_NoDup Hnd.
  assert (Ha : In a (halfEdges t)) by (apply Hin; simpl; tauto).
  assert (Hb : In b (halfEdges t)) by (apply Hin; simpl; tauto).
  assert (Hd : In d (halfEdges t)) by (apply Hin; simpl; tauto).
  assert (Hc : In c (halfEdges t)) by (apply Hin; simpl; tauto).
  clear Hin.
  unfold t', previousInFace, nextInFace, Collapsed.flipFaces. simpl.
  unfold nextInFace. rewrite Hfa, Hab, Hfc, Hcd.
  repeat split.
  - apply preimage_unique; [assumption | unfold upd; decide_eqb; reflexivity |].
    intros h' Hh'. unfold upd.
    destruct (Z.eqb_spec h' b); [intros; by_distinct|].
    destruct (Z.eqb_spec h' flip); [intros; by_distinct|].
    destruct (Z.eqb_spec h' c); [intros; by_distinct|].
    destruct (Z.eqb_spec h' d); [intros; by_distinct|].
    destruct (Z.eqb_spec h' (- flip)); [intros; by_distinct|].
    destruct (Z.eqb_spec h' a); [intros; by_distinct|].
    intros Heq. rewrite <- Hdf in Heq. apply Hinj in Heq; congruence.
  - unfold upd; decide_eqb; reflexivity.
  - apply preimage_unique; [assumption | unfold upd; decide_eqb; reflexivity |].
    intros h' Hh'. unfold upd.
    destruct (Z.eqb_spec h' b); [intros; by_distinct|].
    destruct (Z.eqb_spec h' flip); [intros; by_distinct|].
    destruct (Z.eqb_spec h' c); [intros; by_distinct|].
    destruct (Z.eqb_spec h' d); [intros; by_distinct|].
    destruct (Z.eqb_spec h' (- flip)); [intros; by_distinct|].
    destruct (Z.eqb_spec h' a); [intros; by_distinct|].
    intros Heq. rewrite <- Hbf in Heq. apply Hinj in Heq; congruence.
  - unfold upd; decide_eqb; reflexivity.
Qed.

Section CollapsedFlip.

Context {SC : Type} `{Connection SC} `{@Collapsed.Collaborators SC}.

Abbreviation Surface := (@Collapsed.Surface SC).

(** What [updateAfterFlip] does on the flipped surface whose faces at
    [flip] are [(a -flip d)(c flip b)]. *)
Lemma updateAfterFlip_effect (s s' : Surface) (a b flip c d : HalfEdge) :
  NoDup [a; b; flip; c; d; - flip] ->
  previousInFace (Collapsed.combinatorial s) (- flip) = a ->
  nextInFace (Collapsed.combinatorial s) flip = b ->
  previousInFace (Collapsed.combinatorial s) flip = c ->
  nextInFace (Collapsed.combinatorial s) (- flip) = d ->
  Collapsed.updateAfterFlip s flip = Ok s' ->
  let hidden := Collapsed.collapsedHalfEdges s in
  let hidden' := Collapsed.collapsedHalfEdges s' in
  let vectors := Collapsed.vectors s in
  let vectors' := Collapsed.vectors s' in
  vectors' b = fold_left Collapsed.sum (hidden flip) (vectors b)
  /\ vectors' d = fold_left Collapsed.sum (hidden (- flip)) (vectors d)
  /\ hidden' (- b) = hidden (- b) ++ hidden flip
  /\ hidden' (- d) = hidden (- d) ++ hidden (- flip)
  /\ hidden' flip = [] /\ hidden' (- flip) = []
  /\ vectors' flip = Collapsed.sum (vectors' d) (vectors' a)
  /\ vectors' (- flip) = negate (vectors' flip)
  /\ equal (vectors' (- flip)) (Collapsed.sum (vectors' b) (vectors' c))
     = true
  /\ (forall h, h <> b -> h <> d -> h <> flip -> h <> - flip ->
                vectors' h = vectors h)
  /\ (forall h, h <> - b -> h <> - d -> h <> flip -> h <> - flip ->
                hidden' h = hidden h)
  /\ Collapsed.combinatorial s' = Collapsed.combinatorial s.
Proof.
  intros Hnd Ha Hb Hc Hd Hupd. split_NoDup Hnd.
  unfold Collapsed.updateAfterFlip in Hupd.
  rewrite Ha, Hb, Hc, Hd in Hupd.
  match type of Hupd with
  | (_ <- ASSERT ?cond ;; Ok ?s1) = _ =>
      destruct cond eqn:Hassert; simpl in Hupd; [|discriminate];
      injection Hupd as <-
  end.
  revert Hassert. unfold_stores. simpl.
  rewrite ?extend_collapsedHalfEdges, ?extend_combinatorial.
  decide_eqb. simpl.
  rewrite ?extend_collapsedHalfEdges, ?extend_combinatorial.
  intros Hassert.
  repeat split.
  - unfold upd. decide_eqb. rewrite !extend_vectors.
    rewrite ?extend_collapsedHalfEdges. decide_eqb. reflexivity.
  - unfold upd. decide_eqb. rewrite !extend_vectors.
    rewrite ?extend_collapsedHalfEdges. decide_eqb. reflexivity.
  - unfold upd. decide_eqb. reflexivity.
  - unfold upd. decide_eqb. reflexivity.
  - unfold upd. decide_eqb. reflexivity.
  - unfold upd. decide_eqb. reflexivity.
  - unfold upd. decide_eqb. reflexivity.
  - unfold upd. decide_eqb. reflexivity.
  - revert Hassert. unfold upd. decide_eqb. intros ->. reflexivity.
  - intros h H1 H2 H3 H4. unfold upd. decide_eqb.
    rewrite !extend_vectors. decide_eqb. reflexivity.
  - intros h H1 H2 H3 H4. unfold upd. decide_eqb. reflexivity.
Qed.

End CollapsedFlip.

Section CollapsedFlipClaim.

Context {SC : Type} `{Connection SC}.

Abbreviation Surface := (@Collapsed.Surface SC).

(** C2: on a collapsed surface whose faces at [flip] are
    [(a b flip)(c d -flip)], a flip that goes through has this effect on the
    stores: [vectors[b]] has been extended by every connection hidden in
    [flip], in their order, and [vectors[d]] by every connection hidden in
    [-flip]; the list hidden in [flip] has been moved behind the one of
    [-b], the list hidden in [-flip] behind the one of [-d], and both are
    empty; [vectors[flip]] is the sum of the new [vectors[d]] and
    [vectors[a]], [vectors[-flip]] is its negative, and it equals the sum of
    the new [vectors[b]] and [vectors[c]]; nothing else has changed in the
    stores. *)
Theorem Collapsed_flip_update (s s' : Surface) (a b flip c d : HalfEdge) :
  injective (Collapsed.combinatorial s) ->
  (forall h, In h [a; b; flip; c; d; - flip] ->
             In h (halfEdges (Collapsed.combinatorial s))) ->
  NoDup [a; b; flip; c; d; - flip] ->
  facesAt (Collapsed.combinatorial s) a b flip c d ->
  Collapsed.flipCombinatorial s flip = Ok s' ->
  let hidden := Collapsed.collapsedHalfEdges s in
  let hidden' := Collapsed.collapsedHalfEdges s' in
  let vectors := Collapsed.vectors s in
  let vectors' := Collapsed.vectors s' in
  vectors' b = fold_left Collapsed.sum (hidden flip) (vectors b)
  /\ vectors' d = fold_left Collapsed.sum (hidden (- flip)) (vectors d)
  /\ hidden' (- b) = hidden (- b) ++ hidden flip
  /\ hidden' (- d) = hidden (- d) ++ hidden (- flip)
  /\ hidden' flip = [] /\ hidden' (- flip) = []
  /\ vectors' flip = Collapsed.sum (vectors' d) (vectors' a)
  /\ vectors' (- flip) = negate (vectors' flip)
  /\ equal (vectors' (- flip)) (Collapsed.sum (vectors' b) (vectors' c))
     = true
  /\ (forall h, h <> b -> h <> d -> h <> flip -> h <> - flip ->
                vectors' h = vectors h)
  /\ (forall h, h <> - b -> h <> - d -> h <> flip -> h <> - flip ->
                hidden' h = hidden h)
  /\ Collapsed.combinatorial s'
     = Collapsed.flipFaces (Collapsed.combinatorial s) flip.
Proof.
  intros Hinj Hin Hnd Hfaces Hflip.
  destruct (flipFaces_gadget Hinj Hin Hnd Hfaces) as (Ha & Hb & Hc & Hd).
  unfold Collapsed.flipCombinatorial in Hflip.
  exact (@updateAfterFlip_effect _ _
           (Collapsed.withCombinatorial s
              (Collapsed.flipFaces (Collapsed.combinatorial s) flip))
           s' a b flip c d Hnd Ha Hb Hc Hd Hflip).
Qed.

End CollapsedFlipClaim.

(** The flip of the diagonal of [torusWithHidden] goes through. *)
Lemma Collapsed_flip_update_witness :
  exists s',
    Collapsed.flipCombinatorial (H := connectionsOf torus)
      torusWithHidden 3 = Ok s'
    /\ Collapsed.collapsedHalfEdges s' (- 2)
       = [verticalConnection]
    /\ Collapsed.collapsedHalfEdges s' 3 = []
    /\ Triple.vector (Collapsed.vectors s' 3) = V 1 (- 2)
    /\ Triple.vector (Collapsed.vectors s' 2) = V 0 2.
Proof.
  destruct (Collapsed.flipCombinatorial (H := connectionsOf torus)
              torusWithHidden 3) as [s'|err]
    eqn:Hflip; [|vm_compute in Hflip; discriminate].
  exists s'. split; [reflexivity|].
  assert (Hinj : injective (Collapsed.combinatorial torusWithHidden)).
  { intros h h' Hh Hh'. simpl in Hh, Hh'.
    repeat (destruct Hh as [<-|Hh]; [|]);
      try contradiction;
      repeat (destruct Hh' as [<-|Hh']; [|]);
      try contradiction; vm_compute; congruence. }
  assert (Hin : forall h, In h [1; 2; 3; -1; -2; - 3] ->
                  In h (halfEdges (Collapsed.combinatorial torusWithHidden))).
  { intros h Hh. simpl in *. intuition. }
  assert (Hnd : NoDup [1; 2; 3; -1; -2; - 3]).
  { repeat constructor; simpl; intuition discriminate. }
  assert (Hfaces : facesAt (Collapsed.combinatorial torusWithHidden)
                           1 2 3 (-1) (-2)).
  { repeat split. }
  destruct (@Collapsed_flip_update _ (connectionsOf torus)
              torusWithHidden s' 1 2 3 (-1) (-2)
              Hinj Hin Hnd Hfaces Hflip)
    as (Hvb & Hvd & Hhb & Hhd & Hhf & Hhmf & Hvf & Hvmf & Heq & Hv & _).
  split; [exact Hhb|]. split; [exact Hhf|]. split.
  - rewrite Hvf, Hvd, (Hv 1) by discriminate. reflexivity.
  - rewrite Hvb. reflexivity.
Defined.

(** ** The collapse of a vertical edge *)

Section CollapseCases.

Context {SC : Type} `{Connection SC}.

Abbreviation Surface := (@Collapsed.Surface SC).

(** With eight distinct outer half edges the last branch is taken and its
    assertion holds. *)
Lemma reroute_distinct (s : Surface) (a b c d : HalfEdge) :
  NoDup [a; b; c; d; - a; - b; - c; - d] ->
  Collapsed.reroute s a b c d
  = Ok (Collapsed.set
          (Collapsed.set
             (Collapsed.set
                (Collapsed.set
                   (Collapsed.spliceEnd
                      (Collapsed.spliceEnd
                         (Collapsed.spliceEnd
                            (Collapsed.spliceEnd s (- a) d) (- b) c)
                         (- c) b)
                      (- d) a)
                   a (- d))
                b (- c))
             c (- b))
          d (- a)).
Proof.
  intros Hnd. unfold Collapsed.reroute.
  rewrite (nodup_fixed_point Z.eq_dec Hnd). simpl length.
  split_NoDup Hnd. decide_eqb. reflexivity.
Qed.

End CollapseCases.

(** ** The hidden lists *)

Lemma bind_assert_Ok {A : Type} (c : bool) (k : Result A) (a : A) :
  (_ <- ASSERT c ;; k) = Ok a -> c = true /\ k = Ok a.
Proof. destruct c; simpl; [auto | discriminate]. Qed.

Lemma bind_Ok {A B : Type} (r : Result A) (k : A -> Result B) (b : B) :
  (x <- r ;; k x) = Ok b -> exists a, r = Ok a /\ k a = Ok b.
Proof. destruct r as [a|e]; simpl; [eauto | discriminate]. Qed.

Section HiddenLists.

Context {SC : Type} `{Connection SC}.

Abbreviation Surface := (@Collapsed.Surface SC).

(** What [updateBeforeCollapse] has done when it returns. *)
Lemma updateBeforeCollapse_Ok (s s' : Surface) (collapse_ : HalfEdge) :
  Collapsed.updateBeforeCollapse s collapse_ = Ok s' ->
  let collapse := oriented s collapse_ in
  let connection := Collapsed.vectors s collapse in
  let '(a, b, c, d) := gadget (Collapsed.combinatorial s) collapse in
  Collapsed.parallel s (Z.abs collapse_) = true
  /\ equal (negate connection) (Collapsed.vectors s (- collapse)) = true
  /\ Collapsed.reroute
       (Collapsed.pushFront (Collapsed.pushFront s b connection)
                            d (negate connection))
       a b c d
     = Ok s'.
Proof.
  unfold Collapsed.updateBeforeCollapse. intros Hupd.
  apply bind_assert_Ok in Hupd. destruct Hupd as [Hpar Hupd].
  fold (oriented s collapse_) in Hupd.
  apply bind_assert_Ok in Hupd. destruct Hupd as [Hneg Hupd].
  apply bind_assert_Ok in Hupd. destruct Hupd as [_ Hupd].
  apply bind_Ok in Hupd. destruct Hupd as (s2 & Hreroute & Hupd).
  do 4 (apply bind_assert_Ok in Hupd; destruct Hupd as [_ Hupd]).
  injection Hupd as <-.
  unfold gadget. cbv zeta. auto.
Qed.

Lemma spliceEnd_empty (s : Surface) (tgt src : HalfEdge) :
  Collapsed.collapsedHalfEdges s src = [] ->
  forall e, Collapsed.collapsedHalfEdges (Collapsed.spliceEnd s tgt src) e
            = Collapsed.collapsedHalfEdges s e.
Proof.
  intros Hsrc e. unfold Collapsed.spliceEnd.
  destruct (Z.eqb_spec tgt src) as [Heq|Hne]; [reflexivity|].
  simpl. unfold upd.
  destruct (Z.eqb_spec e src) as [->|He]; [now rewrite Hsrc|].
  destruct (Z.eqb_spec e tgt) as [->|He']; [|reflexivity].
  now rewrite Hsrc, app_nil_r.
Qed.

(** Without hidden connections in [flip] and [-flip], the flip update
    leaves every hidden list as it is. *)
Lemma updateAfterFlip_hidden_unchanged (s s' : Surface) (flip : HalfEdge) :
  Collapsed.collapsedHalfEdges s flip = [] ->
  Collapsed.collapsedHalfEdges s (- flip) = [] ->
  Collapsed.updateAfterFlip s flip = Ok s' ->
  forall e, Collapsed.collapsedHalfEdges s' e
            = Collapsed.collapsedHalfEdges s e.
Proof.
  intros Hflip Hmflip Hupd e.
  unfold Collapsed.updateAfterFlip in Hupd.
  apply bind_assert_Ok in Hupd. destruct Hupd as [_ Hupd].
  injection Hupd as <-.
  unfold Collapsed.setVector, Collapsed.withStores. simpl.
  rewrite spliceEnd_empty.
  - rewrite spliceEnd_empty; rewrite !extend_collapsedHalfEdges;
      [reflexivity | exact Hflip].
  - rewrite spliceEnd_empty; rewrite !extend_collapsedHalfEdges;
      [exact Hmflip | exact Hflip].
Qed.

End HiddenLists.

Section HiddenSymmetry.

Context {SC : Type} `{Connection SC}.

Abbreviation Surface := (@Collapsed.Surface SC).

Lemma hiddenSymmetric_length (s : Surface) (e : HalfEdge) :
  hiddenSymmetric s ->
  length (Collapsed.collapsedHalfEdges s (- e))
  = length (Collapsed.collapsedHalfEdges s e).
Proof.
  intros Hsym. rewrite (Hsym e). now rewrite length_rev, length_map.
Qed.

(** The hidden lists of [a] and [-a] after the update before a collapse
    whose eight outer half edges are distinct. *)
Lemma updateBeforeCollapse_hidden_a (s s' : Surface)
    (collapse_ a b c d : HalfEdge) :
  gadget (Collapsed.combinatorial s) (oriented s collapse_) = (a, b, c, d) ->
  NoDup [a; b; c; d; - a; - b; - c; - d] ->
  Collapsed.updateBeforeCollapse s collapse_ = Ok s' ->
  let hidden := Collapsed.collapsedHalfEdges s in
  let connection := Collapsed.vectors s (oriented s collapse_) in
  Collapsed.collapsedHalfEdges s' (- a)
  = hidden (- a) ++ negate connection :: hidden d
  /\ Collapsed.collapsedHalfEdges s' a = hidden (- d) ++ hidden a.
Proof.
  intros Hgadget Hnd Hupd. apply updateBeforeCollapse_Ok in Hupd.
  cbv zeta in Hupd. rewrite Hgadget in Hupd.
  destruct Hupd as (_ & _ & Hreroute).
  rewrite (@reroute_distinct _ _ _ a b c d Hnd) in Hreroute.
  injection Hreroute as <-.
  split_NoDup Hnd. split; read_stores; reflexivity.
Qed.

(** C3, as the code has it: the lists hidden in [e] and in [-e] are
    reverse to each other, connection by connection negated, on the surface
    the constructor builds, where every list is empty; a flip whose half
    edge hides no connection on either side leaves all hidden lists alone
    and so preserves the relation; the update before a collapse whose eight
    outer half edges are distinct records the absorbed connection behind
    [-a] and not behind [a], so that the relation, if it held, fails at [a]
    afterwards. *)
Theorem Collapsed_hidden_symmetry :
  (forall surface vertical,
      hiddenSymmetric (Collapsed.construct (SC := SC) surface vertical))
  /\ (forall (s s' : Surface) flip,
         Collapsed.collapsedHalfEdges s flip = [] ->
         Collapsed.collapsedHalfEdges s (- flip) = [] ->
         Collapsed.updateAfterFlip s flip = Ok s' ->
         hiddenSymmetric s -> hiddenSymmetric s')
  /\ (forall (s s' : Surface) collapse_ a b c d,
         gadget (Collapsed.combinatorial s) (oriented s collapse_)
         = (a, b, c, d) ->
         NoDup [a; b; c; d; - a; - b; - c; - d] ->
         Collapsed.updateBeforeCollapse s collapse_ = Ok s' ->
         hiddenSymmetric s -> ~ hiddenSymmetricAt s' a).
Proof.
  split; [|split].
  - intros surface vertical e. reflexivity.
  - intros s s' flip Hflip Hmflip Hupd Hsym e.
    unfold hiddenSymmetricAt.
    rewrite !(@updateAfterFlip_hidden_unchanged _ _ s s' flip Hflip Hmflip Hupd).
    apply Hsym.
  - intros s s' collapse_ a b c d Hgadget Hnd Hupd Hsym Hat.
    destruct (@updateBeforeCollapse_hidden_a s s' collapse_ a b c d
                Hgadget Hnd Hupd) as [Hma Ha].
    unfold hiddenSymmetricAt in Hat. rewrite Hma, Ha in Hat.
    apply (f_equal (@length SC)) in Hat.
    rewrite length_rev, length_map, !length_app in Hat. simpl in Hat.
    rewrite (@hiddenSymmetric_length s a Hsym),
      (@hiddenSymmetric_length s d Hsym) in Hat.
    lia.
Qed.

End HiddenSymmetry.

(** C3, as stated, fails on the torus of two squares with the vertical
    [(0,1)]: on the surface the constructor builds the relation holds, the
    update before the collapse of the vertical edge [3] goes through, and
    afterwards [-1] hides nothing while [1] hides the negative of the
    absorbed connection. *)
Lemma Collapsed_hidden_symmetry_counterexample :
  let H := connectionsOf twoSquares in
  let s := collapsedTwoSquares in
  hiddenSymmetric s
  /\ exists s',
       Collapsed.updateBeforeCollapse s 3 = Ok s'
       /\ Collapsed.collapsedHalfEdges s' (-1) = []
       /\ Collapsed.collapsedHalfEdges s' 1 = [Triple.SC (-3) 3 (V 0 (-1))]
       /\ ~ hiddenSymmetricAt s' (-1).
Proof.
  intros H s. split; [intros e; reflexivity|].
  destruct (Collapsed.updateBeforeCollapse s 3) as [s'|err] eqn:Hupd;
    [|vm_compute in Hupd; discriminate].
  exists s'. split; [reflexivity|].
  assert (Hgadget : gadget (Collapsed.combinatorial s) (oriented s 3)
                    = (-1, -6, 2, 5)) by reflexivity.
  assert (Hnd : NoDup [-1; -6; 2; 5; - -1; - -6; - 2; - 5]).
  { repeat constructor; simpl; intuition discriminate. }
  destruct (@updateBeforeCollapse_hidden_a _ H s s' 3 (-1) (-6) 2 5
              Hgadget Hnd Hupd) as [Hma Ha].
  assert (H1 : Collapsed.collapsedHalfEdges s' 1
               = [Triple.SC (-3) 3 (V 0 (-1))]) by exact Hma.
  split; [exact Ha|]. split; [exact H1|].
  unfold hiddenSymmetricAt. change (- -1) with 1. rewrite H1.
  assert (H2 : Collapsed.collapsedHalfEdges s' (-1) = []) by exact Ha.
  rewrite H2. discriminate.
Qed.

(** ** The preconditions of the flip *)

Lemma accepted_Ok {A : Type} (a : A) : accepted (Ok a).
Proof. discriminate. Qed.

Lemma accepted_bind {A B : Type} (r : Result A) (k : A -> Result B) :
  accepted r -> (forall a, accepted (k a)) -> accepted (x <- r ;; k x).
Proof.
  unfold accepted. destruct r as [a|e]; simpl; [auto|].
  intros Hr _ Heq. apply Hr. congruence.
Qed.

Lemma accepted_ASSERT (c : bool) : accepted (ASSERT c).
Proof. destruct c; discriminate. Qed.

Lemma accepted_forEach {A : Type} (f : A -> Result unit) (l : list A) :
  (forall a, accepted (f a)) -> accepted (forEach f l).
Proof.
  intros Hf. induction l as [|a l IH]; simpl.
  - apply accepted_Ok.
  - apply accepted_bind; [apply Hf | intros _; exact IH].
Qed.

Create HintDb accepted.

#[local] Hint Resolve accepted_Ok accepted_ASSERT : accepted.

Section FlipPreconditions.

Context {SC : Type} `{Connection SC} `{@Collapsed.Collaborators SC}.

Abbreviation Surface := (@Collapsed.Surface SC).

Lemma accepted_updateAfterFlip (s : Surface) e :
  accepted (Collapsed.updateAfterFlip s e).
Proof.
  unfold Collapsed.updateAfterFlip.
  apply accepted_bind; auto with accepted.
Qed.

Lemma accepted_reroute (s : Surface) a b c d :
  accepted (Collapsed.reroute s a b c d).
Proof.
  unfold Collapsed.reroute.
  repeat match goal with
         | |- accepted (if ?c then _ else _) => destruct c
         end; auto with accepted.
  apply accepted_bind; auto with accepted.
Qed.

Lemma accepted_updateBeforeCollapse (s : Surface) e :
  accepted (Collapsed.updateBeforeCollapse s e).
Proof.
  unfold Collapsed.updateBeforeCollapse.
  repeat (apply accepted_bind; [auto using accepted_reroute with accepted|];
          intros ?).
  auto with accepted.
Qed.

Lemma accepted_areaLoop (s : Surface) l acc :
  accepted (Collapsed.areaLoop s l acc).
Proof.
  revert acc. induction l as [|e l IH]; intros acc; simpl.
  - apply accepted_Ok.
  - destruct (boundary (Collapsed.combinatorial s) e); [discriminate|].
    apply IH.
Qed.

Lemma accepted_check (s : Surface) : accepted (Collapsed.check s).
Proof.
  unfold Collapsed.check.
  apply accepted_bind.
  { apply accepted_forEach. intros e. unfold Collapsed.checkFace.
    repeat match goal with
           | |- accepted (if ?c then _ else _) => destruct c
           end; auto with accepted. }
  intros _. apply accepted_bind; [apply accepted_areaLoop|]. intros total.
  apply accepted_bind; [auto with accepted|]. intros _.
  apply accepted_forEach. auto with accepted.
Qed.

Lemma accepted_collapse (s : Surface) e :
  accepted (Collapsed.collapse s e).
Proof.
  unfold Collapsed.collapse.
  apply accepted_bind; [apply accepted_updateBeforeCollapse|]. intros s1.
  apply accepted_bind; [apply accepted_check|]. auto with accepted.
Qed.

Lemma accepted_flipChecked (s : Surface) e : accepted (flipChecked s e).
Proof.
  unfold flipChecked, Collapsed.flipCombinatorial.
  apply accepted_bind; [apply accepted_updateAfterFlip|]. intros s1.
  apply accepted_bind.
  { destruct (Collapsed.parallel s1 _);
      [apply accepted_collapse | apply accepted_Ok]. }
  intros s2. apply accepted_bind; [apply accepted_check|].
  auto with accepted.
Qed.

(** C7: [flip(e)] fails with [InvalidArgument] when [e] is not large, and
    when the face of [e] or that of [-e] is not closed by three steps of
    [nextInFace], as is the case for a collapsed face, which consists of two
    half edges; when [e] is large and both faces are triangles, the flip
    goes on with the combinatorial flip and no longer fails with
    [InvalidArgument]. *)
Theorem Collapsed_flip_preconditions (s : Surface) (e : HalfEdge) :
  (Collapsed.large s e = false ->
   Collapsed.flip s e = Err InvalidArgument)
  /\ (Collapsed.next3 s e <> e \/ Collapsed.next3 s (- e) <> - e ->
      Collapsed.flip s e = Err InvalidArgument)
  /\ (forall h, h = e \/ h = - e ->
        let t := Collapsed.combinatorial s in
        nextInFace t (nextInFace t h) = h -> nextInFace t h <> h ->
        Collapsed.flip s e = Err InvalidArgument)
  /\ (Collapsed.large s e = true ->
      Collapsed.next3 s e = e -> Collapsed.next3 s (- e) = - e ->
      Collapsed.flip s e = flipChecked s e
      /\ Collapsed.flip s e <> Err InvalidArgument)
  /\ (Collapsed.flip s e = Err InvalidArgument <->
      Collapsed.large s e = false
      \/ Collapsed.next3 s e <> e \/ Collapsed.next3 s (- e) <> - e).
Proof.
  assert (Hlarge : Collapsed.large s e = false ->
                   Collapsed.flip s e = Err InvalidArgument).
  { intros Hl. unfold Collapsed.flip. now rewrite Hl. }
  assert (Hfaces : Collapsed.next3 s e <> e
                   \/ Collapsed.next3 s (- e) <> - e ->
                   Collapsed.flip s e = Err InvalidArgument).
  { intros Hf. unfold Collapsed.flip.
    destruct (Collapsed.large s e); [simpl|reflexivity].
    destruct Hf as [Hf|Hf]; apply Z.eqb_neq in Hf; rewrite Hf;
      rewrite ?andb_false_r; reflexivity. }
  assert (Hgo : Collapsed.large s e = true ->
                Collapsed.next3 s e = e -> Collapsed.next3 s (- e) = - e ->
                Collapsed.flip s e = flipChecked s e).
  { intros Hl He Hme. unfold Collapsed.flip.
    rewrite Hl, He, Hme, !Z.eqb_refl. reflexivity. }
  split; [exact Hlarge|]. split; [exact Hfaces|]. split; [|split].
  - intros h Hh t Htwo Hne. apply Hfaces.
    unfold Collapsed.next3. fold t.
    destruct Hh as [->| ->]; [left|right]; rewrite Htwo; exact Hne.
  - intros Hl He Hme. split; [now apply Hgo|].
    rewrite Hgo by assumption. apply accepted_flipChecked.
  - split.
    + intros Herr.
      destruct (Collapsed.large s e) eqn:Hl; [right|now left].
      destruct (Z.eq_dec (Collapsed.next3 s e) e) as [He|He];
        [|now left].
      destruct (Z.eq_dec (Collapsed.next3 s (- e)) (- e)) as [Hme|Hme];
        [|now right].
      exfalso. rewrite Hgo in Herr by auto.
      now apply (accepted_flipChecked s e).
    + intros [Hl|Hf]; [now apply Hlarge | now apply Hfaces].
Qed.

End FlipPreconditions.

(** ** The checks at the end of every operation *)

Section Checked.

Context {SC : Type} `{Connection SC} `{@Collapsed.Collaborators SC}.

Abbreviation Surface := (@Collapsed.Surface SC).

Lemma bind_unit_Ok {A : Type} (r : Result unit) (k : Result A) (a : A) :
  (_ <- r ;; k) = Ok a -> r = Ok tt /\ k = Ok a.
Proof. destruct r as [[]|e]; simpl; [auto | discriminate]. Qed.






End Checked.

Section AreaInvariant.

Context {SC : Type} `{Connection SC} `{@Collapsed.Collaborators SC}.

Abbreviation Surface := (@Collapsed.Surface SC).

Lemma construct_original surface vertical :
  Collapsed.original (Collapsed.construct (SC := SC) surface vertical)
  = surface.
Proof. reflexivity. Qed.

Lemma sameFrame_refl (s : Surface) : sameFrame s s.
Proof. repeat split. Qed.

Lemma sameFrame_trans (s1 s2 s3 : Surface) :
  sameFrame s1 s2 -> sameFrame s2 s3 -> sameFrame s1 s3.
Proof.
  unfold sameFrame. intros (Ho & Hv & Hc) (Ho' & Hv' & Hc').
  repeat split; congruence.
Qed.

Lemma sameFrame_set (s : Surface) t src :
  sameFrame s (Collapsed.set s t src).
Proof. repeat split. Qed.

Lemma sameFrame_setVector (s : Surface) k v :
  sameFrame s (Collapsed.setVector s k v).
Proof. repeat split. Qed.

Lemma sameFrame_pushFront (s : Surface) k c :
  sameFrame s (Collapsed.pushFront s k c).
Proof. repeat split. Qed.

Lemma sameFrame_spliceEnd (s : Surface) tgt src :
  sameFrame s (Collapsed.spliceEnd s tgt src).
Proof.
  unfold Collapsed.spliceEnd. destruct (tgt =? src); repeat split.
Qed.

Lemma sameFrame_spliceBegin (s : Surface) tgt src :
  sameFrame s (Collapsed.spliceBegin s tgt src).
Proof.
  unfold Collapsed.spliceBegin. destruct (tgt =? src); repeat split.
Qed.

Lemma sameFrame_extend (s : Surface) k l :
  sameFrame s (Collapsed.extend s k l).
Proof.
  unfold sameFrame.
  now rewrite extend_original, extend_vertical, extend_combinatorial.
Qed.

(** The frame is kept along a chain of store updates. *)
Ltac same_frame :=
  repeat first
    [ apply sameFrame_refl
    | eapply sameFrame_trans;
      [| first [ apply sameFrame_set | apply sameFrame_setVector
               | apply sameFrame_pushFront | apply sameFrame_spliceEnd
               | apply sameFrame_spliceBegin | apply sameFrame_extend ] ] ].

Lemma updateAfterFlip_frame (s s' : Surface) e :
  Collapsed.updateAfterFlip s e = Ok s' -> sameFrame s s'.
Proof.
  unfold Collapsed.updateAfterFlip. intros Hupd.
  apply bind_assert_Ok in Hupd. destruct Hupd as [_ Hupd].
  injection Hupd as <-. same_frame.
Qed.

Lemma reroute_frame (s s' : Surface) a b c d :
  Collapsed.reroute s a b c d = Ok s' -> sameFrame s s'.
Proof.
  unfold Collapsed.reroute.
  destruct ((a =? - c) && (b =? - d)); [intros [= <-]; same_frame|].
  destruct (a =? - c); [intros [= <-]; same_frame|].
  destruct (b =? - d); [intros [= <-]; same_frame|].
  destruct ((a =? - d) || (b =? - c)).
  - destruct (a =? - d), (b =? - c); intros [= <-]; same_frame.
  - intros Hr. apply bind_assert_Ok in Hr. destruct Hr as [_ Hr].
    injection Hr as <-. same_frame.
Qed.

Lemma updateBeforeCollapse_frame (s s' : Surface) e :
  Collapsed.updateBeforeCollapse s e = Ok s' -> sameFrame s s'.
Proof.
  intros Hupd. apply updateBeforeCollapse_Ok in Hupd.
  cbv zeta in Hupd.
  destruct (gadget _ _) as [[[a b] c] d].
  destruct Hupd as (_ & _ & Hr). apply reroute_frame in Hr.
  eapply sameFrame_trans; [|exact Hr]. same_frame.
Qed.





End AreaInvariant.

(** ** No vertical half edge survives *)

Section NoVertical.

Context {SC : Type} `{Connection SC} `{@Collapsed.Collaborators SC}.

Abbreviation Surface := (@Collapsed.Surface SC).

(** The loop of [make] ends on a surface without vertical half edges. *)
Lemma collapseVerticals_noVertical fuel (s s' : Surface) :
  Collapsed.collapseVerticals fuel s = Some (Ok s') -> noVertical s'.
Proof.
  revert s. induction fuel as [|fuel IH]; intros s; simpl.
  - destruct (find _ _) eqn:Hfind; [discriminate|]. intros [= <-].
    intros e He. exact (find_none _ _ Hfind e He).
  - destruct (find _ _) as [e|] eqn:Hfind.
    + destruct (Collapsed.collapse s e) as [s1|err]; [|discriminate].
      apply IH.
    + intros [= <-]. intros e He. exact (find_none _ _ Hfind e He).
Qed.

Lemma make_noVertical fuel surface vertical (s : Surface) :
  Collapsed.make fuel surface vertical = Some (Ok s) -> noVertical s.
Proof.
  unfold Collapsed.make.
  destruct (Collapsed.collapseVerticals fuel _) as [r|] eqn:Hloop;
    [|discriminate].
  intros [= Hr]. apply bind_Ok in Hr. destruct Hr as (ret & -> & Hr).
  apply bind_unit_Ok in Hr. destruct Hr as [_ Hr]. injection Hr as <-.
  eapply collapseVerticals_noVertical. exact Hloop.
Qed.

(** Every collapse removes half edges, so the loop of [make] comes to an
    end within as many rounds as there are half edges. *)
Lemma collapse_shrinks (s s' : Surface) e :
  collapseShrinks -> In e (halfEdges (Collapsed.combinatorial s)) ->
  Collapsed.collapse s e = Ok s' ->
  (length (halfEdges (Collapsed.combinatorial s'))
   < length (halfEdges (Collapsed.combinatorial s)))%nat.
Proof.
  intros Hshrinks He. unfold Collapsed.collapse. intros Hc.
  apply bind_Ok in Hc. destruct Hc as (s1 & Hupd & Hc).
  apply bind_unit_Ok in Hc. destruct Hc as [_ Hc]. injection Hc as <-.
  apply updateBeforeCollapse_frame in Hupd.
  destruct Hupd as (_ & _ & Hcomb). rewrite Hcomb in *.
  now apply Hshrinks.
Qed.

Lemma collapseVerticals_terminates fuel (s : Surface) :
  collapseShrinks ->
  (length (halfEdges (Collapsed.combinatorial s)) <= fuel)%nat ->
  Collapsed.collapseVerticals fuel s <> None.
Proof.
  intros Hshrinks. revert s.
  induction fuel as [|fuel IH]; intros s Hlen; simpl.
  - destruct (halfEdges (Collapsed.combinatorial s)); [|simpl in Hlen; lia].
    simpl. discriminate.
  - destruct (find _ _) as [e|] eqn:Hfind; [|discriminate].
    apply find_some in Hfind. destruct Hfind as [He _].
    destruct (Collapsed.collapse s e) as [s1|err] eqn:Hc; [|discriminate].
    apply IH. eapply collapse_shrinks in Hc; [|exact Hshrinks|exact He].
    lia.
Qed.

(** What [flip] has done when it returns. *)
Lemma flip_Ok (s s' : Surface) e :
  Collapsed.flip s e = Ok s' ->
  exists s1,
    Collapsed.flipCombinatorial s (rightward s e) = Ok s1
    /\ (if Collapsed.parallel s1 (rightward s e)
        then Collapsed.collapse s1 (rightward s e) = Ok s'
        else s' = s1).
Proof.
  unfold Collapsed.flip. intros Hf.
  do 2 (apply bind_unit_Ok in Hf; destruct Hf as [_ Hf]).
  fold (rightward s e) in Hf.
  apply bind_Ok in Hf. destruct Hf as (s1 & Hflip & Hf).
  apply bind_Ok in Hf. destruct Hf as (s2 & Hcol & Hf).
  apply bind_unit_Ok in Hf. destruct Hf as [_ Hf]. injection Hf as <-.
  exists s1. split; [exact Hflip|].
  destruct (Collapsed.parallel s1 _); [exact Hcol|].
  now injection Hcol as <-.
Qed.

End NoVertical.

Lemma Vec_cross_add_l (u v w : Vector) :
  Vec.cross (Vec.add u v) w = Vec.cross u w + Vec.cross v w.
Proof. unfold Vec.cross, Vec.add. simpl. ring. Qed.

Lemma Vec_cross_opp_l (u w : Vector) :
  Vec.cross (Vec.opp u) w = - Vec.cross u w.
Proof. unfold Vec.cross, Vec.opp. simpl. ring. Qed.

Section VectorsAlongUpdates.

Context {SC : Type} `{Connection SC}.

Abbreviation Surface := (@Collapsed.Surface SC).

Variable P : SC -> Prop.
Variable good : HalfEdge -> Prop.

Abbreviation allGood := (allVectors P good).

Lemma allGood_set (s : Surface) t src :
  allGood s -> good src -> allGood (Collapsed.set s t src).
Proof.
  intros Hs Hsrc k Hk. rewrite vectors_set.
  destruct (k =? t); auto.
Qed.

Lemma allGood_setVector (s : Surface) k v :
  allGood s -> P v -> allGood (Collapsed.setVector s k v).
Proof.
  intros Hs Hv h Hh. rewrite vectors_setVector.
  destruct (h =? k); auto.
Qed.

Lemma allGood_pushFront (s : Surface) k c :
  allGood s -> allGood (Collapsed.pushFront s k c).
Proof. intros Hs h Hh. rewrite vectors_pushFront. auto. Qed.

Lemma allGood_spliceEnd (s : Surface) tgt src :
  allGood s -> allGood (Collapsed.spliceEnd s tgt src).
Proof. intros Hs h Hh. rewrite vectors_spliceEnd. auto. Qed.

Lemma allGood_spliceBegin (s : Surface) tgt src :
  allGood s -> allGood (Collapsed.spliceBegin s tgt src).
Proof. intros Hs h Hh. rewrite vectors_spliceBegin. auto. Qed.

Hypothesis P_negate : forall c, P c -> P (negate c).

Lemma allGood_setVector_negate (s : Surface) k a :
  allGood s -> good a ->
  allGood (Collapsed.setVector s k (negate (Collapsed.vectors s a))).
Proof.
  intros Hs Ha. apply allGood_setVector; [exact Hs|].
  apply P_negate. now apply Hs.
Qed.

Ltac all_good Hs Hgood a b :=
  repeat first
    [ exact Hs
    | apply allGood_set; [|apply Hgood; simpl; tauto]
    | match goal with
      | |- allVectors _ _ (Collapsed.setVector ?s1 ?k _) =>
          first [ refine (@allGood_setVector_negate s1 k a _ _)
                | refine (@allGood_setVector_negate s1 k b _ _) ];
          [|apply Hgood; simpl; tauto]
      end
    | apply allGood_pushFront
    | apply allGood_spliceEnd
    | apply allGood_spliceBegin ].

(** The re-routing hands the vectors of the eight outer half edges around,
    possibly negated. *)
Lemma reroute_allGood (s s' : Surface) a b c d :
  (forall k, In k [a; b; c; d; - a; - b; - c; - d] -> good k) ->
  allGood s -> Collapsed.reroute s a b c d = Ok s' -> allGood s'.
Proof.
  intros Hgood Hs. unfold Collapsed.reroute.
  destruct ((a =? - c) && (b =? - d)); [intros [= <-]; all_good Hs Hgood a b|].
  destruct (a =? - c); [intros [= <-]; all_good Hs Hgood a b|].
  destruct (b =? - d); [intros [= <-]; all_good Hs Hgood a b|].
  destruct ((a =? - d) || (b =? - c)).
  - destruct (a =? - d), (b =? - c); intros [= <-]; all_good Hs Hgood a b.
  - intros Hr. apply bind_assert_Ok in Hr. destruct Hr as [_ Hr].
    injection Hr as <-. all_good Hs Hgood a b.
Qed.

End VectorsAlongUpdates.

Lemma opp_eqb_zero (p : Z) : (- p =? 0) = (p =? 0).
Proof. destruct (Z.eqb_spec (- p) 0), (Z.eqb_spec p 0); lia. Qed.

Section NoVerticalFlip.

Context {SC : Type} `{Connection SC} `{@Collapsed.Collaborators SC}.

Abbreviation Surface := (@Collapsed.Surface SC).

Lemma perpendicular_frame (s s' : Surface) v :
  Collapsed.vertical s = Collapsed.vertical s' ->
  Collapsed.perpendicular s v = Collapsed.perpendicular s' v.
Proof. unfold Collapsed.perpendicular. now intros ->. Qed.

Lemma perpendicular_sum (s : Surface) a b :
  @ConnectionLaws SC _ ->
  Collapsed.perpendicular s (vector (Collapsed.sum a b))
  = Collapsed.perpendicular s (vector a)
    + Collapsed.perpendicular s (vector b).
Proof.
  intros Hlaws. unfold Collapsed.perpendicular, Collapsed.sum.
  now rewrite vector_connect, Vec_cross_add_l.
Qed.

Lemma perpendicular_negate (s : Surface) c :
  @ConnectionLaws SC _ ->
  Collapsed.perpendicular s (vector (negate c))
  = - Collapsed.perpendicular s (vector c).
Proof.
  intros Hlaws. unfold Collapsed.perpendicular.
  now rewrite vector_negate, Vec_cross_opp_l.
Qed.

Lemma perpendicular_fold (s : Surface) l x :
  @ConnectionLaws SC _ ->
  (forall c, In c l -> Collapsed.perpendicular s (vector c) = 0) ->
  Collapsed.perpendicular s (vector (fold_left Collapsed.sum l x))
  = Collapsed.perpendicular s (vector x).
Proof.
  intros Hlaws. revert x. induction l as [|c l IH]; intros x Hl; simpl.
  - reflexivity.
  - rewrite IH by (intros c' Hc'; apply Hl; now right).
    rewrite perpendicular_sum by exact Hlaws.
    rewrite (Hl c) by now left. lia.
Qed.

(** The flip update changes the vectors of the half edges other than
    [flip] and [-flip] along the vertical only. *)
Lemma updateAfterFlip_perpendicular (s s' : Surface) flip :
  @ConnectionLaws SC _ -> hiddenVertical s ->
  Collapsed.updateAfterFlip s flip = Ok s' ->
  (forall h, h <> flip -> h <> - flip ->
     Collapsed.perpendicular s' (vector (Collapsed.vectors s' h))
     = Collapsed.perpendicular s (vector (Collapsed.vectors s h)))
  /\ Collapsed.parallel s' (- flip) = Collapsed.parallel s' flip.
Proof.
  intros Hlaws Hhidden Hupd.
  pose proof Hupd as Hframe. apply updateAfterFlip_frame in Hframe.
  destruct Hframe as (_ & Hvertical & _).
  unfold Collapsed.updateAfterFlip in Hupd.
  apply bind_assert_Ok in Hupd. destruct Hupd as [_ Hupd].
  set (b := nextInFace (Collapsed.combinatorial s) flip) in *.
  set (d := nextInFace (Collapsed.combinatorial s) (- flip)) in *.
  split.
  - intros h Hf Hmf.
    rewrite <- (@perpendicular_frame s s' _ Hvertical).
    injection Hupd as <-.
    rewrite !vectors_setVector.
    apply Z.eqb_neq in Hf, Hmf. rewrite Hf, Hmf.
    rewrite !vectors_spliceEnd, !extend_vectors.
    rewrite !extend_collapsedHalfEdges.
    destruct (Z.eqb_spec h d) as [->|Hd].
    + rewrite perpendicular_fold;
        [|exact Hlaws|intros c Hc; eapply Hhidden; exact Hc].
      destruct (Z.eqb_spec d b) as [->|Hb]; [|reflexivity].
      rewrite perpendicular_fold;
        [reflexivity|exact Hlaws|intros c Hc; eapply Hhidden; exact Hc].
    + destruct (Z.eqb_spec h b) as [->|Hb]; [|reflexivity].
      rewrite perpendicular_fold;
        [reflexivity|exact Hlaws|intros c Hc; eapply Hhidden; exact Hc].
  - injection Hupd as <-. unfold Collapsed.parallel, Collapsed.fromEdge.
    rewrite !vectors_setVector, Z.eqb_refl.
    destruct (Z.eqb_spec flip (- flip)) as [Heq|Hne]; [reflexivity|].
    rewrite perpendicular_negate by exact Hlaws.
    rewrite opp_eqb_zero. reflexivity.
Qed.

Lemma oriented_cases (s : Surface) e :
  oriented s e = e \/ oriented s e = - e.
Proof.
  unfold oriented.
  destruct (Collapsed.parallelTo s _ <? 0); lia.
Qed.

Lemma parallel_false (s : Surface) e :
  Collapsed.parallel s e = false
  <-> Collapsed.perpendicular s (vector (Collapsed.vectors s e)) <> 0.
Proof. unfold Collapsed.parallel, Collapsed.fromEdge. apply Z.eqb_neq. Qed.

(** After the combinatorial flip of [f] the half edges other than [f] and
    [-f] are as far from vertical as before. *)
Lemma flipCombinatorial_others (s s1 : Surface) f :
  @ConnectionLaws SC _ -> noVertical s -> hiddenVertical s ->
  Collapsed.flipCombinatorial s f = Ok s1 ->
  halfEdges (Collapsed.combinatorial s1)
  = halfEdges (Collapsed.combinatorial s)
  /\ allVectors
       (fun c => Collapsed.perpendicular s1 (vector c) <> 0)
       (fun k => In k (halfEdges (Collapsed.combinatorial s1))
                 /\ k <> f /\ k <> - f)
       s1
  /\ Collapsed.parallel s1 (- f) = Collapsed.parallel s1 f.
Proof.
  intros Hlaws Hno Hhidden Hflip. unfold Collapsed.flipCombinatorial in Hflip.
  pose proof Hflip as Hframe. apply updateAfterFlip_frame in Hframe.
  destruct Hframe as (_ & _ & Hcomb). simpl in Hcomb.
  pose proof Hflip as Hperp.
  apply updateAfterFlip_perpendicular in Hperp;
    [|exact Hlaws|exact Hhidden].
  destruct Hperp as [Hothers Hopp].
  assert (Hedges : halfEdges (Collapsed.combinatorial s1)
                   = halfEdges (Collapsed.combinatorial s))
    by now rewrite <- Hcomb.
  split; [exact Hedges|]. split; [|exact Hopp].
  intros k (Hk & Hf & Hmf). rewrite Hothers by assumption.
  rewrite Hedges in Hk. apply parallel_false. now apply Hno.
Qed.

(** A flip that returns leaves no vertical half edge, if there was none
    before. *)
Lemma flip_noVertical (s s1 s' : Surface) e :
  @ConnectionLaws SC _ -> collapseKeeps ->
  noVertical s -> hiddenVertical s ->
  Collapsed.flipCombinatorial s (rightward s e) = Ok s1 ->
  (Collapsed.parallel s1 (rightward s e) = true ->
   properGadget (Collapsed.combinatorial s1)
                (oriented s1 (rightward s e))) ->
  Collapsed.flip s e = Ok s' ->
  noVertical s'.
Proof.
  intros Hlaws Hkeeps Hno Hhidden Hflip Hgadget Hf.
  apply flip_Ok in Hf. destruct Hf as (s1' & Hflip' & Hrest).
  rewrite Hflip in Hflip'. injection Hflip' as <-.
  set (f := rightward s e) in *.
  pose proof Hflip as Hoth.
  apply flipCombinatorial_others in Hoth; [|assumption..].
  destruct Hoth as (Hedges & Hothers & Hopp).
  destruct (Collapsed.parallel s1 f) eqn:Hpar.
  - (* the flipped edge is vertical and is collapsed *)
    specialize (Hgadget eq_refl).
    unfold Collapsed.collapse in Hrest.
    apply bind_Ok in Hrest. destruct Hrest as (s2 & Hupd & Hrest).
    apply bind_unit_Ok in Hrest. destruct Hrest as [_ Hrest].
    injection Hrest as <-.
    pose proof Hupd as Hframe. apply updateBeforeCollapse_frame in Hframe.
    destruct Hframe as (_ & Hvertical & Hcomb).
    apply updateBeforeCollapse_Ok in Hupd. cbv zeta in Hupd.
    unfold properGadget in Hgadget.
    destruct (gadget (Collapsed.combinatorial s1) (oriented s1 f))
      as [[[a b] c] d].
    destruct Hupd as (_ & _ & Hreroute).
    assert (Hall : allVectors
              (fun c => Collapsed.perpendicular s1 (vector c) <> 0)
              (fun k => In k (halfEdges (Collapsed.combinatorial s1))
                        /\ k <> f /\ k <> - f)
              s2).
    { eapply reroute_allGood; [| | |exact Hreroute].
      - intros x Hx. rewrite perpendicular_negate by exact Hlaws. lia.
      - intros k Hk. destruct (Hgadget k Hk) as (Hin & Hne & Hne').
        split; [exact Hin|].
        destruct (oriented_cases s1 f) as [Ho|Ho]; rewrite Ho in *; lia.
      - apply allGood_pushFront. apply allGood_pushFront. exact Hothers. }
    destruct (Hkeeps s2 f) as (_ & Hvertical' & Hsurvive).
    intros h Hh. destruct (Hsurvive h Hh) as (h' & Hh' & Hne & Hne' & Hv & _).
    apply parallel_false. rewrite Hv.
    rewrite (@perpendicular_frame _ s2 _ Hvertical').
    rewrite <- (@perpendicular_frame s1 s2 _ Hvertical).
    apply Hall. rewrite <- Hcomb in Hh'. auto.
  - (* the flipped edge is not vertical *)
    subst s'. intros h Hh.
    destruct (Z.eq_dec h f) as [->|Hne]; [exact Hpar|].
    destruct (Z.eq_dec h (- f)) as [->|Hne']; [now rewrite Hopp|].
    apply parallel_false. apply Hothers. auto.
Qed.

End NoVerticalFlip.

Section NoVerticalClaim.

Context {SC : Type} `{Connection SC} `{@Collapsed.Collaborators SC}.

Abbreviation Surface := (@Collapsed.Surface SC).

(** C8: the surface [make] returns has no half edge parallel to the
    vertical, and [make] does return, or fail in a check, within as many
    rounds as the surface has half edges, since every collapse removes
    some; a flip that returns has flipped the edge and then, if the flipped
    edge was parallel to the vertical, collapsed it at once; and when no half
    edge was vertical before the flip and all hidden connections were, no
    half edge is vertical when the flip returns, provided the structural
    collapse keeps the other half edges with their vectors and the outer
    half edges of the collapsed gadget are other half edges of the
    surface. *)
Theorem Collapsed_no_vertical :
  (forall fuel surface vertical (s : Surface),
      Collapsed.make fuel surface vertical = Some (Ok s) -> noVertical s)
  /\ (collapseShrinks ->
      forall fuel surface vertical,
        (length (halfEdges (Flat.combinatorial surface)) <= fuel)%nat ->
        Collapsed.make (SC := SC) fuel surface vertical <> None)
  /\ (forall (s s' : Surface) e,
         Collapsed.flip s e = Ok s' ->
         exists s1,
           Collapsed.flipCombinatorial s (rightward s e) = Ok s1
           /\ (if Collapsed.parallel s1 (rightward s e)
               then Collapsed.collapse s1 (rightward s e) = Ok s'
               else s' = s1))
  /\ (@ConnectionLaws SC _ -> collapseKeeps ->
      forall (s s1 s' : Surface) e,
        noVertical s -> hiddenVertical s ->
        Collapsed.flipCombinatorial s (rightward s e) = Ok s1 ->
        (Collapsed.parallel s1 (rightward s e) = true ->
         properGadget (Collapsed.combinatorial s1)
                      (oriented s1 (rightward s e))) ->
        Collapsed.flip s e = Ok s' ->
        noVertical s').
Proof.
  split; [|split; [|split]].
  - intros fuel surface vertical s. apply make_noVertical.
  - intros Hshrinks fuel surface vertical Hfuel. unfold Collapsed.make.
    destruct (Collapsed.collapseVerticals fuel _) as [r|] eqn:Hloop;
      [discriminate|].
    exfalso. revert Hloop. apply collapseVerticals_terminates.
    + exact Hshrinks.
    + exact Hfuel.
  - intros s s' e. apply flip_Ok.
  - intros Hlaws Hkeeps s s1 s' e Hno Hhidden Hflip Hgadget Hf.
    eapply flip_noVertical; eassumption.
Qed.

End NoVerticalClaim.

(** ** Sectors of the plane *)

Lemma Vec_cross_antisym u v : cross u v = - cross v u.
Proof. unfold cross. ring. Qed.

Lemma Vec_pluecker a b c d :
  cross a b * cross c d - cross a c * cross b d + cross a d * cross b c = 0.
Proof. unfold cross. ring. Qed.

Lemma Vec_cross_via a b c :
  dot a a * cross b c = dot a b * cross a c - cross a b * dot a c.
Proof. unfold cross, dot. ring. Qed.

Lemma Vec_dot_via a b c :
  dot a a * dot b c = dot a b * dot a c + cross a b * cross a c.
Proof. unfold cross, dot. ring. Qed.

Lemma Vec_dot_self_pos a : a <> zero -> 0 < dot a a.
Proof.
  destruct a as [p q]. unfold dot, zero. simpl. intros Hne.
  assert (Hpq : p <> 0 \/ q <> 0).
  { destruct (Z.eq_dec p 0) as [->|Hp]; [|now left].
    destruct (Z.eq_dec q 0) as [->|Hq]; [|now right].
    now elim Hne. }
  nia.
Qed.

Lemma Vec_ccw_spec u v :
  match ccw u v with
  | COUNTERCLOCKWISE => 0 < cross u v
  | CLOCKWISE => cross u v < 0
  | COLLINEAR => cross u v = 0
  end.
Proof. unfold ccw. destruct (Z.compare_spec (cross u v) 0); lia. Qed.

Lemma Vec_orientation_spec u v :
  match orientation u v with
  | SAME => 0 < dot u v
  | OPPOSITE => dot u v < 0
  | ORTHOGONAL => dot u v = 0
  end.
Proof. unfold orientation. destruct (Z.compare_spec (dot u v) 0); lia. Qed.

Lemma Vec_onRay_spec v b : onRay v b = true <-> cross b v = 0 /\ 0 < dot b v.
Proof.
  unfold onRay. pose proof (Vec_ccw_spec b v). pose proof (Vec_orientation_spec b v).
  destruct (ccw b v), (orientation b v); simpl; split; intros; try discriminate; try lia; auto.
Qed.

Lemma Vec_sign_transfer (n k p q : Z) :
  0 < n -> 0 < k -> n * p = k * q ->
  (0 < p <-> 0 < q) /\ (p < 0 <-> q < 0) /\ (p = 0 <-> q = 0).
Proof. intros. nia. Qed.

Lemma Vec_onRay_ccw_r v e b : onRay v e = true -> ccw b v = ccw b e.
Proof.
  intros Hray. apply Vec_onRay_spec in Hray. destruct Hray as [Hc Hd].
  assert (He : 0 < dot e e).
  { apply Vec_dot_self_pos. intros ->. unfold dot in Hd. simpl in Hd. lia. }
  pose proof (Vec_cross_via e v b) as Hid.
  rewrite Hc in Hid.
  assert (Hid' : dot e e * cross b v = dot e v * cross b e).
  { rewrite (Vec_cross_antisym b v), (Vec_cross_antisym b e). lia. }
  destruct (@Vec_sign_transfer _ _ _ _ He Hd Hid') as (H1 & H2 & H3).
  pose proof (Vec_ccw_spec b v). pose proof (Vec_ccw_spec b e).
  destruct (ccw b v), (ccw b e); try reflexivity; exfalso; lia.
Qed.

Lemma Vec_onRay_ccw_l v e b : onRay v e = true -> ccw v b = ccw e b.
Proof.
  intros Hray. apply Vec_onRay_spec in Hray. destruct Hray as [Hc Hd].
  assert (He : 0 < dot e e).
  { apply Vec_dot_self_pos. intros ->. unfold dot in Hd. simpl in Hd. lia. }
  pose proof (Vec_cross_via e v b) as Hid.
  rewrite Hc in Hid.
  assert (Hid' : dot e e * cross v b = dot e v * cross e b) by lia.
  destruct (@Vec_sign_transfer _ _ _ _ He Hd Hid') as (H1 & H2 & H3).
  pose proof (Vec_ccw_spec v b). pose proof (Vec_ccw_spec e b).
  destruct (ccw v b), (ccw e b); try reflexivity; exfalso; lia.
Qed.

Lemma Vec_onRay_orientation_r v e b :
  onRay v e = true -> orientation b v = orientation b e.
Proof.
  intros Hray. apply Vec_onRay_spec in Hray. destruct Hray as [Hc Hd].
  assert (He : 0 < dot e e).
  { apply Vec_dot_self_pos. intros ->. unfold dot in Hd. simpl in Hd. lia. }
  pose proof (Vec_dot_via e v b) as Hid.
  rewrite Hc in Hid.
  assert (Hid' : dot e e * dot b v = dot e v * dot b e).
  { replace (dot b v) with (dot v b) by (unfold dot; ring).
    replace (dot b e) with (dot e b) by (unfold dot; ring). lia. }
  destruct (@Vec_sign_transfer _ _ _ _ He Hd Hid') as (H1 & H2 & H3).
  pose proof (Vec_orientation_spec b v). pose proof (Vec_orientation_spec b e).
  destruct (orientation b v), (orientation b e); try reflexivity;
    exfalso; lia.
Qed.

Lemma Vec_onRay_inSector v e b f :
  onRay v e = true -> inSectorNonzero v b f = inSectorNonzero e b f.
Proof.
  intros Hray. unfold inSectorNonzero, onRay.
  now rewrite (@Vec_onRay_ccw_r v e b Hray), (@Vec_onRay_ccw_l v e f Hray),
    (@Vec_onRay_orientation_r v e b Hray).
Qed.

(** The main transitivity fact. *)
Lemma Vec_inSector_narrow_sub (s1 s2 b v : Vector) :
  ccw s1 s2 = COUNTERCLOCKWISE ->
  inSectorNonzero b s1 s2 = true ->
  inSectorNonzero v b s2 = true ->
  inSectorNonzero v s1 s2 = true /\ ccw b v <> CLOCKWISE.
Proof.
  unfold inSectorNonzero. intros Hs.
  rewrite Hs.
  pose proof (Vec_ccw_spec s1 s2) as H12. rewrite Hs in H12.
  pose proof (Vec_ccw_spec s1 b) as H1b. pose proof (Vec_ccw_spec b s2) as Hb2.
  pose proof (Vec_ccw_spec b v) as Hbv. pose proof (Vec_ccw_spec v s2) as Hv2.
  pose proof (Vec_ccw_spec s1 v) as H1v.
  pose proof (Vec_pluecker s1 b v s2) as Hp.
  destruct (ccw s1 b), (ccw b s2); simpl; try discriminate; intros _;
  destruct (ccw b v), (ccw v s2); simpl; try discriminate; intros _;
  (split; [|discriminate]);
  destruct (ccw s1 v); simpl; try reflexivity; exfalso; nia.
Qed.


(** The sign conditions behind [ccw], [orientation] and [onRay], ready for
    arithmetic. *)
Ltac signs :=
  repeat match goal with
         | |- context [Vec.ccw ?u ?v] =>
             let Hs := fresh "Hs" in
             pose proof (Vec_ccw_spec u v) as Hs; destruct (Vec.ccw u v)
         | |- context [Vec.orientation ?u ?v] =>
             let Hs := fresh "Hs" in
             pose proof (Vec_orientation_spec u v) as Hs;
             destruct (Vec.orientation u v)
         end;
  simpl.

Lemma Vec_nonzero_dot (u : Vector) :
  Vec.nonzero u = true -> 0 < Vec.dot u u.
Proof. intros Hu. apply Vec_dot_self_pos. now apply Vec_nonzero_true. Qed.

Lemma Vec_cross_self (u : Vector) : Vec.cross u u = 0.
Proof. unfold Vec.cross. ring. Qed.

Lemma Vec_onRay_nonzero (v b : Vector) :
  Vec.onRay v b = true -> Vec.nonzero v = true /\ Vec.nonzero b = true.
Proof.
  intros Hray. apply Vec_onRay_spec in Hray. destruct Hray as [_ Hd].
  split; apply Vec_nonzero_true; intros ->; unfold Vec.dot in Hd;
    simpl in Hd; lia.
Qed.

Lemma Vec_onRay_refl (b : Vector) :
  Vec.nonzero b = true -> Vec.onRay b b = true.
Proof.
  intros Hb. apply Vec_onRay_spec. split; [apply Vec_cross_self|].
  now apply Vec_nonzero_dot.
Qed.

Lemma Vec_onRay_sym (v b : Vector) : Vec.onRay v b = Vec.onRay b v.
Proof.
  unfold Vec.onRay, Vec.ccw, Vec.orientation.
  replace (Vec.cross v b) with (- Vec.cross b v) by (unfold Vec.cross; ring).
  replace (Vec.dot v b) with (Vec.dot b v) by (unfold Vec.dot; ring).
  destruct (Z.compare_spec (Vec.cross b v) 0),
    (Z.compare_spec (- Vec.cross b v) 0); try lia; reflexivity.
Qed.

(** The begin of a sector lies in it. *)
Lemma Vec_inSector_begin (b e : Vector) :
  Vec.nonzero b = true -> Vec.inSectorNonzero b b e = true.
Proof.
  intros Hb. unfold Vec.inSectorNonzero.
  rewrite (@Vec_onRay_refl b Hb).
  pose proof (Vec_cross_self b) as Hbb.
  assert (Hccw : Vec.ccw b b = Vec.COLLINEAR).
  { unfold Vec.ccw. now rewrite Hbb. }
  rewrite Hccw. simpl.
  destruct (Vec.ccw b e) eqn:Hbe; simpl; try reflexivity.
  destruct (Vec.orientation b e); reflexivity.
Qed.

(** The end of a sector does not, unless the sector is a ray. *)
Lemma Vec_inSector_end (b e : Vector) :
  Vec.onRay e b = false -> Vec.inSectorNonzero e b e = false.
Proof.
  intros Hray. unfold Vec.inSectorNonzero. rewrite Hray.
  pose proof (Vec_cross_self e) as Hee.
  assert (Hccw : Vec.ccw e e = Vec.COLLINEAR).
  { unfold Vec.ccw. now rewrite Hee. }
  rewrite Hccw. simpl.
  destruct (Vec.ccw b e) eqn:Hbe; simpl;
    rewrite ?andb_false_r; try reflexivity.
  destruct (Vec.orientation b e); reflexivity.
Qed.

Lemma Vec_cross_opp_r (u b : Vector) :
  Vec.cross u (Vec.opp b) = - Vec.cross u b.
Proof. unfold Vec.cross, Vec.opp. simpl. ring. Qed.

Lemma Vec_dot_opp_r (u b : Vector) :
  Vec.dot u (Vec.opp b) = - Vec.dot u b.
Proof. unfold Vec.dot, Vec.opp. simpl. ring. Qed.

Lemma Vec_dot_opp_l (u b : Vector) :
  Vec.dot (Vec.opp b) u = - Vec.dot b u.
Proof. unfold Vec.dot, Vec.opp. simpl. ring. Qed.

Lemma Vec_dot_comm (u v : Vector) : Vec.dot u v = Vec.dot v u.
Proof. unfold Vec.dot. ring. Qed.

Lemma Vec_nonzero_opp (b : Vector) :
  Vec.nonzero b = true -> Vec.nonzero (Vec.opp b) = true.
Proof.
  rewrite !Vec_nonzero_true. intros Hb Hopp. apply Hb.
  destruct b as [p q]. unfold Vec.opp, Vec.zero in *. simpl in *.
  injection Hopp as Hp Hq. f_equal; lia.
Qed.

(** A vector opposite to [b] lies on the ray of [-b]. *)
Lemma opposite_onRay (v b : Vector) :
  opposite v b = true -> Vec.onRay v (Vec.opp b) = true.
Proof.
  unfold opposite. intros Hopp. apply Vec_onRay_spec.
  rewrite Vec_cross_opp_l, Vec_dot_opp_l.
  rewrite (Vec_cross_antisym b v), (Vec_dot_comm b v).
  revert Hopp. signs; try discriminate. intros _. lia.
Qed.

(** The ray opposite to the begin of a sector that spans at most a half
    turn lies outside. *)
Lemma Vec_inSector_opposite (b e : Vector) :
  Vec.nonzero b = true -> Vec.ccw b e <> Vec.CLOCKWISE ->
  Vec.inSectorNonzero (Vec.opp b) b e = false.
Proof.
  intros Hb Hbe. apply Vec_nonzero_dot in Hb.
  unfold Vec.inSectorNonzero, Vec.onRay.
  pose proof (Vec_cross_opp_l b e) as H1.
  pose proof (Vec_cross_opp_r b b) as H2.
  pose proof (Vec_dot_opp_r b b) as H3.
  pose proof (Vec_cross_self b) as H4.
  revert Hbe. signs; intros Hbe; try reflexivity; try congruence;
    exfalso; lia.
Qed.

(** In a sector narrower than a half turn, a vector off the ray of the begin
    is strictly counter-clockwise of it. *)
Lemma Vec_inSector_strict (s1 s2 e : Vector) :
  Vec.nonzero s1 = true ->
  Vec.ccw s1 s2 = Vec.COUNTERCLOCKWISE ->
  Vec.inSectorNonzero e s1 s2 = true -> Vec.onRay s1 e = false ->
  Vec.ccw s1 e = Vec.COUNTERCLOCKWISE.
Proof.
  intros Hs1 Hnarrow Hin Hray. apply Vec_nonzero_dot in Hs1.
  unfold Vec.inSectorNonzero in Hin. rewrite Hnarrow in Hin.
  rewrite Vec_onRay_sym in Hray. unfold Vec.onRay in Hray.
  pose proof (Vec_cross_via s1 e s2) as Hid.
  pose proof (Vec_ccw_spec s1 s2) as H12. rewrite Hnarrow in H12.
  revert Hin Hray. signs; intros Hin Hray; try discriminate;
    try reflexivity; exfalso; nia.
Qed.

(** Case "to end": the ray opposite to [b] lies outside [[s1, e)] when [e]
    is not clockwise of [b]. *)
Lemma Vec_toEnd_opposite (s1 s2 b e : Vector) :
  Vec.nonzero s1 = true ->
  Vec.ccw s1 s2 = Vec.COUNTERCLOCKWISE ->
  Vec.inSectorNonzero e s1 s2 = true -> Vec.onRay s1 e = false ->
  Vec.ccw b e <> Vec.CLOCKWISE ->
  Vec.inSectorNonzero (Vec.opp b) s1 e = false.
Proof.
  intros Hs1 Hnarrow Hin Hray Hbe.
  pose proof (@Vec_inSector_strict s1 s2 e Hs1 Hnarrow Hin Hray) as H1e.
  unfold Vec.inSectorNonzero. rewrite H1e.
  pose proof (Vec_cross_opp_l b e) as H1.
  revert Hbe. signs; intros Hbe; try reflexivity; try congruence;
    rewrite ?andb_false_r; try reflexivity; exfalso; lia.
Qed.

(** Case "unchanged" and the end: if [e] lies on the ray of [s1] and [s1]
    lies in [[b, e)], the sector is the ray of [b]. *)
Lemma Vec_unchanged_end (s1 b e : Vector) :
  Vec.onRay s1 e = true -> Vec.inSectorNonzero s1 b e = true ->
  Vec.onRay e b = true.
Proof.
  intros Hray Hin. rewrite (@Vec_onRay_inSector s1 e b e Hray) in Hin.
  destruct (Vec.onRay e b) eqn:Heb; [reflexivity|].
  now rewrite (@Vec_inSector_end b e Heb) in Hin.
Qed.

Lemma Vec_inSector_narrow (s1 s2 v : Vector) :
  Vec.ccw s1 s2 = Vec.COUNTERCLOCKWISE ->
  (Vec.inSectorNonzero v s1 s2 = true
   <-> 0 <= Vec.cross s1 v /\ 0 < Vec.cross v s2).
Proof.
  intros Hnarrow. unfold Vec.inSectorNonzero. rewrite Hnarrow.
  signs; split; intros Hv; try discriminate; try reflexivity; lia.
Qed.

(** Case "unchanged" and the ray opposite to [b]. *)
Lemma Vec_unchanged_opposite (s1 s2 b e : Vector) :
  Vec.nonzero s1 = true -> Vec.nonzero b = true -> Vec.nonzero e = true ->
  Vec.ccw s1 s2 = Vec.COUNTERCLOCKWISE ->
  Vec.inSectorNonzero b s1 s2 = false ->
  Vec.inSectorNonzero e s1 s2 && negb (Vec.onRay s1 e) = false ->
  Vec.inSectorNonzero s1 b e = true ->
  Vec.ccw b e <> Vec.CLOCKWISE ->
  Vec.inSectorNonzero (Vec.opp b) s1 s2 = false.
Proof.
  intros Hs1 Hb He Hnarrow HbS HeS Hs1be Hbe.
  destruct (Vec.inSectorNonzero (Vec.opp b) s1 s2) eqn:Hopp;
    [exfalso|reflexivity].
  (* [b] does not lie on the ray of [s1] *)
  assert (Hnray : Vec.onRay s1 b = false).
  { destruct (Vec.onRay s1 b) eqn:Hr; [|reflexivity].
    rewrite Vec_onRay_sym in Hr.
    rewrite (@Vec_onRay_inSector b s1 s1 s2 Hr) in HbS.
    now rewrite (@Vec_inSector_begin s1 s2 Hs1) in HbS. }
  apply (@Vec_inSector_narrow s1 s2 (Vec.opp b) Hnarrow) in Hopp.
  rewrite Vec_cross_opp_r, Vec_cross_opp_l in Hopp.
  destruct Hopp as [Ho1 Ho2].
  pose proof (Vec_ccw_spec s1 s2) as H12. rewrite Hnarrow in H12.
  (* [e] lies outside the sector or on the ray of [s1] *)
  assert (HeS' : ~ (0 < Vec.cross s1 e /\ 0 < Vec.cross e s2)).
  { intros [H1 H2]. apply andb_false_iff in HeS. destruct HeS as [HeS|HeS].
    - assert (Hin : Vec.inSectorNonzero e s1 s2 = true).
      { apply (@Vec_inSector_narrow s1 s2 e Hnarrow). lia. }
      congruence.
    - apply negb_false_iff in HeS. rewrite Vec_onRay_sym in HeS.
      apply Vec_onRay_spec in HeS. lia. }
  unfold Vec.inSectorNonzero in Hs1be.
  pose proof (Vec_ccw_spec b e) as Hsbe.
  destruct (Vec.ccw b e); [| now elim Hbe |].
  - (* [e] counter-clockwise of [b] *)
    apply andb_true_iff in Hs1be. destruct Hs1be as [H1 H2].
    pose proof (Vec_ccw_spec b s1) as Hsb1.
    pose proof (Vec_ccw_spec s1 e) as Hs1e.
    destruct (Vec.ccw b s1); try discriminate;
      destruct (Vec.ccw s1 e); try discriminate;
      pose proof (Vec_pluecker b s1 e s2) as Hp;
      assert (Vec.cross e s2 <= 0) by lia; nia.
  - (* [e] collinear with [b] *)
    pose proof (Vec_orientation_spec b e) as Hdbe.
    destruct (Vec.orientation b e); try congruence.
    apply orb_true_iff in Hs1be. destruct Hs1be as [H1|H1]; [|congruence].
    pose proof (Vec_ccw_spec b s1) as Hsb1.
    destruct (Vec.ccw b s1); try discriminate.
    apply Vec_nonzero_dot in Hb.
    pose proof (Vec_cross_via b e s1) as Hv1.
    pose proof (Vec_cross_via b e s2) as Hv2.
    pose proof (Vec_cross_antisym s1 e) as Ha.
    apply HeS'. split; nia.
Qed.

Lemma inSector_Ok (v b e : Vector) (r : bool) :
  Vec.inSector v b e = Ok r ->
  Vec.nonzero v = true /\ Vec.nonzero b = true /\ Vec.nonzero e = true
  /\ r = Vec.inSectorNonzero v b e.
Proof.
  unfold Vec.inSector, CHECK_ARGUMENT.
  destruct (Vec.nonzero v), (Vec.nonzero b), (Vec.nonzero e); simpl;
    try discriminate.
  intros [= <-]. auto.
Qed.

Lemma inSector_nonzero (v b e : Vector) :
  Vec.nonzero v = true -> Vec.nonzero b = true -> Vec.nonzero e = true ->
  Vec.inSector v b e = Ok (Vec.inSectorNonzero v b e).
Proof.
  intros Hv Hb He. unfold Vec.inSector. now rewrite Hv, Hb, He.
Qed.

Lemma CCW_eqb_eq (a b : Vec.CCW) : Vec.CCW_eqb a b = true <-> a = b.
Proof. destruct a, b; simpl; split; congruence. Qed.

Lemma CCW_eqb_neq (a b : Vec.CCW) : Vec.CCW_eqb a b = false <-> a <> b.
Proof. destruct a, b; simpl; split; congruence. Qed.

(** [Sector::refine] returns by one of its seven branches. *)
Lemma refine_refined (surface : Flat.FlatTriangulation)
    (this : Query.Sector) (b e : Vector) (l : list Query.Sector) :
  Query.refine surface this b e = Ok l ->
  let s1 := fst (Query.boundaries surface this) in
  let s2 := snd (Query.boundaries surface this) in
  Vec.nonzero b = true /\ Vec.nonzero s1 = true /\ Vec.nonzero s2 = true
  /\ refined s1 s2 b e this l.
Proof.
  intros Href s1 s2. unfold Query.refine in Href. fold s1 s2 in Href.
  do 2 (apply bind_assert_Ok in Href; destruct Href as [_ Href]).
  apply bind_Ok in Href. destruct Href as (beginInside & Hb & Href).
  apply inSector_Ok in Hb. destruct Hb as (Hb & Hs1 & Hs2 & ->).
  repeat (split; [assumption|]).
  destruct (Vec.inSectorNonzero b s1 s2) eqn:HbS.
  - destruct (Vec.CCW_eqb (Vec.ccw b e) Vec.CLOCKWISE) eqn:Hbe.
    + apply CCW_eqb_eq in Hbe.
      destruct (Vec.CCW_eqb (Vec.ccw s1 e) Vec.COUNTERCLOCKWISE) eqn:H1e;
        injection Href as <-.
      * apply CCW_eqb_eq in H1e. now apply refined_both.
      * apply CCW_eqb_neq in H1e. now apply refined_fromBegin.
    + apply CCW_eqb_neq in Hbe.
      apply bind_Ok in Href. destruct Href as (endInside & He & Href).
      apply inSector_Ok in He. destruct He as (He & _ & _ & ->).
      destruct (Vec.inSectorNonzero e s1 s2) eqn:HeS; injection Href as <-.
      * now apply refined_inside.
      * now apply refined_upToSecond.
  - apply bind_Ok in Href. destruct Href as (endInside & He & Href).
    unfold Query.inSectorExclusive in He.
    apply bind_Ok in He. destruct He as (r & He & Hr).
    apply inSector_Ok in He. destruct He as (He & _ & _ & ->).
    injection Hr as <-.
    change (Vec.CCW_eqb (Vec.ccw e s1) Vec.COLLINEAR
            && Vec.ORIENTATION_eqb (Vec.orientation e s1) Vec.SAME)
      with (Vec.onRay s1 e) in Href.
    destruct (Vec.inSectorNonzero e s1 s2 && negb (Vec.onRay s1 e)) eqn:HeS.
    + injection Href as <-. apply andb_true_iff in HeS.
      destruct HeS as [HeS Hray]. apply negb_true_iff in Hray.
      now apply refined_toEnd.
    + apply bind_Ok in Href. destruct Href as (firstInside & Hf & Href).
      apply inSector_Ok in Hf. destruct Hf as (_ & _ & _ & ->).
      destruct (Vec.inSectorNonzero s1 b e) eqn:Hs1be; injection Href as <-.
      * now apply refined_unchanged.
      * now apply refined_none.
Qed.

Section Refinement.

Variable surface : Flat.FlatTriangulation.
Variable this : Query.Sector.
Variables b e : Vector.

Local Abbreviation s1 := (fst (Query.boundaries surface this)).
Local Abbreviation s2 := (snd (Query.boundaries surface this)).

Hypothesis Hnarrow : narrow surface this.
Hypothesis Hb : Vec.nonzero b = true.
Hypothesis Hs1 : Vec.nonzero s1 = true.
Hypothesis Hs2 : Vec.nonzero s2 = true.

Lemma lies_this (v : Vector) :
  lies surface this v = Vec.inSectorNonzero v s1 s2.
Proof. reflexivity. Qed.

Lemma lies_between (x y v : Vector) :
  lies surface (between this x y) v = Vec.inSectorNonzero v x y.
Proof. reflexivity. Qed.

Lemma ccw_nonzero_r (u v : Vector) :
  Vec.ccw u v <> Vec.COLLINEAR -> Vec.nonzero v = true.
Proof.
  intros Hccw. apply Vec_nonzero_true. intros ->. apply Hccw.
  unfold Vec.ccw, Vec.cross. simpl.
  now replace (Vec.x u * 0 - Vec.y u * 0) with 0 by ring.
Qed.

(** Every refined sector starts at the same half edge and has boundaries
    other than the zero vector. *)
Lemma refined_sound (l : list Query.Sector) (r : Query.Sector) :
  refined s1 s2 b e this l -> In r l ->
  Query.source r = Query.source this
  /\ Vec.nonzero (fst (Query.boundaries surface r)) = true
  /\ Vec.nonzero (snd (Query.boundaries surface r)) = true.
Proof.
  intros Href Hr.
  destruct Href as [HbS Hbe H1e|HbS Hbe H1e|HbS Hbe He HeS|HbS Hbe He HeS
                    |HbS He HeS Hray|HbS He HeS Hs1be|HbS He HeS Hs1be];
    simpl in Hr;
    repeat (destruct Hr as [<-|Hr]; [|]); try contradiction;
    simpl; repeat split; try assumption;
    apply (@ccw_nonzero_r b e); congruence.
Qed.

(** A connection on the ray of [sectorEnd] points into none of the refined
    sectors. *)
Lemma refined_end (l : list Query.Sector) (r : Query.Sector) :
  refined s1 s2 b e this l -> Vec.onRay e b = false -> In r l ->
  lies surface r e = false.
Proof.
  intros Href Hray Hr.
  assert (Hsub : Vec.inSectorNonzero b s1 s2 = true ->
                 Vec.inSectorNonzero e b s2 = true ->
                 Vec.inSectorNonzero e s1 s2 = true
                 /\ Vec.ccw b e <> Vec.CLOCKWISE).
  { intros HbS HeB. now apply (@Vec_inSector_narrow_sub s1 s2 b e). }
  destruct Href as [HbS Hbe H1e|HbS Hbe H1e|HbS Hbe He HeS|HbS Hbe He HeS
                    |HbS He HeS Hray1|HbS He HeS Hs1be|HbS He HeS Hs1be];
    simpl in Hr;
    repeat (destruct Hr as [<-|Hr]; [|]); try contradiction;
    rewrite ?lies_between, ?lies_this.
  - destruct (Vec.inSectorNonzero e b s2) eqn:HeB; [|reflexivity].
    destruct (Hsub HbS eq_refl) as [_ Hne]. congruence.
  - apply Vec_inSector_end.
    destruct (Vec.onRay e s1) eqn:Hr1; [|reflexivity].
    apply Vec_onRay_spec in Hr1.
    pose proof (Vec_ccw_spec s1 e) as Hs. rewrite H1e in Hs. lia.
  - destruct (Vec.inSectorNonzero e b s2) eqn:HeB; [|reflexivity].
    destruct (Hsub HbS eq_refl) as [_ Hne]. congruence.
  - now apply Vec_inSector_end.
  - destruct (Vec.inSectorNonzero e b s2) eqn:HeB; [|reflexivity].
    destruct (Hsub HbS eq_refl) as [Hin _]. congruence.
  - apply Vec_inSector_end. now rewrite Vec_onRay_sym.
  - destruct (Vec.inSectorNonzero e s1 s2) eqn:Hin; [|reflexivity].
    simpl in HeS. apply negb_false_iff in HeS.
    pose proof (@Vec_unchanged_end s1 b e HeS Hs1be). congruence.
Qed.

(** A connection opposite to [sectorBegin] points into none of the refined
    sectors, when [sectorEnd] is not clockwise of [sectorBegin]. *)
Lemma refined_opposite (l : list Query.Sector) (r : Query.Sector) :
  refined s1 s2 b e this l -> Vec.ccw b e <> Vec.CLOCKWISE -> In r l ->
  lies surface r (Vec.opp b) = false.
Proof.
  intros Href Hnotcw Hr.
  destruct Href as [HbS Hbe H1e|HbS Hbe H1e|HbS Hbe He HeS|HbS Hbe He HeS
                    |HbS He HeS Hray1|HbS He HeS Hs1be|HbS He HeS Hs1be];
    try congruence;
    simpl in Hr;
    repeat (destruct Hr as [<-|Hr]; [|]); try contradiction;
    rewrite ?lies_between, ?lies_this.
  - now apply Vec_inSector_opposite.
  - apply Vec_inSector_opposite; [exact Hb|].
    apply (@Vec_inSector_narrow s1 s2 b Hnarrow) in HbS.
    pose proof (Vec_ccw_spec b s2) as Hs.
    destruct (Vec.ccw b s2); try discriminate. lia.
  - now apply (@Vec_toEnd_opposite s1 s2 b e).
  - now apply (@Vec_unchanged_opposite s1 s2 b e).
Qed.

(** When [sectorBegin] points into the sector, a refined sector begins
    there. *)
Lemma refined_begin (l : list Query.Sector) :
  refined s1 s2 b e this l -> Vec.inSectorNonzero b s1 s2 = true ->
  exists y, In (between this b y) l /\ Vec.nonzero y = true.
Proof.
  intros Href HbS'.
  destruct Href as [HbS Hbe H1e|HbS Hbe H1e|HbS Hbe He HeS|HbS Hbe He HeS
                    |HbS He HeS Hray1|HbS He HeS Hs1be|HbS He HeS Hs1be];
    try congruence.
  - exists s2. split; [now left | exact Hs2].
  - exists s2. split; [now left | exact Hs2].
  - exists e. split; [now left | exact He].
  - exists s2. split; [now left | exact Hs2].
Qed.

End Refinement.


Section Selection.

Context {SC : Type} {H : Connection SC}.

Variable surface : Flat.FlatTriangulation.

(** On a refined sector [contains] decides whether the vector of the
    connection points into it. *)
Lemma contains_lies (r : Query.Sector) (c : SC) :
  Conn.source c = Query.source r -> Query.sector r <> None ->
  Vec.nonzero (vector c) = true ->
  Vec.nonzero (fst (Query.boundaries surface r)) = true ->
  Vec.nonzero (snd (Query.boundaries surface r)) = true ->
  Query.contains r c = Ok (lies surface r (vector c)).
Proof.
  intros Hsource Hsome Hv Hfst Hsnd.
  unfold Query.contains, lies, Query.boundaries in *.
  rewrite Hsource, Z.eqb_refl. simpl.
  destruct (Query.sector r) as [[first second]|]; [|contradiction].
  simpl in *. now apply inSector_nonzero.
Qed.

(** A connection whose vector points into none of the refined sectors is in
    none of them. *)
Lemma refined_excluded (this : Query.Sector) (b e v : Vector)
    (l : list Query.Sector) (c : SC) (r : Query.Sector) :
  refined (fst (Query.boundaries surface this))
          (snd (Query.boundaries surface this)) b e this l ->
  Vec.nonzero b = true ->
  Vec.nonzero (fst (Query.boundaries surface this)) = true ->
  Vec.nonzero (snd (Query.boundaries surface this)) = true ->
  Conn.source c = Query.source this ->
  Vec.onRay (vector c) v = true ->
  In r l -> lies surface r v = false ->
  lies surface r (vector c) = false
  /\ (Query.sector r <> None -> Query.contains r c = Ok false).
Proof.
  intros Href Hb Hs1 Hs2 Hsource Hray Hr Hout.
  assert (Hlies : lies surface r (vector c) = false).
  { unfold lies in *. now rewrite (@Vec_onRay_inSector (vector c) v _ _ Hray). }
  split; [exact Hlies|]. intros Hsome.
  destruct (@refined_sound surface this b e Hb Hs1 Hs2 l r Href Hr)
    as (Hsrc & Hf & Hg).
  rewrite <- Hlies. apply contains_lies; try assumption.
  - congruence.
  - now apply Vec_onRay_nonzero in Hray.
Qed.

End Selection.

(** C5, amended.  Refining a sector that spans less than a half turn to
    [sectorBegin, sectorEnd): a connection leaving from the half edge of the
    sector whose vector is on the ray of [sectorBegin] and points into the
    sector is in one of the refined sectors; one whose vector is on the ray
    of [sectorEnd] points into none of them, and is in none that [refine]
    gave boundaries, provided [sectorEnd] is not on the ray of [sectorBegin];
    one whose vector is opposite to [sectorBegin] likewise, provided
    [sectorEnd] is not clockwise of [sectorBegin]. *)
Theorem Query_refine_tie_breaks {SC : Type} {H : Connection SC}
    (surface : Flat.FlatTriangulation) (this : Query.Sector)
    (sectorBegin sectorEnd : Vector) (l : list Query.Sector) (c : SC) :
  narrow surface this ->
  Query.refine surface this sectorBegin sectorEnd = Ok l ->
  Conn.source c = Query.source this ->
  (Vec.onRay (vector c) sectorBegin = true ->
   lies surface this (vector c) = true ->
   exists r, In r l /\ lies surface r (vector c) = true
             /\ Query.contains r c = Ok true)
  /\ (Vec.onRay (vector c) sectorEnd = true ->
      Vec.onRay sectorEnd sectorBegin = false ->
      forall r, In r l ->
        lies surface r (vector c) = false
        /\ (Query.sector r <> None -> Query.contains r c = Ok false))
  /\ (opposite (vector c) sectorBegin = true ->
      Vec.ccw sectorBegin sectorEnd <> Vec.CLOCKWISE ->
      forall r, In r l ->
        lies surface r (vector c) = false
        /\ (Query.sector r <> None -> Query.contains r c = Ok false)).
Proof.
  intros Hnarrow Hrefine Hsource.
  apply refine_refined in Hrefine.
  destruct Hrefine as (Hb & Hs1 & Hs2 & Href).
  split; [|split].
  - intros Hray Hin.
    assert (HbS : Vec.inSectorNonzero sectorBegin
                    (fst (Query.boundaries surface this))
                    (snd (Query.boundaries surface this)) = true).
    { unfold lies in Hin.
      now rewrite (@Vec_onRay_inSector (vector c) sectorBegin _ _ Hray)
        in Hin. }
    destruct (@refined_begin surface this sectorBegin sectorEnd Hs2 l Href HbS)
      as (y & Hy & Hnz).
    assert (Hlies : lies surface (between this sectorBegin y) (vector c)
                    = true).
    { unfold lies. simpl.
      rewrite (@Vec_onRay_inSector (vector c) sectorBegin _ _ Hray).
      now apply Vec_inSector_begin. }
    exists (between this sectorBegin y).
    split; [exact Hy|]. split; [exact Hlies|].
    rewrite <- Hlies. apply contains_lies; simpl; try assumption.
    + discriminate.
    + now apply Vec_onRay_nonzero in Hray.
  - intros Hray Hapart r Hr.
    apply (@refined_excluded SC H surface this sectorBegin sectorEnd sectorEnd
             l c r); try assumption.
    exact (@refined_end surface this sectorBegin sectorEnd Hnarrow l r Href
             Hapart Hr).
  - intros Hopp Hnotcw r Hr.
    apply (@refined_excluded SC H surface this sectorBegin sectorEnd
             (Vec.opp sectorBegin) l c r); try assumption.
    + now apply opposite_onRay.
    + exact (@refined_opposite surface this sectorBegin sectorEnd Hnarrow Hb
               Hs1 l r Href Hnotcw Hr).
Qed.

(** On the square torus, the corner at half edge [1], from [(1,0)] to
    [(1,1)], refined to the sector from [(1,0)] to [(2,1)]: the edge [1]
    itself is kept. *)
Lemma Query_refine_tie_breaks_witness :
  let this := Query.mkSector 1 None in
  let c := Triple.SC 1 (- 1) (V 1 0) in
  narrow flatTorus this
  /\ Query.refine flatTorus this (V 1 0) (V 2 1)
     = Ok [between this (V 1 0) (V 2 1)]
  /\ exists r, In r [between this (V 1 0) (V 2 1)]
               /\ lies flatTorus r (V 1 0) = true
               /\ Query.contains (H := connectionsOf torus) r c = Ok true.
Proof.
  intros this c.
  assert (Hnarrow : narrow flatTorus this) by reflexivity.
  assert (Hrefine : Query.refine flatTorus this (V 1 0) (V 2 1)
                    = Ok [between this (V 1 0) (V 2 1)]) by reflexivity.
  split; [exact Hnarrow|]. split; [exact Hrefine|].
  destruct (@Query_refine_tie_breaks _ (connectionsOf torus) flatTorus this
              (V 1 0) (V 2 1) _ c Hnarrow Hrefine eq_refl) as (Hkept & _).
  apply Hkept; reflexivity.
Defined.

(** C5, as stated, fails on the square torus for the sector from [(1,0)]
    to [(0,-1)], three quarters of a turn: the corner at half edge [-1] is
    selected unchanged, and with it the edge [-1] itself, whose vector
    [(-1,0)] is opposite to [sectorBegin]. *)
Lemma Query_refine_tie_breaks_counterexample :
  let c := Triple.SC (- 1) 1 (V (- 1) 0) in
  exists q r,
    Query.sectorBetween (Query.all flatTorus) (V 1 0) (V 0 (- 1)) = Ok q
    /\ In r (Query.sectors q)
    /\ opposite (vector (Connection := connectionsOf torus) c) (V 1 0) = true
    /\ lies flatTorus r (V (- 1) 0) = true
    /\ Query.contains (H := connectionsOf torus) r c = Ok true.
Proof.
  intros c. eexists. exists (Query.mkSector (- 1) None).
  split; [reflexivity|].
  split; [|repeat split].
  simpl. tauto.
Qed.


(** * Further properties *)

(** ** Flat triangulations: [clone] and the flip *)

Lemma fromList_seq (l : list Vector) :
  map (fun e => Flat.fromList l (Z.of_nat e)) (seq 1 (length l)) = l.
Proof.
  apply nth_ext with (d := Flat.fromList l (Z.of_nat 0)) (d' := Vec.zero).
  - now rewrite length_map, length_seq.
  - intros n Hn. rewrite length_map, length_seq in Hn.
    rewrite (map_nth (fun e => Flat.fromList l (Z.of_nat e))).
    rewrite seq_nth by exact Hn.
    unfold Flat.fromList.
    replace (0 <? Z.of_nat (1 + n)) with true by (symmetry; apply Z.ltb_lt; lia).
    f_equal. lia.
Qed.

Lemma make_Ok (c : FlatTriangulationCombinatorial) (l : list Vector)
    (s : Flat.FlatTriangulation) :
  Flat.make c l = Ok s -> s = Flat.Build c (Flat.fromList l).
Proof.
  unfold Flat.make, Flat.make_from_map. intros Hmake.
  apply bind_unit_Ok in Hmake. destruct Hmake as [_ Hmake]. congruence.
Qed.

(** X1: a flat triangulation that the constructor built from one vector for
    each pair of half edges is cloned to itself: [clone] reads the vectors
    of the half edges [1, ..., n/2] back and the constructor accepts them. *)
Theorem Flat_clone_round_trip (c : FlatTriangulationCombinatorial)
    (l : list Vector) (s : Flat.FlatTriangulation) :
  Flat.make c l = Ok s ->
  (length (halfEdges c) / 2)%nat = length l ->
  Flat.clone s = Ok s.
Proof.
  intros Hmake Hlen. pose proof (make_Ok _ _ Hmake) as ->.
  unfold Flat.clone, Flat.fromEdge, Flat.get.
  cbn [Flat.combinatorial Flat.vectors].
  rewrite Hlen, fromList_seq. exact Hmake.
Qed.

(** The square torus is cloned to itself. *)
Lemma Flat_clone_round_trip_witness : Flat.clone flatTorus = Ok flatTorus.
Proof.
  apply (@Flat_clone_round_trip torus torusVectors flatTorus); reflexivity.
Defined.

Lemma Flat_set_get (m : Flat.HalfEdgeMap) (e h : HalfEdge) (v : Vector) :
  h <> e -> h <> - e -> Flat.get (Flat.set m e v) h = Flat.get m h.
Proof.
  intros He Hme. unfold Flat.get, Flat.set. now rewrite !upd_ne.
Qed.

Lemma Flat_set_get_eq (m : Flat.HalfEdgeMap) (e : HalfEdge) (v : Vector) :
  Flat.get (Flat.set m e v) e = v.
Proof. unfold Flat.get, Flat.set. now rewrite upd_eq. Qed.

Lemma Flat_set_get_opp (m : Flat.HalfEdgeMap) (e : HalfEdge) (v : Vector) :
  e <> 0 -> Flat.get (Flat.set m e v) (- e) = Vec.opp v.
Proof.
  intros He. unfold Flat.get, Flat.set.
  rewrite upd_ne by lia. now rewrite upd_eq.
Qed.

(** The faces of the flipped triangulation at the flipped edge. *)
Lemma flipFaces_faces (t : FlatTriangulationCombinatorial)
    (a b flip c d : HalfEdge) :
  NoDup [a; b; flip; c; d; - flip] ->
  facesAt t a b flip c d ->
  let t' := Collapsed.flipFaces t flip in
  nextInFace t' a = - flip /\ nextInFace t' (- flip) = d
  /\ nextInFace t' d = a /\ nextInFace t' c = flip
  /\ nextInFace t' flip = b /\ nextInFace t' b = c.
Proof.
  intros Hnd (Hab & Hbf & Hfa & Hcd & Hdf & Hfc) t'.
  split_NoDup Hnd.
  unfold t', nextInFace, Collapsed.flipFaces in *. simpl.
  unfold nextInFace. rewrite Hfa, Hab, Hfc, Hcd.
  unfold upd. repeat split; decide_eqb; reflexivity.
Qed.

(** X2: when an edge between two closed triangles is flipped and the hook
    [updateAfterFlip] has run on the vectors, the two new triangles are
    closed: around each of the six half edges concerned the vectors sum to
    zero. *)
Theorem Flat_updateAfterFlip_closes (s : Flat.FlatTriangulation)
    (a b flip c d : HalfEdge) :
  let t := Flat.combinatorial s in
  injective t ->
  (forall h, In h [a; b; flip; c; d; - flip] -> In h (halfEdges t)) ->
  ~ In 0 (halfEdges t) ->
  NoDup [a; b; flip; c; d; - flip] ->
  facesAt t a b flip c d ->
  antisymmetric (Flat.vectors s) ->
  faceVectorSum s flip = Vec.zero ->
  faceVectorSum s (- flip) = Vec.zero ->
  let t' := Collapsed.flipFaces t flip in
  let s' := Flat.Build t' (Flat.updateAfterFlip (Flat.vectors s) flip t') in
  forall h, In h [a; b; flip; c; d; - flip] -> faceVectorSum s' h = Vec.zero.
Proof.
  intros t Hinj Hin Hzero Hnd Hfaces Hanti Hflip Hmflip t' s' h Hh.
  destruct (@flipFaces_gadget t a b flip c d Hinj Hin Hnd Hfaces)
    as (_ & _ & Hprev & _).
  destruct (@flipFaces_faces t a b flip c d Hnd Hfaces)
    as (Ha & Hmf & Hd & Hc & Hf & Hb).
  fold t' in Hprev, Ha, Hmf, Hd, Hc, Hf, Hb.
  pose proof Hfaces as (Hab & Hbf & Hfa & Hcd & Hdf & Hfc).
  assert (Hnz : forall k, In k [a; b; flip; c; d; - flip] -> k <> 0).
  { intros k Hk ->. apply Hzero. now apply Hin. }
  assert (Hbnz : b <> 0) by (apply Hnz; simpl; tauto).
  assert (Hcnz : c <> 0) by (apply Hnz; simpl; tauto).
  assert (Hfnz : flip <> 0) by (apply Hnz; simpl; tauto).
  split_NoDup Hnd.
  (* the vectors after the update *)
  set (m := Flat.vectors s) in *.
  set (m' := Flat.updateAfterFlip m flip t').
  assert (Hvf : Flat.get m' flip
                = Vec.add (Vec.opp (Flat.get m b)) (Vec.opp (Flat.get m c))).
  { unfold m', Flat.updateAfterFlip. rewrite Flat_set_get_eq.
    rewrite Hf. unfold nextAtVertex, t', Collapsed.flipFaces. simpl.
    change (preimage (halfEdges t) _ flip) with (previousInFace t' flip).
    rewrite Hprev. now rewrite !Hanti. }
  assert (Hvmf : Flat.get m' (- flip)
                 = Vec.add (Flat.get m b) (Flat.get m c)).
  { unfold m', Flat.updateAfterFlip. rewrite Flat_set_get_opp by exact Hfnz.
    rewrite Hf. unfold nextAtVertex, t', Collapsed.flipFaces. simpl.
    change (preimage (halfEdges t) _ flip) with (previousInFace t' flip).
    rewrite Hprev, !Hanti by assumption.
    destruct (Flat.get m b), (Flat.get m c). unfold Vec.add, Vec.opp. simpl.
    f_equal; lia. }
  assert (Hother : forall k, k <> flip -> k <> - flip ->
                             Flat.get m' k = Flat.get m k).
  { intros k Hk Hmk. unfold m', Flat.updateAfterFlip.
    now apply Flat_set_get. }
  (* the quadrilateral closes *)
  assert (Hquad : Vec.add (Vec.add (Flat.get m a) (Flat.get m b))
                          (Vec.add (Flat.get m c) (Flat.get m d))
                  = Vec.zero).
  { unfold faceVectorSum, Flat.fromEdge in Hflip, Hmflip.
    fold t m in Hflip, Hmflip.
    rewrite Hfa, Hab in Hflip. rewrite Hfc, Hcd in Hmflip.
    rewrite Hanti in Hmflip by exact Hfnz.
    destruct (Flat.get m a), (Flat.get m b), (Flat.get m c), (Flat.get m d),
      (Flat.get m flip).
    unfold Vec.add, Vec.opp, Vec.zero in *. simpl in *.
    injection Hflip as H1 H2. injection Hmflip as H3 H4. f_equal; lia. }
  assert (Ha' : Flat.get m' a = Flat.get m a) by (apply Hother; by_distinct).
  assert (Hb' : Flat.get m' b = Flat.get m b) by (apply Hother; by_distinct).
  assert (Hc' : Flat.get m' c = Flat.get m c) by (apply Hother; by_distinct).
  assert (Hd' : Flat.get m' d = Flat.get m d) by (apply Hother; by_distinct).
  unfold faceVectorSum, Flat.fromEdge, s'. simpl Flat.combinatorial.
  simpl Flat.vectors. fold m'.
  simpl in Hh.
  destruct Hh as [<-|[<-|[<-|[<-|[<-|[<-|[]]]]]]];
    rewrite ?Ha, ?Hmf, ?Hd, ?Hc, ?Hf, ?Hb;
    rewrite ?Ha, ?Hmf, ?Hd, ?Hc, ?Hf, ?Hb;
    rewrite ?Hvf, ?Hvmf, ?Ha', ?Hb', ?Hc', ?Hd';
    destruct (Flat.get m a), (Flat.get m b), (Flat.get m c), (Flat.get m d);
    unfold Vec.add, Vec.opp, Vec.zero in *; simpl in *;
    injection Hquad as H1 H2; f_equal; lia.
Qed.

Lemma Vec_opp_opp (u : Vector) : Vec.opp (Vec.opp u) = u.
Proof. destruct u as [p q]. unfold Vec.opp. simpl. f_equal; lia. Qed.

(** The store that the constructor builds from a list of vectors holds
    opposite vectors at opposite half edges. *)
Lemma fromList_antisymmetric (l : list Vector) :
  antisymmetric (Flat.fromList l).
Proof.
  intros e He. unfold Flat.get, Flat.fromList.
  destruct (Z.ltb_spec 0 e) as [Hpos|Hneg].
  - replace (0 <? - e) with false by (symmetry; apply Z.ltb_ge; lia).
    do 2 f_equal. lia.
  - replace (0 <? - e) with true by (symmetry; apply Z.ltb_lt; lia).
    rewrite Vec_opp_opp. reflexivity.
Qed.

Lemma torus_injective : injective torus.
Proof.
  intros h h' Hh Hh'. simpl in Hh, Hh'.
  repeat (destruct Hh as [<-|Hh]; [|]); try contradiction;
    repeat (destruct Hh' as [<-|Hh']; [|]); try contradiction;
    vm_compute; congruence.
Qed.

Lemma torus_gadget :
  (forall h, In h [1; 2; 3; -1; -2; - 3] -> In h (halfEdges torus))
  /\ ~ In 0 (halfEdges torus)
  /\ NoDup [1; 2; 3; -1; -2; - 3]
  /\ facesAt torus 1 2 3 (-1) (-2).
Proof.
  split; [|split; [|split]].
  - intros h Hh. simpl in *. intuition.
  - simpl. intuition discriminate.
  - repeat constructor; simpl; intuition discriminate.
  - repeat split.
Qed.

(** The flip of the diagonal of the square torus: the triangles
    [(1 -3 -2)] and [(-1 3 2)] are closed. *)
Lemma Flat_updateAfterFlip_closes_witness :
  let t' := Collapsed.flipFaces torus 3 in
  let s' := Flat.Build t' (Flat.updateAfterFlip (Flat.vectors flatTorus) 3 t') in
  nextInFace t' 3 = 2 /\ nextInFace t' 2 = - 1 /\ nextInFace t' (- 1) = 3
  /\ Flat.fromEdge s' 3 = V 1 (- 1)
  /\ forall h, In h [1; 2; 3; -1; -2; - 3] -> faceVectorSum s' h = Vec.zero.
Proof.
  intros t' s'.
  destruct torus_gadget as (Hin & Hzero & Hnd & Hfaces).
  repeat (split; [reflexivity|]).
  apply (@Flat_updateAfterFlip_closes flatTorus 1 2 3 (-1) (-2)
           torus_injective Hin Hzero Hnd Hfaces
           (fromList_antisymmetric torusVectors));
    reflexivity.
Defined.



(** ** The query builder: selecting sectors *)

Lemma filter_filter {A : Type} (p q : A -> bool) (l : list A) :
  filter q (filter p l) = filter (fun a => p a && q a) l.
Proof.
  induction l as [|a l IH]; simpl; [reflexivity|].
  destruct (p a); simpl; [destruct (q a)|]; now rewrite IH.
Qed.

Lemma filter_none {A : Type} (p : A -> bool) (l : list A) :
  (forall a, In a l -> p a = false) -> filter p l = [].
Proof.
  induction l as [|a l IH]; simpl; intros Hp; [reflexivity|].
  rewrite (Hp a) by now left. apply IH. intros b Hb. apply Hp. now right.
Qed.

Lemma filter_all {A : Type} (p : A -> bool) (l : list A) :
  (forall a, In a l -> p a = true) -> filter p l = l.
Proof.
  induction l as [|a l IH]; simpl; intros Hp; [reflexivity|].
  rewrite (Hp a) by now left. f_equal. apply IH. intros b Hb. apply Hp.
  now right.
Qed.

(** X3: [sector(HalfEdge)] keeps, in their order, exactly the sectors that
    start at that half edge and leaves the search radius alone; selecting
    the same half edge again changes nothing, selecting another one leaves
    no sector, and it does not matter whether the query is bounded before or
    after. *)
Theorem Query_sectorAt_selects (q : Query.SaddleConnections)
    (h h' : HalfEdge) (r : Query.Bound) :
  (forall s, In s (Query.sectors (Query.sectorAt q h))
             <-> In s (Query.sectors q) /\ Query.source s = h)
  /\ Query.sectorAt (Query.sectorAt q h) h = Query.sectorAt q h
  /\ (h <> h' ->
      Query.sectors (Query.sectorAt (Query.sectorAt q h) h') = [])
  /\ Query.sectorAt (Query.sectorAt q h) h'
     = Query.sectorAt (Query.sectorAt q h') h
  /\ Query.sectorAt (Query.bound q r) h = Query.bound (Query.sectorAt q h) r
  /\ Query.searchRadius (Query.sectorAt q h) = Query.searchRadius q.
Proof.
  unfold Query.sectorAt, Query.bound. simpl.
  split; [|split; [|split; [|split; [|split; reflexivity]]]].
  - intros s. rewrite filter_In, Z.eqb_eq. reflexivity.
  - f_equal. apply filter_all. intros s Hs.
    apply filter_In in Hs. tauto.
  - intros Hne. apply filter_none. intros s Hs.
    apply filter_In in Hs. destruct Hs as [_ Hs]. apply Z.eqb_eq in Hs.
    apply Z.eqb_neq. congruence.
  - f_equal. rewrite !filter_filter. apply filter_ext. intros s.
    apply andb_comm.
Qed.

Lemma filter_source_map (h : HalfEdge) (l : list HalfEdge) :
  NoDup l ->
  filter (fun s => Query.source s =? h)
         (map (fun he => Query.mkSector he None) l)
  = if existsb (Z.eqb h) l then [Query.mkSector h None] else [].
Proof.
  induction l as [|a l IH]; simpl; intros Hnd; [reflexivity|].
  apply NoDup_cons_iff in Hnd. destruct Hnd as [Hnotin Hnd].
  rewrite (IH Hnd). rewrite (Z.eqb_sym h a).
  destruct (Z.eqb_spec a h) as [->|Hne]; simpl; [|reflexivity].
  destruct (existsb (Z.eqb h) l) eqn:Hex; [|reflexivity].
  apply existsb_exists in Hex. destruct Hex as (x & Hx & Heq).
  apply Z.eqb_eq in Heq. subst x. contradiction.
Qed.

(** X4: the query that [SaddleConnections(surface, searchRadius, sectorBegin)]
    builds on a surface whose half edges are listed once has the one sector
    at [sectorBegin], not refined, when that is a half edge of the surface,
    and no sector otherwise; its radius is [searchRadius]. *)
Theorem Query_makeAt_one_sector (surface : Flat.FlatTriangulation)
    (searchRadius : Query.Bound) (sectorBegin : HalfEdge) :
  NoDup (halfEdges (Flat.combinatorial surface)) ->
  Query.makeAt surface searchRadius sectorBegin
  = Query.Build surface
      (if existsb (Z.eqb sectorBegin)
                  (halfEdges (Flat.combinatorial surface))
       then [Query.mkSector sectorBegin None] else [])
      (Some searchRadius).
Proof.
  intros Hnd. unfold Query.makeAt, Query.sectorAt, Query.bound, Query.all.
  simpl. f_equal. now apply filter_source_map.
Qed.

Lemma torus_NoDup : NoDup (halfEdges torus).
Proof. repeat constructor; simpl; intuition discriminate. Qed.

(** On the square torus the query at the half edge [-2] with radius 5 has
    that one sector, and the query at [4] has none. *)
Lemma Query_makeAt_one_sector_witness :
  Query.makeAt flatTorus 5 (- 2)
  = Query.Build flatTorus [Query.mkSector (- 2) None] (Some 5)
  /\ Query.makeAt flatTorus 5 4 = Query.Build flatTorus [] (Some 5).
Proof.
  split.
  - exact (@Query_makeAt_one_sector flatTorus 5 (- 2) torus_NoDup).
  - exact (@Query_makeAt_one_sector flatTorus 5 4 torus_NoDup).
Defined.

(** ** The query builder: refining sectors *)

Lemma refined_shape (s1 s2 b e : Vector) (this : Query.Sector)
    (l : list Query.Sector) :
  refined s1 s2 b e this l ->
  (length l <= 2)%nat
  /\ forall r, In r l ->
       Query.source r = Query.source this
       /\ (r = this \/ exists x y, r = between this x y).
Proof.
  intros Href.
  destruct Href; simpl; (split; [lia|]); intros r Hr;
    repeat (destruct Hr as [<-|Hr]; [|]); try contradiction;
    (split; [reflexivity|]);
    first [ now left | right; eexists; eexists; reflexivity ].
Qed.

Lemma refineAll_Ok (surface : Flat.FlatTriangulation)
    (l : list Query.Sector) (b e : Vector) (l' : list Query.Sector) :
  Query.refineAll surface l b e = Ok l' ->
  (length l' <= 2 * length l)%nat
  /\ forall r, In r l' ->
       exists s, In s l /\ Query.source r = Query.source s
                 /\ (r = s \/ exists x y, r = between s x y).
Proof.
  revert l'. induction l as [|s l IH]; simpl; intros l' Hall.
  - injection Hall as <-. split; [simpl; lia|]. intros r [].
  - apply bind_Ok in Hall. destruct Hall as (refined_ & Href & Hall).
    apply bind_Ok in Hall. destruct Hall as (rest & Hrest & Hall).
    injection Hall as <-.
    apply refine_refined in Href. destruct Href as (_ & _ & _ & Href).
    apply refined_shape in Href. destruct Href as [Hlen Hshape].
    destruct (IH rest Hrest) as [Hlen' Hshape'].
    split; [rewrite length_app; lia|].
    intros r Hr. apply in_app_or in Hr. destruct Hr as [Hr|Hr].
    + exists s. split; [now left|]. now apply Hshape.
    + destruct (Hshape' r Hr) as (s' & Hs' & Hrs').
      exists s'. split; [now right | exact Hrs'].
Qed.

(** X5: what [sector(sectorBegin, sectorEnd)] returns has the surface and
    the search radius of the query, at most twice as many sectors, and each
    of its sectors starts at the half edge of a sector of the query: it is
    that sector or has the boundaries the refinement gave it. *)
Theorem Query_sectorBetween_keeps (q q' : Query.SaddleConnections)
    (sectorBegin sectorEnd : Vector) :
  Query.sectorBetween q sectorBegin sectorEnd = Ok q' ->
  Query.surface q' = Query.surface q
  /\ Query.searchRadius q' = Query.searchRadius q
  /\ (length (Query.sectors q') <= 2 * length (Query.sectors q))%nat
  /\ forall r, In r (Query.sectors q') ->
       exists s, In s (Query.sectors q)
                 /\ Query.source r = Query.source s
                 /\ (r = s \/ exists x y, Query.sector r = Some (x, y)).
Proof.
  unfold Query.sectorBetween. intros Hq.
  apply bind_Ok in Hq. destruct Hq as (l & Hall & Hq). injection Hq as <-.
  simpl. split; [reflexivity|]. split; [reflexivity|].
  apply refineAll_Ok in Hall. destruct Hall as [Hlen Hshape].
  split; [exact Hlen|].
  intros r Hr. destruct (Hshape r Hr) as (s & Hs & Hsrc & Hrs).
  exists s. split; [exact Hs|]. split; [exact Hsrc|].
  destruct Hrs as [->|(x & y & ->)]; [now left|].
  right. exists x, y. reflexivity.
Qed.

(** On the square torus the sector from [(1,0)] to [(0,1)] keeps two of the
    six corners. *)
Lemma Query_sectorBetween_keeps_witness :
  exists q',
    Query.sectorBetween (Query.all flatTorus) (V 1 0) (V 0 1) = Ok q'
    /\ Query.sectors q'
       = [between (Query.mkSector 1 None) (V 1 0) (V 1 1);
          Query.mkSector (- 3) None]
    /\ (length (Query.sectors q') <= 12)%nat.
Proof.
  eexists. split; [reflexivity|]. split; [reflexivity|].
  destruct (@Query_sectorBetween_keeps (Query.all flatTorus) _ (V 1 0) (V 0 1)
              eq_refl) as (_ & _ & Hlen & _).
  exact Hlen.
Defined.

Lemma refineAll_filter (surface : Flat.FlatTriangulation)
    (l : list Query.Sector) (b e : Vector) (l' : list Query.Sector)
    (h : HalfEdge) :
  Query.refineAll surface l b e = Ok l' ->
  Query.refineAll surface (filter (fun s => Query.source s =? h) l) b e
  = Ok (filter (fun s => Query.source s =? h) l').
Proof.
  revert l'. induction l as [|s l IH]; simpl; intros l' Hall.
  - injection Hall as <-. reflexivity.
  - apply bind_Ok in Hall. destruct Hall as (refined_ & Href & Hall).
    apply bind_Ok in Hall. destruct Hall as (rest & Hrest & Hall).
    injection Hall as <-.
    pose proof Href as Hshape.
    apply refine_refined in Hshape. destruct Hshape as (_ & _ & _ & Hshape).
    apply refined_shape in Hshape. destruct Hshape as [_ Hshape].
    rewrite filter_app.
    destruct (Query.source s =? h) eqn:Hs; simpl.
    + rewrite Href. simpl. rewrite (IH rest Hrest). simpl.
      do 2 f_equal. symmetry. apply filter_all. intros r Hr.
      destruct (Hshape r Hr) as [-> _]. exact Hs.
    + rewrite (IH rest Hrest).
      replace (filter _ refined_) with (@nil Query.Sector); [reflexivity|].
      symmetry. apply filter_none. intros r Hr.
      destruct (Hshape r Hr) as [-> _]. exact Hs.
Qed.

(** X6: a refinement that goes through on a query goes through on its
    selection by [sector(HalfEdge)] and on a bounded copy as well, with the
    results selected, or bounded, as the queries are: the refinement, the
    selection of a half edge and the bound can be applied in any order. *)
Theorem Query_sectorBetween_commutes (q q' : Query.SaddleConnections)
    (sectorBegin sectorEnd : Vector) (h : HalfEdge) (r : Query.Bound) :
  Query.sectorBetween q sectorBegin sectorEnd = Ok q' ->
  Query.sectorBetween (Query.sectorAt q h) sectorBegin sectorEnd
  = Ok (Query.sectorAt q' h)
  /\ Query.sectorBetween (Query.bound q r) sectorBegin sectorEnd
     = Ok (Query.bound q' r).
Proof.
  unfold Query.sectorBetween. intros Hq.
  apply bind_Ok in Hq. destruct Hq as (l & Hall & Hq). injection Hq as <-.
  split.
  - unfold Query.sectorAt. simpl.
    now rewrite (@refineAll_filter _ _ _ _ _ h Hall).
  - unfold Query.bound. simpl. now rewrite Hall.
Qed.

(** On the square torus: first the sector from [(1,0)] to [(0,1)], then the
    half edge [-3], or the other way round. *)
Lemma Query_sectorBetween_commutes_witness :
  Query.sectorBetween (Query.sectorAt (Query.all flatTorus) (- 3))
                      (V 1 0) (V 0 1)
  = Ok (Query.Build flatTorus [Query.mkSector (- 3) None] None)
  /\ Query.sectorBetween (Query.bound (Query.all flatTorus) 7) (V 1 0) (V 0 1)
     = Ok (Query.Build flatTorus
             [between (Query.mkSector 1 None) (V 1 0) (V 1 1);
              Query.mkSector (- 3) None] (Some 7)).
Proof.
  exact (@Query_sectorBetween_commutes (Query.all flatTorus) _ (V 1 0) (V 0 1)
           (- 3) 7 eq_refl).
Defined.

(** [refine] throws on a sector whose first boundary is strictly
    counterclockwise of the vector of its half edge: the first assertion
    compares them the other way round. *)
Lemma refine_moved_begin (surface : Flat.FlatTriangulation)
    (this : Query.Sector) (first second b e : Vector) :
  Query.sector this = Some (first, second) ->
  Vec.ccw (Flat.fromEdge surface (Query.source this)) first
  = Vec.COUNTERCLOCKWISE ->
  Query.refine surface this b e = Err InvariantViolated.
Proof.
  intros Hsector Hccw. unfold Query.refine, Query.boundaries.
  rewrite Hsector. simpl.
  assert (Hcw : Vec.ccw first (Flat.fromEdge surface (Query.source this))
                = Vec.CLOCKWISE).
  { pose proof (Vec_ccw_spec (Flat.fromEdge surface (Query.source this)) first)
      as H1.
    rewrite Hccw in H1.
    pose proof (Vec_ccw_spec first (Flat.fromEdge surface (Query.source this)))
      as H2.
    rewrite (Vec_cross_antisym first) in H2.
    destruct (Vec.ccw first _); [exfalso; lia | reflexivity | exfalso; lia]. }
  rewrite Hcw. reflexivity.
Qed.

Lemma refineAll_each (surface : Flat.FlatTriangulation)
    (l : list Query.Sector) (b e : Vector) (l' : list Query.Sector) :
  Query.refineAll surface l b e = Ok l' ->
  forall s, In s l ->
    exists ls, Query.refine surface s b e = Ok ls
               /\ forall r, In r ls -> In r l'.
Proof.
  revert l'. induction l as [|s0 l IH]; simpl; intros l' Hall s Hs;
    [contradiction|].
  apply bind_Ok in Hall. destruct Hall as (refined_ & Href & Hall).
  apply bind_Ok in Hall. destruct Hall as (rest & Hrest & Hall).
  injection Hall as <-.
  destruct Hs as [<-|Hs].
  - exists refined_. split; [exact Href|]. intros r Hr.
    apply in_or_app. now left.
  - destruct (IH rest Hrest s Hs) as (ls & Hls & Hin).
    exists ls. split; [exact Hls|]. intros r Hr.
    apply in_or_app. right. now apply Hin.
Qed.

(** X7: once [sector(sectorBegin, sectorEnd)] has moved the begin of a
    corner of the surface strictly inside that corner, the query it returns
    cannot be refined again: on the refined sector the first assertion of
    [refine] fails, whatever the new boundaries are, and the second
    [sector(...)] throws. *)
Theorem Query_sector_again_fails (q q' : Query.SaddleConnections)
    (this : Query.Sector) (sectorBegin sectorEnd : Vector) :
  In this (Query.sectors q) ->
  Query.sector this = None ->
  narrow (Query.surface q) this ->
  lies (Query.surface q) this sectorBegin = true ->
  Vec.onRay sectorBegin
            (Flat.fromEdge (Query.surface q) (Query.source this)) = false ->
  Query.sectorBetween q sectorBegin sectorEnd = Ok q' ->
  (exists r, In r (Query.sectors q')
             /\ forall b e, Query.refine (Query.surface q') r b e
                            = Err InvariantViolated)
  /\ forall b e q'', Query.sectorBetween q' b e <> Ok q''.
Proof.
  intros Hthis Hnone Hnarrow Hlies Hray Hq.
  unfold Query.sectorBetween in Hq.
  apply bind_Ok in Hq. destruct Hq as (l & Hall & Hq). injection Hq as <-.
  destruct (refineAll_each _ _ _ _ Hall this Hthis) as (ls & Href & Hin).
  apply refine_refined in Href.
  destruct Href as (Hb & Hs1 & Hs2 & Href).
  assert (Hs1eq : fst (Query.boundaries (Query.surface q) this)
                  = Flat.fromEdge (Query.surface q) (Query.source this)).
  { unfold Query.boundaries. now rewrite Hnone. }
  destruct (@refined_begin (Query.surface q) this sectorBegin sectorEnd Hs2
              ls Href Hlies) as (y & Hy & _).
  assert (Hstrict : Vec.ccw (Flat.fromEdge (Query.surface q)
                                            (Query.source this))
                            sectorBegin = Vec.COUNTERCLOCKWISE).
  { rewrite <- Hs1eq.
    apply (@Vec_inSector_strict _ (snd (Query.boundaries (Query.surface q)
                                                          this)));
      try assumption.
    rewrite Hs1eq. rewrite Vec_onRay_sym. exact Hray. }
  assert (Hfails : forall b e,
             Query.refine (Query.surface q) (between this sectorBegin y) b e
             = Err InvariantViolated).
  { intros b e. apply (@refine_moved_begin _ _ sectorBegin y);
      [reflexivity | exact Hstrict]. }
  simpl. split.
  - exists (between this sectorBegin y). split; [now apply Hin | exact Hfails].
  - intros b e q'' Hagain. unfold Query.sectorBetween in Hagain. simpl in Hagain.
    apply bind_Ok in Hagain. destruct Hagain as (l2 & Hall2 & _).
    destruct (refineAll_each _ _ _ _ Hall2 (between this sectorBegin y)
                (Hin _ Hy)) as (ls2 & Href2 & _).
    rewrite Hfails in Href2. discriminate.
Qed.

(** On the square torus: after the sector from [(2,1)] to [(1,1)], which
    refines the corner at the half edge [1] to these boundaries, no further
    sector can be taken. *)
Lemma Query_sector_again_fails_witness :
  exists q',
    Query.sectorBetween (Query.sectorAt (Query.all flatTorus) 1)
                        (V 2 1) (V 1 1) = Ok q'
    /\ Query.sectors q' = [between (Query.mkSector 1 None) (V 2 1) (V 1 1)]
    /\ forall b e q'', Query.sectorBetween q' b e <> Ok q''.
Proof.
  eexists. split; [reflexivity|]. split; [reflexivity|].
  apply (@Query_sector_again_fails (Query.sectorAt (Query.all flatTorus) 1) _
           (Query.mkSector 1 None) (V 2 1) (V 1 1)).
  - simpl. now left.
  - reflexivity.
  - reflexivity.
  - reflexivity.
  - reflexivity.
  - reflexivity.
Defined.



(** ** The query builder: sectors between saddle connections *)

Section BetweenConnections.

Context `{Vertex.Vertices} {SC : Type} `{Connection SC}.

Lemma Vertex_eqb_refl (v : Vertex.t) : Vertex.eqb v v = true.
Proof. now apply Vertex.eqb_eq. Qed.

Lemma bind_Ok_r {A : Type} (r : Result A) : (a <- r ;; Ok a) = r.
Proof. destruct r; reflexivity. Qed.

(** The sectors that come out of the loop start at half edges of sectors
    that went in. *)
Lemma sectorsOf_sources (fuel : nat) (surface : Flat.FlatTriangulation)
    (l : list Query.Sector) (b e : SC) (l' : list Query.Sector) :
  Query.sectorsOf fuel surface l b e = Some (Ok l') ->
  forall r, In r l' ->
    exists s, In s l /\ Query.source r = Query.source s.
Proof.
  revert l'. induction l as [|s l IH]; simpl; intros l' Hall r Hr.
  - injection Hall as <-. contradiction.
  - destruct (Query.sectorOf fuel surface s b e) as [[refined_|err]|] eqn:Hof;
      try discriminate.
    destruct (Query.sectorsOf fuel surface l b e) as [[rest|err]|] eqn:Hrest;
      try discriminate.
    injection Hall as <-. apply in_app_or in Hr. destruct Hr as [Hr|Hr].
    + exists s. split; [now left|].
      assert (Hself : forall l0, Some (Ok [s]) = Some (Ok l0) ->
                                 In r l0 -> Query.source r = Query.source s).
      { intros l0 [= <-] [<-|[]]. reflexivity. }
      assert (Hnone : forall l0, Some (Ok (@nil Query.Sector)) = Some (Ok l0) ->
                                 In r l0 -> Query.source r = Query.source s).
      { intros l0 [= <-] []. }
      assert (Hrefine : forall x y l0,
                 Some (Query.refine surface s x y) = Some (Ok l0) ->
                 In r l0 -> Query.source r = Query.source s).
      { intros x y l0 [= Href] Hr0. apply refine_refined in Href.
        destruct Href as (_ & _ & _ & Href). apply refined_shape in Href.
        destruct Href as [_ Hshape]. now apply Hshape. }
      unfold Query.sectorOf in Hof.
      repeat match type of Hof with
             | (if ?c then _ else _) = _ => destruct c
             | match ?c with _ => _ end = _ => destruct c as [[|]|]
             end;
        try discriminate; eauto.
    + destruct (IH rest eq_refl r Hr) as (s' & Hs' & Hsrc).
      exists s'. split; [now right | exact Hsrc].
Qed.

(** X8: [sector(sectorBegin, sectorEnd)] on two saddle connections that
    start at different vertices selects nothing, whatever the query was; and
    whenever it returns, every sector it selects starts at a half edge which
    the query had a sector at and which lies at the vertex of [sectorBegin];
    the surface and the search radius are those of the query. *)
Theorem Query_sectorConnections_vertex (fuel : nat)
    (q : Query.SaddleConnections) (sectorBegin sectorEnd : SC) :
  let c := Flat.combinatorial (Query.surface q) in
  (Vertex.source (Conn.source sectorBegin) c
   <> Vertex.source (Conn.source sectorEnd) c ->
   Query.sectorConnections fuel q sectorBegin sectorEnd
   = Some (Ok (Query.Build (Query.surface q) [] (Query.searchRadius q))))
  /\ (forall q',
        Query.sectorConnections fuel q sectorBegin sectorEnd = Some (Ok q') ->
        Query.surface q' = Query.surface q
        /\ Query.searchRadius q' = Query.searchRadius q
        /\ forall r, In r (Query.sectors q') ->
             Vertex.source (Query.source r) c
             = Vertex.source (Conn.source sectorBegin) c
             /\ exists s, In s (Query.sectors q)
                          /\ Query.source r = Query.source s).
Proof.
  intros c. unfold Query.sectorConnections. fold c. split.
  - intros Hne.
    replace (Query.sectors _) with (@nil Query.Sector); [reflexivity|].
    symmetry. unfold Query.sourceAt. simpl. fold c.
    rewrite filter_filter. apply filter_none. intros s _.
    apply andb_false_iff.
    destruct (Vertex.eqb (Vertex.source (Query.source s) c)
                         (Vertex.source (Conn.source sectorBegin) c)) eqn:Hb;
      [right | now left].
    apply Vertex.eqb_eq in Hb. rewrite Hb.
    apply not_true_is_false. intros Heq. now apply Vertex.eqb_eq in Heq.
  - intros q' Hq.
    destruct (Query.sectorsOf fuel _ _ _ _) as [[l|err]|] eqn:Hall;
      try discriminate.
    simpl in Hq. injection Hq as <-. simpl.
    split; [reflexivity|]. split; [reflexivity|].
    intros r Hr.
    destruct (sectorsOf_sources _ _ _ _ _ Hall r Hr) as (s & Hs & Hsrc).
    unfold Query.sourceAt in Hs. simpl in Hs. fold c in Hs.
    apply filter_In in Hs. destruct Hs as [Hs _].
    apply filter_In in Hs. destruct Hs as [Hs Hv].
    apply Vertex.eqb_eq in Hv. rewrite Hsrc.
    split; [exact Hv|]. exists s. split; [exact Hs | reflexivity].
Qed.

Lemma sectorsOf_same_corner (fuel : nat) (surface : Flat.FlatTriangulation)
    (l : list Query.Sector) (b e : SC) :
  Conn.source b = Conn.source e ->
  Vec.ccw (vector b) (vector e) <> Vec.CLOCKWISE ->
  let c := Flat.combinatorial surface in
  let v := Vertex.source (Conn.source b) c in
  Query.sectorsOf fuel surface
    (filter (fun s => Vertex.eqb (Vertex.source (Query.source s) c) v) l) b e
  = Some (Query.refineAll surface
            (filter (fun s => Query.source s =? Conn.source b) l)
            (vector b) (vector e)).
Proof.
  intros Hsame Hccw c v.
  apply CCW_eqb_neq in Hccw.
  induction l as [|s l IH]; simpl; [reflexivity|].
  destruct (Query.source s =? Conn.source b) eqn:Hs.
  - apply Z.eqb_eq in Hs. rewrite Hs. fold v. rewrite Vertex_eqb_refl.
    simpl. unfold Query.sectorOf. rewrite <- Hsame, Z.eqb_refl.
    rewrite Hs, Z.eqb_refl.
    destruct (Query.refine surface s (vector b) (vector e)) as [refined_|err];
      [|reflexivity].
    rewrite IH. reflexivity.
  - destruct (Vertex.eqb _ v); [|exact IH].
    simpl. unfold Query.sectorOf. rewrite <- Hsame, Z.eqb_refl, Hs, Hccw.
    rewrite IH. simpl. now rewrite bind_Ok_r.
Qed.

(** X9: for two saddle connections that start at the same half edge, the
    second not clockwise of the first, [sector(sectorBegin, sectorEnd)] is
    the selection of that half edge followed by the refinement to their
    vectors; the walk around the vertex is not entered. *)
Theorem Query_sectorConnections_corner (fuel : nat)
    (q : Query.SaddleConnections) (sectorBegin sectorEnd : SC) :
  Conn.source sectorBegin = Conn.source sectorEnd ->
  Vec.ccw (vector sectorBegin) (vector sectorEnd) <> Vec.CLOCKWISE ->
  Query.sectorConnections fuel q sectorBegin sectorEnd
  = Some (Query.sectorBetween (Query.sectorAt q (Conn.source sectorBegin))
                              (vector sectorBegin) (vector sectorEnd)).
Proof.
  intros Hsame Hccw. unfold Query.sectorConnections, Query.sectorBetween.
  unfold Query.sourceAt, Query.sectorAt. simpl.
  rewrite <- Hsame.
  set (p := fun sector : Query.Sector =>
              Vertex.eqb
                (Vertex.source (Query.source sector)
                               (Flat.combinatorial (Query.surface q)))
                (Vertex.source (Conn.source sectorBegin)
                               (Flat.combinatorial (Query.surface q)))).
  rewrite (filter_all p (filter p (Query.sectors q))).
  - unfold p.
    rewrite (sectorsOf_same_corner fuel (Query.surface q) (Query.sectors q)
               sectorBegin sectorEnd Hsame Hccw).
    reflexivity.
  - intros s Hs. apply filter_In in Hs. tauto.
Qed.

End BetweenConnections.

(** On the square torus, between the edge [1] and the connection with the
    vector [(2,1)] in the same corner. *)
Lemma Query_sectorConnections_corner_witness :
  Query.sectorConnections (H := orbitVertices) (H0 := connectionsOf torus)
    0 (Query.all flatTorus) (Triple.SC 1 (- 1) (V 1 0))
    (Triple.SC 1 (- 3) (V 2 1))
  = Some (Ok (Query.Build flatTorus
                [between (Query.mkSector 1 None) (V 1 0) (V 2 1)] None)).
Proof.
  rewrite (@Query_sectorConnections_corner orbitVertices _
             (connectionsOf torus) 0 (Query.all flatTorus)
             (Triple.SC 1 (- 1) (V 1 0)) (Triple.SC 1 (- 3) (V 2 1)));
    [reflexivity | reflexivity | discriminate].
Defined.



(** ** Collapsed surfaces: the sector of a half edge *)

Section CollapsedSector.

Context {SC : Type} `{Connection SC}.

Abbreviation Surface := (@Collapsed.Surface SC).

(** The two boundaries [inSector] compares with. *)
Lemma inSector_spec (s : Surface) (sector : HalfEdge) (v : Vector) :
  let first := vector (Collapsed.fromEdge s sector) in
  let second :=
    vector (negate (Collapsed.fromEdge s
                      (previousInFace (Collapsed.combinatorial s) sector))) in
  Collapsed.inSector s sector v = true
  <-> 0 <= Vec.cross first v /\ Vec.cross second v < 0.
Proof.
  intros first second. unfold Collapsed.inSector. fold first second.
  pose proof (Vec_ccw_spec first v) as H1.
  pose proof (Vec_ccw_spec second v) as H2.
  destruct (Vec.ccw first v), (Vec.ccw second v); simpl;
    split; intros Hv; try discriminate; try reflexivity; lia.
Qed.

Lemma Vec_cross_add_r (u v w : Vector) :
  Vec.cross u (Vec.add v w) = Vec.cross u v + Vec.cross u w.
Proof. unfold Vec.cross, Vec.add. simpl. ring. Qed.

Lemma Vec_cross_scale_r (u v : Vector) (k : Z) :
  Vec.cross u (scale k v) = k * Vec.cross u v.
Proof. unfold Vec.cross, scale. simpl. ring. Qed.

Lemma Vec_cross_zero_r (u : Vector) : Vec.cross u Vec.zero = 0.
Proof. unfold Vec.cross, Vec.zero. simpl. ring. Qed.

(** X10: the vectors in the sector of a half edge of a collapsed surface
    form a convex cone without the origin that holds no two opposite
    vectors: [inSector] rejects the zero vector, accepts at most one of [v]
    and [-v], and with [v] and [w] it accepts [v + w] and every positive
    multiple of [v]. *)
Theorem Collapsed_inSector_cone (s : Surface) (sector : HalfEdge)
    (v w : Vector) (k : Z) :
  Collapsed.inSector s sector Vec.zero = false
  /\ Collapsed.inSector s sector v && Collapsed.inSector s sector (Vec.opp v)
     = false
  /\ (Collapsed.inSector s sector v = true ->
      Collapsed.inSector s sector w = true ->
      Collapsed.inSector s sector (Vec.add v w) = true)
  /\ (0 < k ->
      Collapsed.inSector s sector (scale k v)
      = Collapsed.inSector s sector v).
Proof.
  split; [|split; [|split]].
  - apply not_true_is_false. rewrite inSector_spec, !Vec_cross_zero_r. lia.
  - apply not_true_is_false. rewrite andb_true_iff, !inSector_spec.
    rewrite !Vec_cross_opp_r. lia.
  - rewrite !inSector_spec, !Vec_cross_add_r. lia.
  - intros Hk. apply eq_true_iff_eq. rewrite !inSector_spec.
    rewrite !Vec_cross_scale_r. nia.
Qed.

(** X11: the sector of a half edge begins at its own vector and ends before
    the opposite of the one that precedes it in its face: the end is never
    in the sector, the begin is exactly when the corner turns
    counterclockwise, and then [inSector] is the test of [Vector::inSector]
    between the two; a vector is in at most one of two sectors the second of
    which begins where the first ends. *)
Theorem Collapsed_inSector_boundaries (s : Surface) (sector next : HalfEdge)
    (v : Vector) :
  let first := vector (Collapsed.fromEdge s sector) in
  let second :=
    vector (negate (Collapsed.fromEdge s
                      (previousInFace (Collapsed.combinatorial s) sector))) in
  Collapsed.inSector s sector second = false
  /\ Collapsed.inSector s sector first
     = Vec.CCW_eqb (Vec.ccw first second) Vec.COUNTERCLOCKWISE
  /\ (Vec.ccw first second = Vec.COUNTERCLOCKWISE ->
      Collapsed.inSector s sector v = Vec.inSectorNonzero v first second)
  /\ (vector (Collapsed.fromEdge s next) = second ->
      Collapsed.inSector s sector v && Collapsed.inSector s next v = false).
Proof.
  intros first second. split; [|split; [|split]].
  - apply not_true_is_false. rewrite inSector_spec. fold second.
    rewrite Vec_cross_self. lia.
  - apply eq_true_iff_eq. rewrite inSector_spec. fold first second.
    rewrite Vec_cross_self, CCW_eqb_eq.
    rewrite (Vec_cross_antisym second first).
    pose proof (Vec_ccw_spec first second) as Hs.
    destruct (Vec.ccw first second); split; intros Hv;
      try discriminate; try reflexivity; lia.
  - intros Hnarrow. apply eq_true_iff_eq.
    rewrite inSector_spec. fold first second.
    rewrite (@Vec_inSector_narrow first second v Hnarrow).
    rewrite (Vec_cross_antisym second v). lia.
  - intros Hnext. apply not_true_is_false.
    rewrite andb_true_iff, !inSector_spec. fold second. rewrite Hnext. lia.
Qed.

End CollapsedSector.



(** ** Collapsed surfaces: turning around a vertex *)

Section CollapsedTurn.

Context {SC : Type} `{Connection SC} `{Vertex.Vertices}.

Abbreviation Surface := (@Collapsed.Surface SC).

(** The set of connections has as many elements as the list only if no
    connection of the list equals an earlier one. *)
Lemma unorderedSet_length (l seen : list SC) :
  (length (Collapsed.unorderedSet l seen) <= length seen + length l)%nat.
Proof.
  revert seen. induction l as [|c l IH]; intros seen; simpl; [lia|].
  destruct (existsb (equal c) seen).
  - specialize (IH seen). lia.
  - specialize (IH (seen ++ [c])). rewrite length_app in IH. simpl in IH. lia.
Qed.

Lemma unorderedSet_distinct (l seen : list SC) :
  length (Collapsed.unorderedSet l seen) = (length seen + length l)%nat ->
  (forall c x, In c l -> In x seen -> equal c x = false)
  /\ ForallOrdPairs (fun x c => equal c x = false) l.
Proof.
  revert seen. induction l as [|c l IH]; intros seen; simpl.
  - intros _. split; [intros c x []|constructor].
  - destruct (existsb (equal c) seen) eqn:Hex.
    + intros Hlen. pose proof (unorderedSet_length l seen). lia.
    + intros Hlen.
      destruct (IH (seen ++ [c])) as [Hseen Hpairs].
      { rewrite length_app. simpl. lia. }
      split.
      * intros c' x [<-|Hc'] Hx.
        -- destruct (equal c x) eqn:Heq; [|reflexivity].
           assert (existsb (equal c) seen = true)
             by (apply existsb_exists; eauto).
           congruence.
        -- apply Hseen; [exact Hc'|]. apply in_or_app. now left.
      * constructor; [|exact Hpairs].
        apply Forall_forall. intros c' Hc'. apply Hseen; [exact Hc'|].
        apply in_or_app. right. now left.
Qed.

(** The loop of [turn] walks clockwise around the vertex until it meets
    [to] and collects the hidden connections of the half edges it leaves. *)
Lemma turnLoop_Some (fuel : nat) (s : Surface) (from to : HalfEdge)
    (acc l : list SC) :
  Collapsed.turnLoop fuel s from to acc = Some l ->
  exists n,
    (n <= fuel)%nat
    /\ nth n (Triple.orbit (previousAtVertex (Collapsed.combinatorial s))
                           (S n) from) 0 = to
    /\ ~ In to (Triple.orbit (previousAtVertex (Collapsed.combinatorial s))
                             n from)
    /\ l = acc ++ flat_map (Collapsed.cross s)
                    (Triple.orbit (previousAtVertex (Collapsed.combinatorial s))
                                  n from).
Proof.
  revert from acc. induction fuel as [|fuel IH]; intros from acc; simpl.
  - destruct (Z.eqb_spec from to) as [->|Hne]; [|discriminate].
    intros [= <-]. exists O. simpl. rewrite app_nil_r. repeat split; auto.
  - destruct (Z.eqb_spec from to) as [->|Hne].
    + intros [= <-]. exists O. simpl. rewrite app_nil_r.
      repeat split; auto. lia.
    + intros Hloop. destruct (IH _ _ Hloop) as (n & Hn & Hnth & Hnotin & ->).
      exists (S n). split; [lia|]. split; [exact Hnth|]. split.
      * simpl. intros [Heq|Hin]; [congruence | contradiction].
      * simpl. now rewrite <- app_assoc.
Qed.

Lemma turnLoop_more (fuel fuel' : nat) (s : Surface) (from to : HalfEdge)
    (acc l : list SC) :
  (fuel <= fuel')%nat ->
  Collapsed.turnLoop fuel s from to acc = Some l ->
  Collapsed.turnLoop fuel' s from to acc = Some l.
Proof.
  revert fuel' from acc. induction fuel as [|fuel IH];
    intros fuel' from acc Hle; simpl.
  - destruct (from =? to) eqn:Heq; [|discriminate].
    intros [= <-]. destruct fuel'; simpl; now rewrite Heq.
  - destruct fuel' as [|fuel']; [lia|]. simpl.
    destruct (from =? to); [auto|]. apply IH. lia.
Qed.

(** X12: [turn(from, to)] between half edges that start at different
    vertices is refused with [InvalidArgument]; [turn(e, e)] is the empty
    turn, not the full turn around the vertex: it returns no connection,
    whatever is hidden there. *)
Theorem Collapsed_turn_edge_cases (fuel : nat) (s : Surface)
    (from to : HalfEdge) :
  (Vertex.source from (Collapsed.combinatorial s)
   <> Vertex.source to (Collapsed.combinatorial s) ->
   Collapsed.turn fuel s from to = Some (Err InvalidArgument))
  /\ Collapsed.turn fuel s from from = Some (Ok []).
Proof.
  unfold Collapsed.turn. split.
  - intros Hne.
    destruct (Vertex.eqb _ _) eqn:Heq; [|reflexivity].
    apply Vertex.eqb_eq in Heq. contradiction.
  - replace (Vertex.eqb _ _) with true
      by (symmetry; now apply Vertex.eqb_eq).
    simpl. destruct fuel; simpl; now rewrite Z.eqb_refl.
Qed.

(** X13: when [turn(from, to)] returns, the two half edges start at the same
    vertex, [to] is met after some [n] steps of [previousAtVertex] and not
    before, and the result is the hidden lists of the [n] half edges left
    behind, one after the other; no connection of the result equals an
    earlier one; and more rounds of the loop give the same result. *)
Theorem Collapsed_turn_result (fuel : nat) (s : Surface)
    (from to : HalfEdge) (l : list SC) :
  Collapsed.turn fuel s from to = Some (Ok l) ->
  let previous := previousAtVertex (Collapsed.combinatorial s) in
  Vertex.source from (Collapsed.combinatorial s)
  = Vertex.source to (Collapsed.combinatorial s)
  /\ (exists n,
         (n <= fuel)%nat
         /\ nth n (Triple.orbit previous (S n) from) 0 = to
         /\ ~ In to (Triple.orbit previous n from)
         /\ l = flat_map (Collapsed.cross s) (Triple.orbit previous n from))
  /\ ForallOrdPairs (fun x c => equal c x = false) l
  /\ forall fuel', (fuel <= fuel')%nat ->
                   Collapsed.turn fuel' s from to = Some (Ok l).
Proof.
  intros Hturn previous. unfold Collapsed.turn in Hturn.
  destruct (Vertex.eqb _ _) eqn:Hv; simpl in Hturn; [|discriminate].
  destruct (Collapsed.turnLoop fuel s from to []) as [l0|] eqn:Hloop;
    [|discriminate].
  injection Hturn as Hturn.
  apply bind_assert_Ok in Hturn. destruct Hturn as [Hset Hl].
  injection Hl as ->. apply Nat.eqb_eq in Hset.
  split; [now apply Vertex.eqb_eq|]. split; [|split].
  - destruct (turnLoop_Some _ _ _ _ _ Hloop) as (n & Hn & Hnth & Hnotin & ->).
    exists n. auto.
  - apply (unorderedSet_distinct l []). exact Hset.
  - intros fuel' Hle. unfold Collapsed.turn. rewrite Hv. simpl.
    rewrite (turnLoop_more (fuel' := fuel') _ _ _ _ Hle Hloop).
    unfold ASSERT. rewrite Hset, Nat.eqb_refl. reflexivity.
Qed.

End CollapsedTurn.

(** On the square torus with the connections hidden in [3] and [-3], the
    turn from [3] to [-2] passes [3], [-1], [2], [-3] and [1] and returns
    the two hidden connections; six rounds are enough, and a hundred give
    the same. *)
Lemma Collapsed_turn_result_witness :
  let H := connectionsOf torus in
  let V := orbitVertices in
  Collapsed.turn 6 torusWithHidden 3 (- 2)
  = Some (Ok [verticalConnection; Triple.negate verticalConnection])
  /\ Collapsed.turn 100 torusWithHidden 3 (- 2)
     = Some (Ok [verticalConnection; Triple.negate verticalConnection]).
Proof.
  intros H V.
  assert (Hturn : Collapsed.turn 6 torusWithHidden 3 (- 2)
                  = Some (Ok [verticalConnection;
                              Triple.negate verticalConnection]))
    by reflexivity.
  split; [exact Hturn|].
  destruct (@Collapsed_turn_result _ H V 6 torusWithHidden 3 (- 2) _ Hturn)
    as (_ & _ & _ & Hmore).
  apply Hmore. apply Nat.leb_le. reflexivity.
Defined.



(** ** Collapsed surfaces: what [check] enforces *)

Section CollapsedChecks.

Context {SC : Type} `{Connection SC} `{@Collapsed.Collaborators SC}.

Abbreviation Surface := (@Collapsed.Surface SC).

Lemma areaLoop_Ok (s : Surface) (l : list HalfEdge) (acc total : Z) :
  Collapsed.areaLoop s l acc = Ok total ->
  forall e, In e l -> boundary (Collapsed.combinatorial s) e = false.
Proof.
  revert acc. induction l as [|h l IH]; simpl; intros acc Hloop e He;
    [contradiction|].
  destruct (boundary (Collapsed.combinatorial s) h) eqn:Hb; [discriminate|].
  destruct He as [<-|He]; [exact Hb|]. eapply IH; eassumption.
Qed.

Lemma areaLoop_boundary (s : Surface) (l : list HalfEdge) (acc : Z) :
  (exists e, In e l /\ boundary (Collapsed.combinatorial s) e = true) ->
  Collapsed.areaLoop s l acc = Err NotImplemented.
Proof.
  revert acc. induction l as [|h l IH]; simpl; intros acc (e & He & Hb);
    [contradiction|].
  destruct (boundary (Collapsed.combinatorial s) h) eqn:Hh; [reflexivity|].
  apply IH. exists e. split; [|exact Hb].
  destruct He as [<-|He]; [congruence | exact He].
Qed.

(** X15: on a surface with a half edge on the boundary [check] never
    succeeds: if the faces away from the boundary close, the area loop
    throws the logic error [not implemented: area with boundary]. *)
Theorem Collapsed_check_boundary (s : Surface) (e : HalfEdge) :
  In e (halfEdges (Collapsed.combinatorial s)) ->
  boundary (Collapsed.combinatorial s) e = true ->
  Collapsed.check s
  = (_ <- forEach (Collapsed.checkFace s)
                  (halfEdges (Collapsed.combinatorial s)) ;;
     Err NotImplemented)
  /\ Collapsed.check s <> Ok tt.
Proof.
  intros He Hb.
  assert (Hcheck : Collapsed.check s
                   = (_ <- forEach (Collapsed.checkFace s)
                                   (halfEdges (Collapsed.combinatorial s)) ;;
                      Err NotImplemented)).
  { unfold Collapsed.check. rewrite areaLoop_boundary by eauto. reflexivity. }
  split; [exact Hcheck|]. rewrite Hcheck.
  destruct (forEach _ _) as [[]|err]; discriminate.
Qed.

Lemma find_none_iff {A : Type} (p : A -> bool) (l : list A) :
  (forall a, In a l -> p a = false) -> find p l = None.
Proof.
  induction l as [|a l IH]; simpl; intros Hp; [reflexivity|].
  rewrite (Hp a) by now left. apply IH. intros b Hb. apply Hp. now right.
Qed.

(** X16: when no half edge of the surface is parallel to the vertical, the
    loop of [make] collapses nothing, in no round: [make] returns the
    surface of the constructor, on which nothing is hidden and every half
    edge carries its own connection, provided that surface passes [check],
    and fails as [check] does otherwise. *)
Theorem Collapsed_make_nothing_vertical (fuel : nat)
    (surface : Flat.FlatTriangulation) (vertical : Vector) :
  noVertical (Collapsed.construct (SC := SC) surface vertical) ->
  let s := Collapsed.construct surface vertical in
  Collapsed.make fuel surface vertical
  = Some (_ <- Collapsed.check s ;; Ok s)
  /\ forall s', Collapsed.make fuel surface vertical = Some (Ok s') ->
       forall e, Collapsed.cross s' e = []
                 /\ Collapsed.fromEdge s' e
                    = connect e (- e) (Flat.fromEdge surface e).
Proof.
  intros Hnone s.
  assert (Hmake : Collapsed.make fuel surface vertical
                  = Some (_ <- Collapsed.check s ;; Ok s)).
  { unfold Collapsed.make. fold s.
    assert (Hloop : Collapsed.collapseVerticals fuel s = Some (Ok s)).
    { pose proof (find_none_iff _ _ Hnone) as Hfind. fold s in Hfind.
      destruct fuel; cbn [Collapsed.collapseVerticals]; now rewrite Hfind. }
    rewrite Hloop. reflexivity. }
  split; [exact Hmake|].
  intros s' Hs'. rewrite Hmake in Hs'. injection Hs' as Hs'.
  apply bind_unit_Ok in Hs'. destruct Hs' as [_ Hs']. injection Hs' as <-.
  intros e. split; reflexivity.
Qed.

End CollapsedChecks.

(** On the square torus with the vertical [(1,2)] no half edge is vertical:
    [make] needs no round and returns the surface of the constructor, which
    passes [check]. *)
Lemma Collapsed_make_nothing_vertical_witness :
  let H := connectionsOf torus in
  let K := exampleCollaborators (H := H) in
  Collapsed.make 0 flatTorus (V 1 2)
  = Some (Ok (Collapsed.construct flatTorus (V 1 2))).
Proof.
  intros H K.
  assert (Hnone : noVertical (Collapsed.construct (H := H) flatTorus (V 1 2))).
  { intros e He. simpl in He.
    repeat (destruct He as [<-|He]; [reflexivity|]). contradiction. }
  destruct (@Collapsed_make_nothing_vertical _ H K 0 flatTorus (V 1 2) Hnone)
    as [Hmake _].
  rewrite Hmake. reflexivity.
Defined.

(** With the half edge [1] on the boundary the faces of the torus still
    close and the area loop throws. *)
Lemma Collapsed_check_boundary_witness :
  let H := connectionsOf torus in
  let K := exampleCollaborators (H := H) in
  Collapsed.check openTorus = Err NotImplemented.
Proof.
  intros H K.
  assert (Hin : In 1 (halfEdges (Collapsed.combinatorial openTorus)))
    by (simpl; tauto).
  destruct (@Collapsed_check_boundary _ H K openTorus 1 Hin eq_refl)
    as [Hcheck _].
  rewrite Hcheck. reflexivity.
Defined.


(** ** Vectors: the sector tests of the test suite *)

(** X17: what vector.test.cc requires of [inSector] at [(1,0)] holds of
    every vector but zero: [v] is in the ray [v, v] and in the half turn that
    starts at [v], and not in the half turn that ends at [v]; on the zero
    vector [inSector] is refused. *)
Theorem Vec_inSector_tests (v : Vector) :
  (Vec.nonzero v = true ->
   Vec.inSector v v v = Ok true
   /\ Vec.inSector v v (Vec.opp v) = Ok true
   /\ Vec.inSector v (Vec.opp v) v = Ok false)
  /\ Vec.inSector Vec.zero v v = Err InvalidArgument.
Proof.
  split; [|reflexivity].
  intros Hv. pose proof (Vec_nonzero_opp v Hv) as Hopp.
  rewrite !inSector_nonzero by assumption.
  pose proof (Vec_onRay_refl v Hv) as Hray.
  pose proof (Vec_nonzero_dot v Hv) as Hdot.
  pose proof (Vec_cross_self v) as Hcross.
  unfold Vec.inSectorNonzero. rewrite Hray.
  assert (Hvv : Vec.ccw v v = Vec.COLLINEAR).
  { unfold Vec.ccw. now rewrite Hcross. }
  assert (Hvo : Vec.ccw v (Vec.opp v) = Vec.COLLINEAR).
  { unfold Vec.ccw. now rewrite Vec_cross_opp_r, Hcross. }
  assert (Hov : Vec.ccw (Vec.opp v) v = Vec.COLLINEAR).
  { unfold Vec.ccw. now rewrite Vec_cross_opp_l, Hcross. }
  assert (Hor : Vec.orientation v (Vec.opp v) = Vec.OPPOSITE).
  { pose proof (Vec_orientation_spec v (Vec.opp v)) as Hs.
    rewrite Vec_dot_opp_r in Hs.
    destruct (Vec.orientation v (Vec.opp v)); [exfalso; lia | reflexivity
                                              | exfalso; lia]. }
  assert (Hor' : Vec.orientation (Vec.opp v) v = Vec.OPPOSITE).
  { pose proof (Vec_orientation_spec (Vec.opp v) v) as Hs.
    rewrite Vec_dot_opp_l in Hs.
    destruct (Vec.orientation (Vec.opp v) v); [exfalso; lia | reflexivity
                                              | exfalso; lia]. }
  rewrite Hvv, Hvo, Hov, Hor, Hor'. simpl.
  assert (Hself : Vec.orientation v v = Vec.SAME).
  { pose proof (Vec_orientation_spec v v) as Hs.
    destruct (Vec.orientation v v); [reflexivity | exfalso; lia
                                    | exfalso; lia]. }
  rewrite Hself.
  repeat split.
  unfold Vec.onRay. rewrite Hov, Hor'. reflexivity.
Qed.



(** ** The query builder: selecting a vertex *)

Section AtVertex.

Context `{Vertex.Vertices}.

(** X18: [source(Vertex)] keeps exactly the sectors whose half edge starts
    at that vertex; selecting the same vertex again changes nothing,
    selecting another vertex afterwards leaves no sector, the selection of a
    vertex and that of a half edge commute, and selecting the vertex of a
    half edge before that half edge is the same as selecting the half
    edge. *)
Theorem Query_sourceAt_selects (q : Query.SaddleConnections)
    (v w : Vertex.t) (h : HalfEdge) :
  let c := Flat.combinatorial (Query.surface q) in
  (forall s, In s (Query.sectors (Query.sourceAt q v))
             <-> In s (Query.sectors q)
                 /\ Vertex.source (Query.source s) c = v)
  /\ Query.sourceAt (Query.sourceAt q v) v = Query.sourceAt q v
  /\ (v <> w -> Query.sectors (Query.sourceAt (Query.sourceAt q v) w) = [])
  /\ Query.sectorAt (Query.sourceAt q v) h
     = Query.sourceAt (Query.sectorAt q h) v
  /\ Query.sectorAt (Query.sourceAt q (Vertex.source h c)) h
     = Query.sectorAt q h.
Proof.
  intros c. unfold Query.sourceAt, Query.sectorAt. simpl. fold c.
  split; [|split; [|split; [|split]]].
  - intros s. rewrite filter_In, Vertex.eqb_eq. reflexivity.
  - f_equal. apply filter_all. intros s Hs.
    apply filter_In in Hs. tauto.
  - intros Hne. apply filter_none. intros s Hs.
    apply filter_In in Hs. destruct Hs as [_ Hs]. apply Vertex.eqb_eq in Hs.
    apply not_true_is_false. rewrite Vertex.eqb_eq. congruence.
  - f_equal. rewrite !filter_filter. apply filter_ext. intros s.
    apply andb_comm.
  - f_equal. rewrite filter_filter. apply filter_ext. intros s.
    destruct (Z.eqb_spec (Query.source s) h) as [->|Hne].
    + rewrite andb_true_r. now apply Vertex.eqb_eq.
    + apply andb_false_r.
Qed.

Context {SC : Type} `{Connection SC}.

Lemma sectorsOf_each (fuel : nat) (surface : Flat.FlatTriangulation)
    (l : list Query.Sector) (b e : SC) (l' : list Query.Sector) :
  Query.sectorsOf fuel surface l b e = Some (Ok l') ->
  forall s, In s l ->
    exists ls, Query.sectorOf fuel surface s b e = Some (Ok ls)
               /\ forall r, In r ls -> In r l'.
Proof.
  revert l'. induction l as [|s0 l IH]; simpl; intros l' Hall s Hs;
    [contradiction|].
  destruct (Query.sectorOf fuel surface s0 b e) as [[refined_|err]|] eqn:Hof;
    try discriminate.
  destruct (Query.sectorsOf fuel surface l b e) as [[rest|err]|] eqn:Hrest;
    try discriminate.
  injection Hall as <-. destruct Hs as [<-|Hs].
  - exists refined_. split; [exact Hof|]. intros r Hr.
    apply in_or_app. now left.
  - destruct (IH rest eq_refl s Hs) as (ls & Hls & Hin).
    exists ls. split; [exact Hls|]. intros r Hr.
    apply in_or_app. right. now apply Hin.
Qed.

(** X19: for two saddle connections that start at the same half edge, the
    second clockwise of the first, the sector from the first to the second
    spans more than a half turn: when [sector(sectorBegin, sectorEnd)]
    returns, all other sectors of the query at that vertex are kept as they
    are. *)
Theorem Query_sectorConnections_wide (fuel : nat)
    (q q' : Query.SaddleConnections) (sectorBegin sectorEnd : SC)
    (s : Query.Sector) :
  let c := Flat.combinatorial (Query.surface q) in
  Conn.source sectorBegin = Conn.source sectorEnd ->
  Vec.ccw (vector sectorBegin) (vector sectorEnd) = Vec.CLOCKWISE ->
  Query.sectorConnections fuel q sectorBegin sectorEnd = Some (Ok q') ->
  In s (Query.sectors q) ->
  Vertex.source (Query.source s) c
  = Vertex.source (Conn.source sectorBegin) c ->
  Query.source s <> Conn.source sectorBegin ->
  In s (Query.sectors q').
Proof.
  intros c Hsame Hccw Hq Hs Hv Hne.
  unfold Query.sectorConnections in Hq. fold c in Hq.
  destruct (Query.sectorsOf fuel _ _ _ _) as [[l|err]|] eqn:Hall;
    try discriminate.
  simpl in Hq. injection Hq as <-. simpl.
  assert (Hin : In s (Query.sectors
                        (Query.sourceAt
                           (Query.sourceAt q
                              (Vertex.source (Conn.source sectorBegin) c))
                           (Vertex.source (Conn.source sectorEnd) c)))).
  { unfold Query.sourceAt. simpl. fold c. rewrite <- Hsame.
    apply filter_In. split; [|now apply Vertex.eqb_eq].
    apply filter_In. split; [exact Hs | now apply Vertex.eqb_eq]. }
  destruct (sectorsOf_each _ _ _ _ _ Hall s Hin) as (ls & Hof & Hincl).
  apply Hincl. unfold Query.sectorOf in Hof.
  rewrite <- Hsame, Z.eqb_refl in Hof.
  apply Z.eqb_neq in Hne. rewrite Hne, Hccw in Hof. simpl in Hof.
  injection Hof as <-. now left.
Qed.

End AtVertex.

(** On the square torus, from the connection [(2,1)] in the corner at the
    half edge [1] all the way round to the edge [1] itself: the corner at
    [-3] is kept. *)
Lemma Query_sectorConnections_wide_witness :
  exists q',
    Query.sectorConnections (H := orbitVertices) (H0 := connectionsOf torus)
      0 (Query.all flatTorus) (Triple.SC 1 (- 3) (V 2 1))
      (Triple.SC 1 (- 1) (V 1 0))
    = Some (Ok q')
    /\ In (Query.mkSector (- 3) None) (Query.sectors q').
Proof.
  eexists. split; [reflexivity|].
  apply (@Query_sectorConnections_wide orbitVertices _ (connectionsOf torus)
           0 (Query.all flatTorus) _ (Triple.SC 1 (- 3) (V 2 1))
           (Triple.SC 1 (- 1) (V 1 0)) (Query.mkSector (- 3) None)).
  - reflexivity.
  - reflexivity.
  - reflexivity.
  - simpl. tauto.
  - reflexivity.
  - discriminate.
Defined.


(** ** The query builder: refinement is intersection

    In the coordinates [(x, y) = (cross u s2, cross s1 u)] that the
    boundaries [s1] and [s2] of a sector of less than a half turn give to a
    vector [u], the sector is the quadrant [0 < x], [0 <= y].  The branches
    of [refine] are first settled for such coordinates. *)

Unset Implicit Arguments.

Lemma sgn_nonneg a b : 0 < a -> 0 <= a * b -> 0 <= b.
Proof. nia. Qed.
Lemma sgn_pos a b : 0 < a -> 0 < a * b -> 0 < b.
Proof. nia. Qed.
Lemma mul_pos_r a b : 0 <= b -> 0 < a * b -> 0 < a.
Proof. nia. Qed.
Lemma neg_prod a b : a * b < 0 -> 0 <= a -> 0 < a /\ b < 0.
Proof.
  intros Hab Ha. assert (a <> 0) by (intros ->; lia). split; [lia|nia].
Qed.
Lemma pos_prod a b : 0 < a * b -> 0 <= a -> 0 < a /\ 0 < b.
Proof.
  intros Hab Ha. assert (a <> 0) by (intros ->; lia). split; [lia|nia].
Qed.

(** A vector between [b] and the second boundary lies on the side of the
    first boundary on which [b] lies. *)
Lemma core_sub_b xb yb xv yv :
  0 < xb -> 0 <= yb -> 0 <= crossIn xb yb xv yv -> 0 < xv -> 0 <= yv.
Proof.
  unfold crossIn. intros Hxb Hyb Hc Hxv.
  apply (sgn_nonneg xb); [lia|]. assert (0 <= yb * xv) by nia. lia.
Qed.

(** A vector between the first boundary and [e] lies on the side of the
    second boundary on which [e] lies. *)
Lemma core_sub_e xe ye xv yv :
  0 < xe -> 0 < ye -> 0 <= yv -> 0 < crossIn xv yv xe ye -> 0 < xv.
Proof.
  unfold crossIn. intros Hxe Hye Hyv Hc.
  apply (sgn_pos ye); [lia|]. assert (0 <= yv * xe) by nia. lia.
Qed.

Lemma core_both xb yb xe ye xv yv :
  0 < xb -> 0 <= yb -> crossIn xb yb xe ye < 0 -> 0 < ye ->
  ((0 <= crossIn xb yb xv yv /\ 0 < xv) \/ (0 <= yv /\ 0 < crossIn xv yv xe ye))
  <-> ((0 <= yv /\ 0 < xv) /\ (0 <= crossIn xb yb xv yv \/ 0 < crossIn xv yv xe ye)).
Proof.
  intros Hxb Hyb Hbe Hye.
  assert (Hxe : 0 < xe).
  { unfold crossIn in Hbe. assert (H0 : 0 <= xb * ye) by nia.
    assert (H1 : 0 < yb * xe) by lia.
    now destruct (pos_prod yb xe H1 Hyb). }
  split.
  - intros [[H3 H4]|[H3 H4]].
    + split; [split; [|lia]|left; lia]. apply (core_sub_b xb yb xv yv); assumption.
    + split; [split; [lia|]|right; lia]. apply (core_sub_e xe ye xv yv); assumption.
  - intros [[H3 H4] [H5|H5]]; [left|right]; split; lia.
Qed.

Lemma core_fromBegin xb yb xe ye xv yv :
  0 < xb -> 0 <= yb -> crossIn xb yb xe ye < 0 -> ye <= 0 ->
  (0 <= crossIn xb yb xv yv /\ 0 < xv)
  <-> ((0 <= yv /\ 0 < xv) /\ (0 <= crossIn xb yb xv yv \/ 0 < crossIn xv yv xe ye)).
Proof.
  intros Hxb Hyb Hbe Hye. split.
  - intros [H3 H4]. split; [split; [|lia]|left; lia].
    apply (core_sub_b xb yb xv yv); assumption.
  - intros [[H3 H4] [H5|H5]]; split; try lia.
    unfold crossIn in *.
    assert (H1 : xv * ye <= 0) by (clear - H4 Hye; nia).
    assert (H2 : yv * xe < 0) by lia.
    destruct (neg_prod yv xe H2 H3) as [Hyv Hxe].
    assert (H6 : xb * (xv * ye) < (yb * xe) * xv) by (clear - Hbe H4; nia).
    assert (H7 : xb * (yv * xe) < xb * (xv * ye)) by (clear - H5 Hxb; nia).
    assert (H8 : (xb * yv - yb * xv) * xe < 0) by lia.
    clear - H8 Hxe. nia.
Qed.

Lemma core_inside xb yb xe ye xv yv :
  0 < xb -> 0 <= yb -> 0 < xe -> 0 <= ye -> 0 < crossIn xb yb xe ye ->
  0 <= crossIn xb yb xv yv -> 0 < crossIn xv yv xe ye -> 0 <= yv /\ 0 < xv.
Proof.
  intros Hxb Hyb Hxe Hye Hbe Hbv Hve. unfold crossIn in *.
  assert (Hye' : 0 < ye) by nia.
  assert (Hid : (xb * ye - yb * xe) * xv
                = (xv * ye - yv * xe) * xb + (xb * yv - yb * xv) * xe) by ring.
  assert (Hxv : 0 < xv) by nia.
  split; [|exact Hxv].
  apply (sgn_nonneg xb); [lia|]. assert (0 <= yb * xv) by nia. lia.
Qed.

(** [cross b e * v = cross v e * b + cross b v * e], by coordinates. *)
Lemma crossIn_x xb yb xe ye xv yv :
  crossIn xb yb xe ye * xv = crossIn xv yv xe ye * xb + crossIn xb yb xv yv * xe.
Proof. unfold crossIn. ring. Qed.
Lemma crossIn_y xb yb xe ye xv yv :
  crossIn xb yb xe ye * yv = crossIn xv yv xe ye * yb + crossIn xb yb xv yv * ye.
Proof. unfold crossIn. ring. Qed.

Lemma core_upTo xb yb xe ye xv yv :
  0 < xb -> 0 <= yb -> ~ (0 <= ye /\ 0 < xe) -> 0 < crossIn xb yb xe ye ->
  (0 <= crossIn xb yb xv yv /\ 0 < xv)
  <-> ((0 <= yv /\ 0 < xv) /\ 0 <= crossIn xb yb xv yv /\ 0 < crossIn xv yv xe ye).
Proof.
  intros Hxb Hyb HeS Hbe. split; [|tauto].
  intros [Hbv Hxv].
  split; [split; [|exact Hxv]|split; [exact Hbv|]].
  - apply (core_sub_b xb yb xv yv); assumption.
  - assert (Hxe : xe <= 0).
    { destruct (Z_lt_le_dec 0 xe) as [Hpos|]; [exfalso|assumption].
      assert (Hye : ye < 0) by lia.
      unfold crossIn in Hbe.
      assert (xb * ye < 0) by nia. assert (0 <= yb * xe) by nia. lia. }
    pose proof (crossIn_x xb yb xe ye xv yv) as Hid.
    assert (H1 : 0 < crossIn xb yb xe ye * xv) by nia.
    assert (H2 : crossIn xb yb xv yv * xe <= 0) by nia.
    assert (H3 : 0 < crossIn xv yv xe ye * xb) by lia.
    clear - H3 Hxb. nia.
Qed.

Lemma core_toEnd_ccw xb yb xe ye xv yv :
  ~ (0 <= yb /\ 0 < xb) -> 0 < xe -> 0 < ye -> 0 < crossIn xb yb xe ye ->
  (0 <= yv /\ 0 < crossIn xv yv xe ye)
  <-> ((0 <= yv /\ 0 < xv) /\ 0 <= crossIn xb yb xv yv /\ 0 < crossIn xv yv xe ye).
Proof.
  intros HbS Hxe Hye Hbe. split; [|tauto].
  intros [Hyv Hve].
  assert (Hxv : 0 < xv) by (apply (core_sub_e xe ye xv yv); assumption).
  split; [split; assumption|split; [|exact Hve]].
  assert (Hyb : yb <= 0).
  { destruct (Z_lt_le_dec 0 yb) as [Hpos|]; [exfalso|assumption].
    assert (Hxb : xb <= 0) by lia.
    unfold crossIn in Hbe.
    assert (xb * ye <= 0) by nia. assert (0 < yb * xe) by nia. lia. }
  pose proof (crossIn_y xb yb xe ye xv yv) as Hid.
  assert (H1 : 0 <= crossIn xb yb xe ye * yv) by nia.
  assert (H2 : crossIn xv yv xe ye * yb <= 0) by nia.
  assert (H3 : 0 <= crossIn xb yb xv yv * ye) by lia.
  clear - H3 Hye. nia.
Qed.

Lemma core_toEnd_cw xb yb xe ye xv yv :
  ~ (0 <= yb /\ 0 < xb) -> 0 < xe -> 0 < ye -> crossIn xb yb xe ye < 0 ->
  (0 <= yv /\ 0 < crossIn xv yv xe ye)
  <-> ((0 <= yv /\ 0 < xv) /\ (0 <= crossIn xb yb xv yv \/ 0 < crossIn xv yv xe ye)).
Proof.
  intros HbS Hxe Hye Hbe. split.
  - intros [Hyv Hve].
    assert (Hxv : 0 < xv) by (apply (core_sub_e xe ye xv yv); assumption).
    tauto.
  - intros [[Hyv Hxv] [Hbv|Hve]]; [|tauto].
    split; [exact Hyv|].
    destruct (Z_lt_le_dec 0 (crossIn xv yv xe ye)) as [|Hve]; [assumption|exfalso].
    pose proof (crossIn_x xb yb xe ye xv yv) as Hidx.
    pose proof (crossIn_y xb yb xe ye xv yv) as Hidy.
    assert (H1 : crossIn xb yb xe ye * xv < 0) by nia.
    assert (H2 : 0 <= crossIn xb yb xv yv * xe) by nia.
    assert (H3 : crossIn xv yv xe ye * xb < 0) by lia.
    assert (Hxb : 0 < xb) by (clear - H3 Hve; nia).
    assert (Hve' : crossIn xv yv xe ye < 0) by (clear - H3 Hxb; nia).
    assert (Hyb : yb < 0) by lia.
    assert (H4 : 0 < crossIn xv yv xe ye * yb) by (clear - Hve' Hyb; nia).
    assert (H5 : 0 <= crossIn xb yb xv yv * ye) by nia.
    assert (H6 : crossIn xb yb xe ye * yv <= 0) by (clear - Hbe Hyv; nia).
    lia.
Qed.

Lemma core_unchanged_ccw xb yb xe ye xv yv :
  (~ (0 <= ye /\ 0 < xe) \/ ye = 0) -> yb <= 0 -> 0 < ye ->
  0 < crossIn xb yb xe ye ->
  0 <= yv -> 0 < xv ->
  0 <= crossIn xb yb xv yv /\ 0 < crossIn xv yv xe ye.
Proof.
  intros HeS Hyb Hye Hbe Hyv Hxv.
  assert (Hxe : xe <= 0) by lia.
  assert (Hxb : 0 <= xb).
  { destruct (Z_lt_le_dec xb 0) as [Hneg|]; [exfalso|assumption].
    unfold crossIn in Hbe.
    assert (xb * ye < 0) by nia. assert (0 <= yb * xe) by nia. lia. }
  unfold crossIn. split.
  - assert (0 <= xb * yv) by nia. assert (yb * xv <= 0) by nia. lia.
  - assert (0 < xv * ye) by nia. assert (yv * xe <= 0) by nia. lia.
Qed.

Lemma core_none_ccw xb yb xe ye xv yv :
  ~ (0 <= yb /\ 0 < xb) -> ~ (yb <= 0 /\ 0 < ye) ->
  0 < crossIn xb yb xe ye ->
  ~ ((0 <= yv /\ 0 < xv) /\ 0 <= crossIn xb yb xv yv /\ 0 < crossIn xv yv xe ye).
Proof.
  intros HbS Hs1 Hbe [[Hyv Hxv] [Hbv Hve]].
  destruct (Z_lt_le_dec 0 yb) as [Hyb|Hyb].
  - assert (Hxb : xb <= 0) by lia. unfold crossIn in Hbv.
    assert (xb * yv <= 0) by nia. assert (0 < yb * xv) by nia. lia.
  - assert (Hye : ye <= 0) by lia.
    unfold crossIn in Hve.
    assert (H1 : xv * ye <= 0) by nia.
    assert (H2 : yv * xe < 0) by lia.
    destruct (neg_prod yv xe H2 Hyv) as [Hyv' Hxe].
    pose proof (crossIn_x xb yb xe ye xv yv) as Hid.
    fold (crossIn xv yv xe ye) in Hve.
    unfold crossIn in Hbe.
    assert (H3 : 0 <= yb * xe) by nia.
    assert (H4 : 0 < xb * ye) by lia.
    assert (Hxb : xb < 0).
    { destruct (Z_lt_le_dec xb 0); [assumption|exfalso].
      assert (xb * ye <= 0) by nia. lia. }
    fold (crossIn xb yb xe ye) in Hbe.
    assert (H5 : 0 < crossIn xb yb xe ye * xv) by nia.
    assert (H6 : crossIn xv yv xe ye * xb < 0) by nia.
    assert (H7 : crossIn xb yb xv yv * xe <= 0) by nia.
    lia.
Qed.

Lemma core_unchanged_cw xb yb xe ye xv yv :
  (~ (0 <= ye /\ 0 < xe) \/ ye = 0 /\ 0 < xe) -> (yb <= 0 \/ 0 < ye) ->
  crossIn xb yb xe ye < 0 ->
  0 <= yv -> 0 < xv ->
  0 <= crossIn xb yb xv yv \/ 0 < crossIn xv yv xe ye.
Proof.
  intros HeS Hs1 Hbe Hyv Hxv.
  destruct (Z_lt_le_dec 0 ye) as [Hye|Hye].
  - right. assert (Hxe : xe <= 0) by lia. unfold crossIn.
    assert (0 < xv * ye) by nia. assert (yv * xe <= 0) by nia. lia.
  - assert (Hyb : yb <= 0) by lia.
    destruct (Z_lt_le_dec (crossIn xb yb xv yv) 0) as [Hbv|]; [|now left].
    right.
    destruct (Z_lt_le_dec 0 (crossIn xv yv xe ye)) as [|Hve]; [assumption|exfalso].
    assert (H1 : xb * yv < 0).
    { unfold crossIn in Hbv. assert (yb * xv <= 0) by nia. lia. }
    assert (Hyv' : 0 < yv /\ xb < 0).
    { rewrite Z.mul_comm in H1. exact (neg_prod yv xb H1 Hyv). }
    destruct Hyv' as [Hyv' Hxb].
    destruct (Z.eq_dec ye 0) as [->|Hne].
    + unfold crossIn in Hve, Hbe.
      assert (Hxe : 0 <= xe) by nia.
      assert (H2 : 0 < yb * xe) by lia.
      assert (0 <= - yb) by lia.
      assert (yb * xe <= 0) by nia. lia.
    + assert (Hye' : ye < 0) by lia.
      pose proof (crossIn_y xb yb xe ye xv yv) as Hid.
      assert (H2 : crossIn xb yb xe ye * yv < 0) by nia.
      assert (H3 : 0 <= crossIn xv yv xe ye * yb) by nia.
      assert (H4 : 0 < crossIn xb yb xv yv * ye) by nia.
      lia.
Qed.

Lemma core_none_cw xb yb xe ye xv yv :
  ~ (0 <= yb /\ 0 < xb) -> ~ (yb <= 0 \/ 0 < ye) ->
  crossIn xb yb xe ye < 0 ->
  ~ ((0 <= yv /\ 0 < xv) /\ (0 <= crossIn xb yb xv yv \/ 0 < crossIn xv yv xe ye)).
Proof.
  intros HbS Hs1 Hbe [[Hyv Hxv] Hin].
  assert (Hyb : 0 < yb) by lia. assert (Hye : ye <= 0) by lia.
  assert (Hxb : xb <= 0) by lia.
  destruct Hin as [Hbv|Hve].
  - unfold crossIn in Hbv.
    assert (xb * yv <= 0) by nia. assert (0 < yb * xv) by nia. lia.
  - unfold crossIn in Hve, Hbe.
    assert (H1 : xv * ye <= 0) by nia.
    assert (H2 : yv * xe < 0) by lia.
    destruct (neg_prod yv xe H2 Hyv) as [Hyv' Hxe].
    assert (0 <= xb * ye) by nia. assert (yb * xe < 0) by nia. lia.
Qed.

(** The two sectors of the branch "both" have no vector in common. *)
Lemma core_disjoint xb yb xe ye xv yv :
  0 < xb -> 0 <= yb -> crossIn xb yb xe ye < 0 -> 0 < ye ->
  0 <= crossIn xb yb xv yv -> 0 < xv ->
  0 <= yv -> 0 < crossIn xv yv xe ye -> False.
Proof.
  intros Hxb Hyb Hbe Hye Hbv Hxv Hyv Hve.
  assert (Hxe : 0 < xe).
  { unfold crossIn in Hbe. assert (H0 : 0 <= xb * ye) by nia.
    assert (H1 : 0 < yb * xe) by lia.
    now destruct (pos_prod yb xe H1 Hyb). }
  pose proof (crossIn_x xb yb xe ye xv yv) as Hid.
  assert (H1 : crossIn xb yb xe ye * xv < 0) by nia.
  assert (H2 : 0 < crossIn xv yv xe ye * xb) by nia.
  assert (H3 : 0 <= crossIn xb yb xv yv * xe) by nia.
  lia.
Qed.

(** The cases in which [b] and [e] are opposite. *)
Lemma core_col_inside P Q xb xe :
  0 < P -> P * xe = Q * xb -> 0 < xb -> 0 < xe -> 0 < Q.
Proof. intros HP Hx Hxb Hxe. nia. Qed.

Lemma core_col_upTo P dbv xb yb xv yv :
  0 < P -> (crossIn xb yb xv yv = 0 -> P * xv = dbv * xb) ->
  0 < xb -> 0 <= yb ->
  (0 <= crossIn xb yb xv yv /\ 0 < xv)
  <-> ((0 <= yv /\ 0 < xv)
       /\ (0 < crossIn xb yb xv yv
           \/ (crossIn xb yb xv yv = 0 /\ 0 < dbv))).
Proof.
  intros HP Hid Hxb Hyb. split.
  - intros [Hbv Hxv].
    split; [split; [|exact Hxv]|].
    + apply (core_sub_b xb yb xv yv); assumption.
    + destruct (Z.eq_dec (crossIn xb yb xv yv) 0) as [Hz|Hnz]; [right|left; lia].
      split; [exact Hz|]. specialize (Hid Hz).
      assert (H1 : 0 < dbv * xb) by nia.
      rewrite Z.mul_comm in H1.
      now destruct (pos_prod xb dbv H1 (Z.lt_le_incl _ _ Hxb)).
  - intros [[Hyv Hxv] [Hbv|[Hbv _]]]; split; lia.
Qed.

Lemma core_col_toEnd P Q dbv xb yb xe ye xv yv :
  0 < P -> Q < 0 -> P * xe = Q * xb -> P * ye = Q * yb ->
  (crossIn xb yb xv yv = 0 -> P * xv = dbv * xb) ->
  0 < xe -> 0 < ye ->
  (0 <= yv /\ 0 < crossIn xv yv xe ye)
  <-> ((0 <= yv /\ 0 < xv)
       /\ (0 < crossIn xb yb xv yv
           \/ (crossIn xb yb xv yv = 0 /\ 0 < dbv))).
Proof.
  intros HP HQ Hx Hy Hid Hxe Hye.
  assert (Hrel : P * crossIn xv yv xe ye = - Q * crossIn xb yb xv yv).
  { unfold crossIn.
    replace (P * (xv * ye - yv * xe)) with (xv * (P * ye) - yv * (P * xe))
      by ring.
    rewrite Hx, Hy. ring. }
  assert (Hxb : xb < 0) by nia.
  split.
  - intros [Hyv Hve].
    assert (Hxv : 0 < xv) by (apply (core_sub_e xe ye xv yv); assumption).
    split; [split; assumption|]. left.
    assert (H1 : 0 < P * crossIn xv yv xe ye) by nia.
    assert (H2 : 0 < - Q * crossIn xb yb xv yv) by lia.
    clear - H2 HQ. nia.
  - intros [[Hyv Hxv] [Hbv|[Hbv Hd]]].
    + split; [exact Hyv|].
      assert (H1 : 0 < - Q * crossIn xb yb xv yv) by nia.
      assert (H2 : 0 < P * crossIn xv yv xe ye) by lia.
      clear - H2 HP. nia.
    + exfalso. specialize (Hid Hbv).
      assert (0 < P * xv) by nia. assert (dbv * xb < 0) by nia. lia.
Qed.

Lemma core_col_unchanged P Q xb yb xe ye xv yv :
  0 < P -> Q < 0 -> P * xe = Q * xb -> P * ye = Q * yb ->
  (~ (0 <= ye /\ 0 < xe) \/ ye = 0) -> yb < 0 ->
  0 <= yv -> 0 < xv ->
  0 < crossIn xb yb xv yv.
Proof.
  intros HP HQ Hx Hy HeS Hyb Hyv Hxv.
  assert (Hye : 0 < ye) by nia.
  assert (Hxe : xe <= 0) by lia.
  assert (Hxb : 0 <= xb) by nia.
  unfold crossIn.
  assert (0 <= xb * yv) by nia. assert (yb * xv < 0) by nia. lia.
Qed.

Lemma core_col_none P dbv xb yb xv yv :
  0 < P -> (crossIn xb yb xv yv = 0 -> P * xv = dbv * xb) ->
  ~ (0 <= yb /\ 0 < xb) -> 0 <= yb ->
  0 <= yv -> 0 < xv ->
  ~ (0 < crossIn xb yb xv yv
     \/ (crossIn xb yb xv yv = 0 /\ 0 < dbv)).
Proof.
  intros HP Hid HbS Hyb Hyv Hxv [Hbv|[Hbv Hd]].
  - assert (Hxb : xb <= 0) by lia. unfold crossIn in Hbv.
    assert (xb * yv <= 0) by nia. assert (0 <= yb * xv) by nia. lia.
  - specialize (Hid Hbv). assert (Hxb : xb <= 0) by lia.
    assert (0 < P * xv) by nia. assert (dbv * xb <= 0) by nia. lia.
Qed.



(** [inSector] by the signs it compares. *)
Lemma inSector_cw (v b e : Vector) :
  Vec.ccw b e = Vec.CLOCKWISE ->
  (Vec.inSectorNonzero v b e = true
   <-> 0 <= Vec.cross b v \/ 0 < Vec.cross v e).
Proof.
  intros Hbe. unfold Vec.inSectorNonzero. rewrite Hbe.
  signs; split; intros Hv; try discriminate; try reflexivity; lia.
Qed.

Lemma inSector_opposite (v b e : Vector) :
  Vec.ccw b e = Vec.COLLINEAR -> Vec.orientation b e = Vec.OPPOSITE ->
  (Vec.inSectorNonzero v b e = true
   <-> 0 < Vec.cross b v \/ (Vec.cross b v = 0 /\ 0 < Vec.dot b v)).
Proof.
  intros Hbe Hor. unfold Vec.inSectorNonzero. rewrite Hbe, Hor.
  rewrite orb_true_iff, Vec_onRay_spec, CCW_eqb_eq.
  pose proof (Vec_ccw_spec b v) as Hs.
  destruct (Vec.ccw b v); split; intros [Hv|Hv]; try discriminate;
    try lia; auto.
Qed.

Lemma inSector_same (v b e : Vector) :
  Vec.ccw b e = Vec.COLLINEAR -> Vec.orientation b e <> Vec.OPPOSITE ->
  Vec.inSectorNonzero v b e = Vec.onRay v b.
Proof.
  intros Hbe Hor. unfold Vec.inSectorNonzero. rewrite Hbe.
  destruct (Vec.orientation b e); congruence.
Qed.

Lemma ccw_positive (u w : Vector) :
  0 < Vec.cross u w -> Vec.ccw u w = Vec.COUNTERCLOCKWISE.
Proof.
  intros Hc. pose proof (Vec_ccw_spec u w) as Hs.
  destruct (Vec.ccw u w); [reflexivity | exfalso; lia | exfalso; lia].
Qed.

(** Two vectors other than zero on one line have the same direction or
    opposite directions. *)
Lemma collinear_orientation (b e : Vector) :
  Vec.nonzero b = true -> Vec.nonzero e = true ->
  Vec.cross b e = 0 ->
  Vec.orientation b e <> Vec.ORTHOGONAL.
Proof.
  intros Hb He Hc Hor.
  apply Vec_nonzero_dot in Hb. apply Vec_nonzero_dot in He.
  pose proof (Vec_dot_via b e e) as Hid. rewrite Hc in Hid.
  pose proof (Vec_orientation_spec b e) as Hs. rewrite Hor in Hs.
  rewrite Hs in Hid. nia.
Qed.

Section Frame.

Variables s1 s2 : Vector.

Hypothesis Hnarrow : Vec.ccw s1 s2 = Vec.COUNTERCLOCKWISE.

Local Abbreviation X u := (Vec.cross u s2).
Local Abbreviation Y u := (Vec.cross s1 u).

Lemma frame_positive : 0 < Vec.cross s1 s2.
Proof.
  pose proof (Vec_ccw_spec s1 s2) as Hs. now rewrite Hnarrow in Hs.
Qed.

Lemma frame (u w : Vector) :
  Vec.cross s1 s2 * Vec.cross u w = crossIn (X u) (Y u) (X w) (Y w).
Proof. unfold crossIn, Vec.cross. ring. Qed.

Lemma frame_nonneg (u w : Vector) :
  0 <= Vec.cross u w <-> 0 <= crossIn (X u) (Y u) (X w) (Y w).
Proof. pose proof frame_positive. pose proof (frame u w). nia. Qed.

Lemma frame_pos (u w : Vector) :
  0 < Vec.cross u w <-> 0 < crossIn (X u) (Y u) (X w) (Y w).
Proof. pose proof frame_positive. pose proof (frame u w). nia. Qed.

Lemma frame_neg (u w : Vector) :
  Vec.cross u w < 0 <-> crossIn (X u) (Y u) (X w) (Y w) < 0.
Proof. pose proof frame_positive. pose proof (frame u w). nia. Qed.

Lemma frame_zero (u w : Vector) :
  Vec.cross u w = 0 <-> crossIn (X u) (Y u) (X w) (Y w) = 0.
Proof. pose proof frame_positive. pose proof (frame u w). nia. Qed.

Lemma in_frame (v : Vector) :
  Vec.inSectorNonzero v s1 s2 = true <-> 0 <= Y v /\ 0 < X v.
Proof. exact (@Vec_inSector_narrow s1 s2 v Hnarrow). Qed.

Lemma out_frame (v : Vector) :
  Vec.inSectorNonzero v s1 s2 = false <-> ~ (0 <= Y v /\ 0 < X v).
Proof. rewrite <- in_frame. symmetry. apply not_true_iff_false. Qed.

(** The sector from a vector of the sector to its second boundary, and the
    sector from its first boundary to a vector inside. *)
Lemma arc_from (b v : Vector) :
  Vec.inSectorNonzero b s1 s2 = true ->
  (Vec.inSectorNonzero v b s2 = true
   <-> 0 <= crossIn (X b) (Y b) (X v) (Y v) /\ 0 < X v).
Proof.
  intros HbS. apply in_frame in HbS.
  rewrite (@Vec_inSector_narrow b s2 v) by (apply ccw_positive; tauto).
  now rewrite frame_nonneg.
Qed.

Lemma arc_to (e v : Vector) :
  0 < Y e ->
  (Vec.inSectorNonzero v s1 e = true
   <-> 0 <= Y v /\ 0 < crossIn (X v) (Y v) (X e) (Y e)).
Proof.
  intros Hye.
  rewrite (@Vec_inSector_narrow s1 e v) by now apply ccw_positive.
  now rewrite frame_pos.
Qed.

(** The interval from [b] to [e] when it spans more than a half turn, and
    when it spans less. *)
Lemma arc_wide (b e v : Vector) :
  Vec.ccw b e = Vec.CLOCKWISE ->
  (Vec.inSectorNonzero v b e = true
   <-> 0 <= crossIn (X b) (Y b) (X v) (Y v)
       \/ 0 < crossIn (X v) (Y v) (X e) (Y e)).
Proof.
  intros Hbe. rewrite (@inSector_cw v b e Hbe).
  now rewrite frame_nonneg, frame_pos.
Qed.

Lemma arc_narrow (b e v : Vector) :
  Vec.ccw b e = Vec.COUNTERCLOCKWISE ->
  (Vec.inSectorNonzero v b e = true
   <-> 0 <= crossIn (X b) (Y b) (X v) (Y v)
       /\ 0 < crossIn (X v) (Y v) (X e) (Y e)).
Proof.
  intros Hbe. rewrite (@Vec_inSector_narrow b e v Hbe).
  now rewrite frame_nonneg, frame_pos.
Qed.

Lemma ccw_frame (b e : Vector) :
  match Vec.ccw b e with
  | Vec.COUNTERCLOCKWISE => 0 < crossIn (X b) (Y b) (X e) (Y e)
  | Vec.CLOCKWISE => crossIn (X b) (Y b) (X e) (Y e) < 0
  | Vec.COLLINEAR => crossIn (X b) (Y b) (X e) (Y e) = 0
  end.
Proof.
  pose proof (Vec_ccw_spec b e) as Hs.
  destruct (Vec.ccw b e);
    [now apply frame_pos | now apply frame_neg | now apply frame_zero].
Qed.

(** Branch "both". *)
Lemma arc_both (b e v : Vector) :
  Vec.inSectorNonzero b s1 s2 = true ->
  Vec.ccw b e = Vec.CLOCKWISE ->
  Vec.ccw s1 e = Vec.COUNTERCLOCKWISE ->
  (Vec.inSectorNonzero v b s2 = true \/ Vec.inSectorNonzero v s1 e = true)
  <-> (Vec.inSectorNonzero v s1 s2 = true
       /\ Vec.inSectorNonzero v b e = true).
Proof.
  intros HbS Hbe H1e.
  assert (Hye : 0 < Y e).
  { pose proof (Vec_ccw_spec s1 e) as Hs. now rewrite H1e in Hs. }
  rewrite (@arc_from b v HbS), (@arc_to e v Hye), in_frame,
    (@arc_wide b e v Hbe).
  apply in_frame in HbS.
  pose proof (ccw_frame b e) as Hc. rewrite Hbe in Hc.
  apply core_both; tauto.
Qed.

(** Branch "from begin". *)
Lemma arc_fromBegin (b e v : Vector) :
  Vec.inSectorNonzero b s1 s2 = true ->
  Vec.ccw b e = Vec.CLOCKWISE ->
  Vec.ccw s1 e <> Vec.COUNTERCLOCKWISE ->
  Vec.inSectorNonzero v b s2 = true
  <-> (Vec.inSectorNonzero v s1 s2 = true
       /\ Vec.inSectorNonzero v b e = true).
Proof.
  intros HbS Hbe H1e.
  assert (Hye : Y e <= 0).
  { pose proof (Vec_ccw_spec s1 e) as Hs.
    destruct (Vec.ccw s1 e); [congruence | lia | lia]. }
  rewrite (@arc_from b v HbS), in_frame, (@arc_wide b e v Hbe).
  apply in_frame in HbS.
  pose proof (ccw_frame b e) as Hc. rewrite Hbe in Hc.
  apply core_fromBegin; tauto.
Qed.

(** Vectors on one line, in the coordinates. *)
Lemma collinear_frame (b e : Vector) :
  Vec.cross b e = 0 ->
  Vec.dot b b * X e = Vec.dot b e * X b
  /\ Vec.dot b b * Y e = Vec.dot b e * Y b.
Proof.
  intros Hc.
  pose proof (Vec_cross_via b e s2) as H2.
  pose proof (Vec_cross_via b e s1) as H1.
  rewrite Hc in H1, H2.
  rewrite (Vec_cross_antisym e s1), (Vec_cross_antisym b s1) in H1.
  split; lia.
Qed.

Lemma same_direction (b e : Vector) :
  Vec.ccw b e = Vec.COLLINEAR -> Vec.orientation b e = Vec.SAME ->
  Vec.onRay e b = true.
Proof.
  intros Hbe Hor. unfold Vec.onRay. now rewrite Hbe, Hor.
Qed.

Lemma opposite_direction (b e : Vector) :
  Vec.nonzero b = true ->
  Vec.ccw b e = Vec.COLLINEAR -> Vec.orientation b e = Vec.OPPOSITE ->
  0 < Vec.dot b b /\ Vec.dot b e < 0
  /\ Vec.dot b b * X e = Vec.dot b e * X b
  /\ Vec.dot b b * Y e = Vec.dot b e * Y b.
Proof.
  intros Hb Hbe Hor.
  split; [now apply Vec_nonzero_dot|]. split.
  - pose proof (Vec_orientation_spec b e) as Hs. now rewrite Hor in Hs.
  - apply collinear_frame.
    pose proof (Vec_ccw_spec b e) as Hs. now rewrite Hbe in Hs.
Qed.

(** The directions of two vectors on one line. *)
Lemma collinear_cases (b e : Vector) :
  Vec.nonzero b = true -> Vec.nonzero e = true ->
  Vec.ccw b e = Vec.COLLINEAR ->
  Vec.orientation b e = Vec.SAME \/ Vec.orientation b e = Vec.OPPOSITE.
Proof.
  intros Hb He Hbe.
  assert (Hc : Vec.cross b e = 0).
  { pose proof (Vec_ccw_spec b e) as Hs. now rewrite Hbe in Hs. }
  pose proof (collinear_orientation b e Hb He Hc) as Hor.
  destruct (Vec.orientation b e); [now left | now right | congruence].
Qed.

Lemma ray_frame (b v : Vector) :
  crossIn (X b) (Y b) (X v) (Y v) = 0 ->
  Vec.dot b b * X v = Vec.dot b v * X b.
Proof.
  intros Hz. apply frame_zero in Hz. now apply collinear_frame.
Qed.

(** Branch "inside". *)
Lemma arc_inside (b e v : Vector) :
  Vec.nonzero b = true -> Vec.nonzero e = true ->
  Vec.inSectorNonzero b s1 s2 = true ->
  Vec.inSectorNonzero e s1 s2 = true ->
  Vec.ccw b e <> Vec.CLOCKWISE ->
  Vec.inSectorNonzero v b e = true ->
  Vec.inSectorNonzero v s1 s2 = true.
Proof.
  intros Hb He HbS HeS Hbe Hv.
  pose proof HbS as HbS'. apply in_frame in HbS'.
  pose proof HeS as HeS'. apply in_frame in HeS'.
  pose proof (ccw_frame b e) as Hc.
  destruct (Vec.ccw b e) eqn:Hccw; [|congruence|].
  - apply (@arc_narrow b e v Hccw) in Hv. apply in_frame.
    apply (core_inside (X b) (Y b) (X e) (Y e)); tauto.
  - destruct (collinear_cases b e Hb He Hccw) as [Hor|Hor].
    + rewrite (@inSector_same v b e Hccw) in Hv by congruence.
      now rewrite (@Vec_onRay_inSector v b s1 s2 Hv).
    + exfalso.
      destruct (opposite_direction b e Hb Hccw Hor) as (HP & HQ & Hx & _).
      pose proof (core_col_inside _ _ _ _ HP Hx (proj2 HbS') (proj2 HeS')).
      lia.
Qed.

(** Branch "up to the second boundary". *)
Lemma arc_upTo (b e v : Vector) :
  Vec.nonzero b = true -> Vec.nonzero e = true ->
  Vec.inSectorNonzero b s1 s2 = true ->
  Vec.inSectorNonzero e s1 s2 = false ->
  Vec.ccw b e <> Vec.CLOCKWISE ->
  Vec.inSectorNonzero v b s2 = true
  <-> (Vec.inSectorNonzero v s1 s2 = true
       /\ Vec.inSectorNonzero v b e = true).
Proof.
  intros Hb He HbS HeS Hbe.
  pose proof HbS as HbS'. apply in_frame in HbS'.
  pose proof HeS as HeS'. apply out_frame in HeS'.
  pose proof (ccw_frame b e) as Hc.
  rewrite (@arc_from b v HbS), in_frame.
  destruct (Vec.ccw b e) eqn:Hccw; [|congruence|].
  - rewrite (@arc_narrow b e v Hccw).
    apply core_upTo; tauto.
  - destruct (collinear_cases b e Hb He Hccw) as [Hor|Hor].
    + exfalso. pose proof (same_direction b e Hccw Hor) as Hray.
      rewrite (@Vec_onRay_inSector e b s1 s2 Hray) in HeS. congruence.
    + rewrite (@inSector_opposite v b e Hccw Hor).
      rewrite (frame_pos b v), (frame_zero b v).
      apply core_col_upTo with (P := Vec.dot b b); try tauto.
      * now apply Vec_nonzero_dot.
      * apply ray_frame.
Qed.

Lemma strictly_inside (e : Vector) :
  Vec.nonzero s1 = true ->
  Vec.inSectorNonzero e s1 s2 = true -> Vec.onRay s1 e = false ->
  0 < Y e /\ 0 < X e.
Proof.
  intros Hs1 HeS Hray.
  pose proof (@Vec_inSector_strict s1 s2 e Hs1 Hnarrow HeS Hray) as H1e.
  pose proof (Vec_ccw_spec s1 e) as Hs. rewrite H1e in Hs.
  apply in_frame in HeS. tauto.
Qed.

(** Branch "to end". *)
Lemma arc_toEnd (b e v : Vector) :
  Vec.nonzero s1 = true -> Vec.nonzero b = true -> Vec.nonzero e = true ->
  Vec.inSectorNonzero b s1 s2 = false ->
  Vec.inSectorNonzero e s1 s2 = true -> Vec.onRay s1 e = false ->
  Vec.inSectorNonzero v s1 e = true
  <-> (Vec.inSectorNonzero v s1 s2 = true
       /\ Vec.inSectorNonzero v b e = true).
Proof.
  intros Hs1 Hb He HbS HeS Hray.
  destruct (strictly_inside e Hs1 HeS Hray) as [Hye Hxe].
  pose proof HbS as HbS'. apply out_frame in HbS'.
  pose proof (ccw_frame b e) as Hc.
  rewrite (@arc_to e v Hye), in_frame.
  destruct (Vec.ccw b e) eqn:Hccw.
  - rewrite (@arc_narrow b e v Hccw). apply core_toEnd_ccw; tauto.
  - rewrite (@arc_wide b e v Hccw). apply core_toEnd_cw; tauto.
  - destruct (collinear_cases b e Hb He Hccw) as [Hor|Hor].
    + exfalso. pose proof (same_direction b e Hccw Hor) as Hray'.
      rewrite Vec_onRay_sym in Hray'.
      rewrite (@Vec_onRay_inSector b e s1 s2 Hray') in HbS. congruence.
    + rewrite (@inSector_opposite v b e Hccw Hor).
      rewrite (frame_pos b v), (frame_zero b v).
      destruct (opposite_direction b e Hb Hccw Hor) as (HP & HQ & Hx & Hy).
      apply core_col_toEnd with (P := Vec.dot b b) (Q := Vec.dot b e);
        try tauto.
      apply ray_frame.
Qed.

(** What the test on [sectorEnd] leaves when it fails. *)
Lemma end_frame (e : Vector) :
  Vec.inSectorNonzero e s1 s2 && negb (Vec.onRay s1 e) = false ->
  ~ (0 <= Y e /\ 0 < X e) \/ (Y e = 0 /\ 0 < X e).
Proof.
  intros HeS. apply andb_false_iff in HeS. destruct HeS as [HeS|Hray].
  - left. now apply out_frame.
  - apply negb_false_iff in Hray.
    destruct (Vec.inSectorNonzero e s1 s2) eqn:HeS.
    + right. apply in_frame in HeS. apply Vec_onRay_spec in Hray.
      rewrite (Vec_cross_antisym e s1) in Hray. lia.
    + left. now apply out_frame.
Qed.

Lemma begin_outside (b : Vector) :
  Vec.nonzero s1 = true ->
  Vec.inSectorNonzero b s1 s2 = false -> Vec.onRay s1 b = false.
Proof.
  intros Hs1 HbS. destruct (Vec.onRay s1 b) eqn:Hray; [|reflexivity].
  rewrite <- (@Vec_onRay_inSector s1 b s1 s2 Hray) in HbS.
  rewrite (@Vec_inSector_begin s1 s2 Hs1) in HbS. discriminate.
Qed.

(** Branch "unchanged". *)
Lemma arc_unchanged (b e v : Vector) :
  Vec.nonzero s1 = true -> Vec.nonzero b = true -> Vec.nonzero e = true ->
  Vec.inSectorNonzero b s1 s2 = false ->
  Vec.inSectorNonzero e s1 s2 && negb (Vec.onRay s1 e) = false ->
  Vec.inSectorNonzero s1 b e = true ->
  Vec.inSectorNonzero v s1 s2 = true ->
  Vec.inSectorNonzero v b e = true.
Proof.
  intros Hs1 Hb He HbS HeS Hs1be Hv.
  pose proof (begin_outside b Hs1 HbS) as Hray.
  apply in_frame in Hv. apply end_frame in HeS.
  pose proof (ccw_frame b e) as Hc.
  destruct (Vec.ccw b e) eqn:Hccw.
  - apply (@Vec_inSector_narrow b e s1 Hccw) in Hs1be.
    rewrite (Vec_cross_antisym b s1) in Hs1be.
    apply (@arc_narrow b e v Hccw).
    apply core_unchanged_ccw; try tauto; lia.
  - apply (@inSector_cw s1 b e Hccw) in Hs1be.
    rewrite (Vec_cross_antisym b s1) in Hs1be.
    apply (@arc_wide b e v Hccw).
    apply core_unchanged_cw; try tauto; lia.
  - destruct (collinear_cases b e Hb He Hccw) as [Hor|Hor].
    + exfalso. rewrite (@inSector_same s1 b e Hccw) in Hs1be by congruence.
      congruence.
    + apply (@inSector_opposite s1 b e Hccw Hor) in Hs1be.
      destruct Hs1be as [Hs1be|Hs1be].
      * rewrite (Vec_cross_antisym b s1) in Hs1be.
        apply (@inSector_opposite v b e Hccw Hor). left.
        apply frame_pos.
        destruct (opposite_direction b e Hb Hccw Hor) as (HP & HQ & Hx & Hy).
        apply core_col_unchanged
          with (P := Vec.dot b b) (Q := Vec.dot b e) (xe := X e) (ye := Y e);
          try tauto; lia.
      * exfalso. apply Vec_onRay_spec in Hs1be. congruence.
Qed.

(** Branch "none". *)
Lemma arc_none (b e v : Vector) :
  Vec.nonzero s1 = true -> Vec.nonzero b = true -> Vec.nonzero e = true ->
  Vec.inSectorNonzero b s1 s2 = false ->
  Vec.inSectorNonzero s1 b e = false ->
  Vec.inSectorNonzero v s1 s2 = true ->
  Vec.inSectorNonzero v b e = false.
Proof.
  intros Hs1 Hb He HbS Hs1be Hv.
  apply not_true_is_false. intros Hin.
  pose proof HbS as HbS'. apply out_frame in HbS'.
  pose proof Hv as Hv'. apply in_frame in Hv'.
  pose proof (ccw_frame b e) as Hc.
  apply not_true_iff_false in Hs1be.
  destruct (Vec.ccw b e) eqn:Hccw.
  - rewrite (@Vec_inSector_narrow b e s1 Hccw) in Hs1be.
    rewrite (Vec_cross_antisym b s1) in Hs1be.
    apply (@arc_narrow b e v Hccw) in Hin.
    apply (core_none_ccw (X b) (Y b) (X e) (Y e) (X v) (Y v));
      try tauto. lia.
  - rewrite (@inSector_cw s1 b e Hccw) in Hs1be.
    rewrite (Vec_cross_antisym b s1) in Hs1be.
    apply (@arc_wide b e v Hccw) in Hin.
    apply (core_none_cw (X b) (Y b) (X e) (Y e) (X v) (Y v));
      try tauto. lia.
  - destruct (collinear_cases b e Hb He Hccw) as [Hor|Hor].
    + rewrite (@inSector_same v b e Hccw) in Hin by congruence.
      rewrite (@Vec_onRay_inSector v b s1 s2 Hin) in Hv. congruence.
    + rewrite (@inSector_opposite s1 b e Hccw Hor) in Hs1be.
      rewrite (Vec_cross_antisym b s1) in Hs1be.
      apply (@inSector_opposite v b e Hccw Hor) in Hin.
      rewrite (frame_pos b v), (frame_zero b v) in Hin.
      apply (core_col_none (Vec.dot b b) (Vec.dot b v)
               (X b) (Y b) (X v) (Y v)); try tauto.
      * now apply Vec_nonzero_dot.
      * apply ray_frame.
      * lia.
Qed.

Lemma arc_disjoint (b e v : Vector) :
  Vec.inSectorNonzero b s1 s2 = true ->
  Vec.ccw b e = Vec.CLOCKWISE ->
  Vec.ccw s1 e = Vec.COUNTERCLOCKWISE ->
  Vec.inSectorNonzero v b s2 = true ->
  Vec.inSectorNonzero v s1 e = true -> False.
Proof.
  intros HbS Hbe H1e Hv1 Hv2.
  assert (Hye : 0 < Y e).
  { pose proof (Vec_ccw_spec s1 e) as Hs. now rewrite H1e in Hs. }
  apply (@arc_from b v HbS) in Hv1. apply (@arc_to e v Hye) in Hv2.
  apply in_frame in HbS.
  pose proof (ccw_frame b e) as Hc. rewrite Hbe in Hc.
  apply (core_disjoint (X b) (Y b) (X e) (Y e) (X v) (Y v)); tauto.
Qed.

End Frame.

Set Implicit Arguments.

(** The sectors [refine] returns for a sector of less than a half turn
    hold the vectors of that sector that lie from [sectorBegin] to
    [sectorEnd], and no others. *)
Lemma refined_intersection (surface : Flat.FlatTriangulation)
    (this : Query.Sector) (b e v : Vector) (l : list Query.Sector) :
  narrow surface this ->
  Query.refine surface this b e = Ok l ->
  (exists r, In r l /\ lies surface r v = true)
  <-> (lies surface this v = true /\ Vec.inSectorNonzero v b e = true).
Proof.
  intros Hnarrow Hrefine.
  apply refine_refined in Hrefine.
  destruct Hrefine as (Hb & Hs1 & Hs2 & Href).
  unfold narrow in Hnarrow.
  set (s1 := fst (Query.boundaries surface this)) in *.
  set (s2 := snd (Query.boundaries surface this)) in *.
  change (lies surface this v) with (Vec.inSectorNonzero v s1 s2).
  destruct Href as [HbS Hbe H1e|HbS Hbe H1e|HbS Hbe He HeS|HbS Hbe He HeS
                    |HbS He HeS Hray|HbS He HeS Hs1be|HbS He HeS Hs1be].
  - rewrite <- (arc_both s1 s2 Hnarrow b e v HbS Hbe H1e). split.
    + intros (r & [<-|[<-|[]]] & Hr); [now left | now right].
    + intros [Hv|Hv].
      * exists (between this b s2). split; [now left | exact Hv].
      * exists (between this s1 e). split; [right; now left | exact Hv].
  - rewrite <- (arc_fromBegin s1 s2 Hnarrow b e v HbS Hbe H1e). split.
    + intros (r & [<-|[]] & Hr). exact Hr.
    + intros Hv. exists (between this b s2). split; [now left | exact Hv].
  - split.
    + intros (r & [<-|[]] & Hr). split; [|exact Hr].
      exact (arc_inside s1 s2 Hnarrow b e v Hb He HbS HeS Hbe Hr).
    + intros [_ Hv]. exists (between this b e). split; [now left | exact Hv].
  - rewrite <- (arc_upTo s1 s2 Hnarrow b e v Hb He HbS HeS Hbe). split.
    + intros (r & [<-|[]] & Hr). exact Hr.
    + intros Hv. exists (between this b s2). split; [now left | exact Hv].
  - rewrite <- (arc_toEnd s1 s2 Hnarrow b e v Hs1 Hb He HbS HeS Hray). split.
    + intros (r & [<-|[]] & Hr). exact Hr.
    + intros Hv. exists (between this s1 e). split; [now left | exact Hv].
  - split.
    + intros (r & [<-|[]] & Hr). split; [exact Hr|].
      exact (arc_unchanged s1 s2 Hnarrow b e v Hs1 Hb He HbS HeS Hs1be Hr).
    + intros [Hv _]. exists this. split; [now left | exact Hv].
  - split.
    + intros (r & [] & _).
    + intros [Hv Hin].
      rewrite (arc_none s1 s2 Hnarrow b e v Hs1 Hb He HbS Hs1be Hv) in Hin.
      discriminate.
Qed.

Lemma refineAll_app (surface : Flat.FlatTriangulation)
    (l : list Query.Sector) (b e : Vector) (l' : list Query.Sector) :
  Query.refineAll surface l b e = Ok l' ->
  forall r, In r l' <->
    exists s ls, In s l /\ Query.refine surface s b e = Ok ls /\ In r ls.
Proof.
  revert l'. induction l as [|s0 l IH]; simpl; intros l' Hall r.
  - injection Hall as <-. split; [intros [] | intros (s & ls & [] & _)].
  - apply bind_Ok in Hall. destruct Hall as (refined_ & Href & Hall).
    apply bind_Ok in Hall. destruct Hall as (rest & Hrest & Hall).
    injection Hall as <-. rewrite in_app_iff, (IH rest Hrest r). split.
    + intros [Hr|(s & ls & Hs & Hls & Hr)].
      * exists s0, refined_. auto.
      * exists s, ls. auto.
    + intros (s & ls & [<-|Hs] & Hls & Hr).
      * left. congruence.
      * right. exists s, ls. auto.
Qed.

(** X20: on a query all of whose sectors span less than a half turn, as the
    corners of triangles do, [sector(sectorBegin, sectorEnd)] selects the
    intersection with the interval from [sectorBegin], inclusive,
    counterclockwise to [sectorEnd], exclusive: a vector points into a sector
    of the result at a half edge if and only if it points into a sector of
    the query at that half edge and lies in the interval. *)
Theorem Query_sectorBetween_intersection (q q' : Query.SaddleConnections)
    (sectorBegin sectorEnd : Vector) (h : HalfEdge) (v : Vector) :
  (forall s, In s (Query.sectors q) -> narrow (Query.surface q) s) ->
  Query.sectorBetween q sectorBegin sectorEnd = Ok q' ->
  (exists r, In r (Query.sectors q') /\ Query.source r = h
             /\ lies (Query.surface q') r v = true)
  <-> ((exists s, In s (Query.sectors q) /\ Query.source s = h
                  /\ lies (Query.surface q) s v = true)
       /\ Vec.inSectorNonzero v sectorBegin sectorEnd = true).
Proof.
  intros Hnarrow Hq. unfold Query.sectorBetween in Hq.
  apply bind_Ok in Hq. destruct Hq as (l & Hall & Hq). injection Hq as <-.
  simpl. split.
  - intros (r & Hr & Hsrc & Hv).
    apply (refineAll_app _ _ _ _ Hall) in Hr.
    destruct Hr as (s & ls & Hs & Hls & Hr).
    assert (Hin : lies (Query.surface q) s v = true
                  /\ Vec.inSectorNonzero v sectorBegin sectorEnd = true).
    { apply (@refined_intersection (Query.surface q) s sectorBegin sectorEnd
               v ls (Hnarrow s Hs) Hls).
      exists r. auto. }
    split; [|tauto]. exists s. split; [exact Hs|]. split; [|tauto].
    apply refine_refined in Hls. destruct Hls as (_ & _ & _ & Hls).
    apply refined_shape in Hls. destruct Hls as [_ Hshape].
    destruct (Hshape r Hr) as [Hsame _]. congruence.
  - intros [(s & Hs & Hsrc & Hv) Hin].
    destruct (refineAll_each _ _ _ _ Hall s Hs) as (ls & Hls & Hincl).
    destruct (proj2 (@refined_intersection (Query.surface q) s sectorBegin
                       sectorEnd v ls (Hnarrow s Hs) Hls) (conj Hv Hin))
      as (r & Hr & Hrv).
    exists r. split; [now apply Hincl|]. split; [|exact Hrv].
    apply refine_refined in Hls. destruct Hls as (_ & _ & _ & Hls).
    apply refined_shape in Hls. destruct Hls as [_ Hshape].
    destruct (Hshape r Hr) as [Hsame _]. congruence.
Qed.

(** X21: the sectors that [refine] returns for one sector of less than a
    half turn do not overlap: no vector points into two of them. *)
Theorem Query_refine_disjoint (surface : Flat.FlatTriangulation)
    (this : Query.Sector) (sectorBegin sectorEnd v : Vector)
    (l : list Query.Sector) :
  narrow surface this ->
  Query.refine surface this sectorBegin sectorEnd = Ok l ->
  forall i j, (i < j < length l)%nat ->
    lies surface (nth i l this) v && lies surface (nth j l this) v = false.
Proof.
  intros Hnarrow Hrefine i j Hij.
  apply refine_refined in Hrefine.
  destruct Hrefine as (Hb & Hs1 & Hs2 & Href).
  unfold narrow in Hnarrow.
  destruct Href as [HbS Hbe H1e|HbS Hbe H1e|HbS Hbe He HeS|HbS Hbe He HeS
                    |HbS He HeS Hray|HbS He HeS Hs1be|HbS He HeS Hs1be];
    simpl in Hij; try lia.
  assert (Hi : i = 0%nat) by lia. assert (Hj : j = 1%nat) by lia. subst i j.
  simpl. apply not_true_is_false. intros Hboth.
  apply andb_true_iff in Hboth. destruct Hboth as [Hv1 Hv2].
  exact (arc_disjoint _ _ Hnarrow _ _ _ HbS Hbe H1e Hv1 Hv2).
Qed.

Lemma torus_narrow (s : Query.Sector) :
  In s (Query.sectors (Query.all flatTorus)) -> narrow flatTorus s.
Proof.
  intros Hs. simpl in Hs.
  repeat (destruct Hs as [<-|Hs]; [reflexivity|]). contradiction.
Qed.

(** On the square torus the vector [(2,1)] points into the corner at the
    half edge [1] and lies between [(1,0)] and [(0,1)]: it points into a
    sector of the refined query at [1]. *)
Lemma Query_sectorBetween_intersection_witness :
  exists q',
    Query.sectorBetween (Query.all flatTorus) (V 1 0) (V 0 1) = Ok q'
    /\ exists r, In r (Query.sectors q') /\ Query.source r = 1
                 /\ lies flatTorus r (V 2 1) = true.
Proof.
  eexists. split; [reflexivity|].
  apply (@Query_sectorBetween_intersection (Query.all flatTorus) _
           (V 1 0) (V 0 1) 1 (V 2 1) torus_narrow eq_refl).
  split; [|reflexivity].
  exists (Query.mkSector 1 None). simpl. tauto.
Defined.

(** On the square torus the corner at the half edge [1], from [(1,0)] to
    [(1,1)], refined from [(3,2)] all the way round to [(3,1)]: the vector
    [(4,1)] points into the second of the two sectors only. *)
Lemma Query_refine_disjoint_witness :
  let this := Query.mkSector 1 None in
  Query.refine flatTorus this (V 3 2) (V 3 1)
  = Ok [between this (V 3 2) (V 1 1); between this (V 1 0) (V 3 1)]
  /\ lies flatTorus (between this (V 3 2) (V 1 1)) (V 4 1)
     && lies flatTorus (between this (V 1 0) (V 3 1)) (V 4 1) = false.
Proof.
  intros this.
  assert (Hrefine : Query.refine flatTorus this (V 3 2) (V 3 1)
                    = Ok [between this (V 3 2) (V 1 1);
                          between this (V 1 0) (V 3 1)]) by reflexivity.
  split; [exact Hrefine|].
  assert (Hnarrow : narrow flatTorus this) by reflexivity.
  apply (@Query_refine_disjoint flatTorus this (V 3 2) (V 3 1) (V 4 1) _
           Hnarrow Hrefine 0%nat 1%nat).
  simpl. split; apply Nat.ltb_lt; reflexivity.
Defined.

(** ** The query builder: the walk around the vertex *)

Section Walk.

Context {SC : Type} `{Connection SC}.

(** What the walk has met when it stops. *)
Lemma walkTo_Some (fuel : nat) (c : FlatTriangulationCombinatorial)
    (walk beginSource endSource : HalfEdge) (found : bool) :
  Query.walkTo fuel c walk beginSource endSource = Some found ->
  exists n,
    (n <= fuel)%nat
    /\ (forall h, In h (Triple.orbit (nextAtVertex c) n walk) ->
                  h <> beginSource /\ h <> endSource)
    /\ nth n (Triple.orbit (nextAtVertex c) (S n) walk) 0
       = (if found then endSource else beginSource)
    /\ (found = true -> endSource <> beginSource).
Proof.
  revert walk. induction fuel as [|fuel IH]; intros walk; simpl.
  - destruct (Z.eqb_spec walk beginSource) as [->|Hb].
    + intros [= <-]. exists O.
      split; [lia|]. split; [intros h []|].
      split; [reflexivity | discriminate].
    + destruct (Z.eqb_spec walk endSource) as [->|He]; [|discriminate].
      intros [= <-]. exists O.
      split; [lia|]. split; [intros h []|].
      split; [reflexivity | intros _; exact Hb].
  - destruct (Z.eqb_spec walk beginSource) as [->|Hb].
    + intros [= <-]. exists O.
      split; [lia|]. split; [intros h []|].
      split; [reflexivity | discriminate].
    + destruct (Z.eqb_spec walk endSource) as [->|He].
      * intros [= <-]. exists O.
        split; [lia|]. split; [intros h []|].
        split; [reflexivity | intros _; exact Hb].
      * intros Hwalk.
        destruct (IH _ Hwalk) as (n & Hn & Hfree & Hnth & Hne).
        exists (S n). split; [lia|]. split; [|split; [exact Hnth | exact Hne]].
        intros h [<-|Hh]; [split; assumption | now apply Hfree].
Qed.

(** The walk stops as soon as the source of [sectorBegin] is in reach. *)
Lemma walkTo_terminates (fuel : nat) (c : FlatTriangulationCombinatorial)
    (walk beginSource endSource : HalfEdge) :
  In beginSource (Triple.orbit (nextAtVertex c) (S fuel) walk) ->
  Query.walkTo fuel c walk beginSource endSource <> None.
Proof.
  revert walk. induction fuel as [|fuel IH]; intros walk Hin.
  - simpl in Hin. destruct Hin as [->|[]]. simpl. rewrite Z.eqb_refl.
    discriminate.
  - cbn [Query.walkTo].
    destruct (walk =? beginSource) eqn:Hb; [discriminate|].
    destruct (walk =? endSource); [discriminate|].
    apply IH. cbn [Triple.orbit] in Hin.
    destruct Hin as [->|Hin]; [|exact Hin].
    rewrite Z.eqb_refl in Hb. discriminate.
Qed.

(** X22: in [sector(sectorBegin, sectorEnd)] on two saddle connections that
    start at different half edges, a sector at a third half edge is decided
    by the walk counterclockwise around its vertex: it is kept, as it is,
    exactly if the half edge of [sectorEnd] is met before that of
    [sectorBegin], and dropped if that of [sectorBegin] is met first; no
    error arises, and the walk comes to an end as soon as the half edge of
    [sectorBegin] is within the rounds allowed. *)
Theorem Query_sectorConnections_walk (fuel : nat)
    (surface : Flat.FlatTriangulation) (sector : Query.Sector)
    (sectorBegin sectorEnd : SC) :
  let c := Flat.combinatorial surface in
  let walk := Triple.orbit (nextAtVertex c) in
  Conn.source sectorBegin <> Conn.source sectorEnd ->
  Query.source sector <> Conn.source sectorBegin ->
  Query.source sector <> Conn.source sectorEnd ->
  (In (Conn.source sectorBegin) (walk (S fuel) (Query.source sector)) ->
   Query.sectorOf fuel surface sector sectorBegin sectorEnd <> None)
  /\ forall r,
       Query.sectorOf fuel surface sector sectorBegin sectorEnd = Some r ->
       exists n,
         (n <= fuel)%nat
         /\ (forall h, In h (walk n (Query.source sector)) ->
                       h <> Conn.source sectorBegin
                       /\ h <> Conn.source sectorEnd)
         /\ ((r = Ok [sector]
              /\ nth n (walk (S n) (Query.source sector)) 0
                 = Conn.source sectorEnd)
             \/ (r = Ok []
                 /\ nth n (walk (S n) (Query.source sector)) 0
                    = Conn.source sectorBegin)).
Proof.
  intros c walk Hne Hb He.
  assert (Hof : Query.sectorOf fuel surface sector sectorBegin sectorEnd
                = match Query.walkTo fuel c (Query.source sector)
                          (Conn.source sectorBegin) (Conn.source sectorEnd)
                  with
                  | None => None
                  | Some true => Some (Ok [sector])
                  | Some false => Some (Ok [])
                  end).
  { unfold Query.sectorOf.
    apply Z.eqb_neq in Hne, Hb, He. now rewrite Hne, Hb, He. }
  rewrite Hof. split.
  - intros Hin.
    pose proof (@walkTo_terminates fuel c (Query.source sector)
                  (Conn.source sectorBegin) (Conn.source sectorEnd) Hin).
    destruct (Query.walkTo fuel c _ _ _) as [[|]|]; congruence.
  - intros r Hr.
    destruct (Query.walkTo fuel c _ _ _) as [found|] eqn:Hwalk;
      [|discriminate].
    destruct (walkTo_Some _ _ _ _ _ Hwalk) as (n & Hn & Hfree & Hnth & _).
    exists n. split; [exact Hn|]. split; [exact Hfree|].
    destruct found; injection Hr as <-; [left | right]; split;
      try reflexivity; exact Hnth.
Qed.

End Walk.

(** On the square torus, between a connection in the corner at [1] and one
    in the corner at [2]: walking from [-3] the half edge [2] is met first
    and the corner at [-3] is kept; walking from [-1] the half edge [1] is
    met first and the corner is dropped. *)
Lemma Query_sectorConnections_walk_witness :
  let b := Triple.SC 1 (- 3) (V 2 1) in
  let e := Triple.SC 2 3 (V (- 1) 2) in
  @Query.sectorOf _ (connectionsOf torus) 6 flatTorus
    (Query.mkSector (- 3) None) b e = Some (Ok [Query.mkSector (- 3) None])
  /\ @Query.sectorOf _ (connectionsOf torus) 6 flatTorus
       (Query.mkSector (- 1) None) b e = Some (Ok [])
  /\ @Query.sectorOf _ (connectionsOf torus) 6 flatTorus
       (Query.mkSector 3 None) b e <> None.
Proof.
  intros b e. split; [reflexivity|]. split; [reflexivity|].
  apply (@Query_sectorConnections_walk _ (connectionsOf torus) 6 flatTorus
           (Query.mkSector 3 None) b e); try discriminate.
  simpl. tauto.
Defined.

(** ** Collapsed surfaces: the collapse of a gadget with both pairs of
    opposite sides identified *)

Section CollapseSquash.

Context {SC : Type} `{Connection SC}.

Abbreviation Surface := (@Collapsed.Surface SC).

(** With [c = -a] and [d = -b] the first branch is taken. *)
Lemma reroute_squash (s : Surface) (a b : HalfEdge) :
  Collapsed.reroute s a b (- a) (- b)
  = Ok (Collapsed.set
          (Collapsed.set
             (Collapsed.spliceBegin
                (Collapsed.spliceEnd
                   (Collapsed.setVector s (- a)
                      (negate (Collapsed.vectors s a)))
                   a b)
                (- a) (- b))
             b a)
          (- b) (- a)).
Proof.
  unfold Collapsed.reroute. rewrite !Z.opp_involutive, !Z.eqb_refl.
  reflexivity.
Qed.

(** X23: when both pairs of opposite sides of the gadget at the collapsed
    edge are identified, [c = -a] and [d = -b], the update before the
    collapse squashes the gadget into one pair of half edges: [a] and [b]
    end up with the same vector and the same hidden list, the list of [a]
    followed by the collapsed connection and the list of [b], and so do
    [-a] and [-b], with the opposite vector; all other half edges are left
    alone.  If nothing was hidden in [b] and [-b], the lists hidden in [a]
    and [-a] are reverse and opposite to each other afterwards whenever they
    were before. *)
Theorem Collapsed_collapse_squash (s s' : Surface)
    (collapse_ a b : HalfEdge) :
  gadget (Collapsed.combinatorial s) (oriented s collapse_)
  = (a, b, - a, - b) ->
  NoDup [a; b; - a; - b] ->
  Collapsed.updateBeforeCollapse s collapse_ = Ok s' ->
  let hidden := Collapsed.collapsedHalfEdges s in
  let hidden' := Collapsed.collapsedHalfEdges s' in
  let vectors := Collapsed.vectors s in
  let vectors' := Collapsed.vectors s' in
  let connection := Collapsed.vectors s (oriented s collapse_) in
  hidden' a = hidden a ++ connection :: hidden b
  /\ hidden' b = hidden' a
  /\ hidden' (- a) = (negate connection :: hidden (- b)) ++ hidden (- a)
  /\ hidden' (- b) = hidden' (- a)
  /\ vectors' a = vectors a /\ vectors' b = vectors a
  /\ vectors' (- a) = negate (vectors a)
  /\ vectors' (- b) = negate (vectors a)
  /\ (forall h, ~ In h [a; b; - a; - b] ->
                hidden' h = hidden h /\ vectors' h = vectors h)
  /\ (hidden b = [] -> hidden (- b) = [] -> hiddenSymmetricAt s a ->
      hiddenSymmetricAt s' a /\ hiddenSymmetricAt s' b).
Proof.
  intros Hgadget Hnd Hupd hidden hidden' vectors vectors' connection.
  apply updateBeforeCollapse_Ok in Hupd.
  cbv zeta in Hupd. rewrite Hgadget in Hupd.
  destruct Hupd as (_ & _ & Hreroute).
  rewrite reroute_squash in Hreroute. injection Hreroute as Hs'.
  split_NoDup Hnd.
  assert (Ha : hidden' a = hidden a ++ connection :: hidden b).
  { unfold hidden'. rewrite <- Hs'. read_stores. reflexivity. }
  assert (Hb : hidden' b = hidden' a).
  { unfold hidden'. rewrite <- Hs'. read_stores. reflexivity. }
  assert (Hma : hidden' (- a)
                = (negate connection :: hidden (- b)) ++ hidden (- a)).
  { unfold hidden'. rewrite <- Hs'. read_stores. reflexivity. }
  assert (Hmb : hidden' (- b) = hidden' (- a)).
  { unfold hidden'. rewrite <- Hs'. read_stores. reflexivity. }
  repeat (split; [first [assumption
                        | unfold vectors'; rewrite <- Hs'; read_stores;
                          reflexivity]|]).
  split.
  - intros h Hh. simpl in Hh.
    assert (h <> a /\ h <> b /\ h <> - a /\ h <> - b) as (H1 & H2 & H3 & H4)
      by (repeat split; intros ->; apply Hh; tauto).
    unfold hidden', vectors'. rewrite <- Hs'.
    split; read_stores; reflexivity.
  - intros Hbe Hmbe Hsym.
    change (hidden (- a) = rev (map negate (hidden a))) in Hsym.
    assert (Hrev : hidden' (- a) = rev (map negate (hidden' a))).
    { rewrite Hma, Ha, Hbe, Hmbe, Hsym.
      rewrite map_app, rev_app_distr. reflexivity. }
    split; [exact Hrev|].
    change (hidden' (- b) = rev (map negate (hidden' b))).
    now rewrite Hmb, Hb.
Qed.

End CollapseSquash.

(** On the square torus with the vertical [(0,1)] the edge [2] is vertical
    and its gadget is [(-1 -2 -3)(1 2 3)]: after the update the half edges
    [-1] and [3] both hide the collapsed connection. *)
Lemma Collapsed_collapse_squash_witness :
  let H := connectionsOf torus in
  let s := Collapsed.construct (H := H) flatTorus (V 0 1) in
  exists s',
    Collapsed.updateBeforeCollapse s 2 = Ok s'
    /\ Collapsed.collapsedHalfEdges s' (- 1) = [Triple.SC 2 (- 2) (V 0 1)]
    /\ Collapsed.collapsedHalfEdges s' 3 = [Triple.SC 2 (- 2) (V 0 1)]
    /\ hiddenSymmetricAt s' (- 1).
Proof.
  intros H s.
  destruct (Collapsed.updateBeforeCollapse s 2) as [s'|err] eqn:Hupd;
    [|vm_compute in Hupd; discriminate].
  exists s'. split; [reflexivity|].
  assert (Hnd : NoDup [-1; 3; - -1; - 3]).
  { repeat constructor; simpl; intuition discriminate. }
  destruct (@Collapsed_collapse_squash _ H s s' 2 (-1) 3 eq_refl Hnd Hupd)
    as (Ha & Hb & _ & _ & _ & _ & _ & _ & _ & Hsym).
  split; [rewrite Ha; reflexivity|].
  split; [rewrite Hb, Ha; reflexivity|].
  apply Hsym; reflexivity.
Defined.

(** ** Collapsed surfaces: when the update before a collapse goes through *)

Section CollapseOutcome.

Context {SC : Type} `{Connection SC}.

Abbreviation Surface := (@Collapsed.Surface SC).

(** [updateBeforeCollapse] by the gadget it reads. *)
Lemma updateBeforeCollapse_gadget (s : Surface) (collapse_ : HalfEdge) :
  Collapsed.updateBeforeCollapse s collapse_
  = (let collapse := oriented s collapse_ in
     let connection := Collapsed.vectors s collapse in
     let '(a, b, c, d) := gadget (Collapsed.combinatorial s) collapse in
     _ <- ASSERT (Collapsed.parallel s (Z.abs collapse_)) ;;
     _ <- ASSERT (equal (negate connection)
                        (Collapsed.vectors s (- collapse))) ;;
     _ <- ASSERT (checkConnection connection) ;;
     s <- Collapsed.reroute
            (Collapsed.pushFront (Collapsed.pushFront s b connection)
                                 d (negate connection))
            a b c d ;;
     _ <- ASSERT (Collapsed.nonempty (Collapsed.collapsedHalfEdges s (- a))) ;;
     _ <- ASSERT (Collapsed.nonempty (Collapsed.collapsedHalfEdges s b)) ;;
     _ <- ASSERT (Collapsed.nonempty (Collapsed.collapsedHalfEdges s (- c))) ;;
     _ <- ASSERT (Collapsed.nonempty (Collapsed.collapsedHalfEdges s d)) ;;
     Ok s).
Proof. reflexivity. Qed.

Lemma nonempty_app_cons (l l' : list SC) (c : SC) :
  Collapsed.nonempty (l ++ c :: l') = true.
Proof.
  unfold Collapsed.nonempty. rewrite length_app. simpl.
  apply negb_true_iff, Nat.eqb_neq. lia.
Qed.

(** X24: at a gadget whose eight outer half edges are distinct the update
    before the collapse goes through exactly when the edge is parallel to
    the vertical, the connections of its two half edges are opposite to each
    other and the connection passes its check; otherwise it fails with
    [InvariantViolated].  The four assertions on the hidden lists at the
    end hold. *)
Theorem Collapsed_updateBeforeCollapse_outcome (s : Surface)
    (collapse_ a b c d : HalfEdge) :
  gadget (Collapsed.combinatorial s) (oriented s collapse_) = (a, b, c, d) ->
  NoDup [a; b; c; d; - a; - b; - c; - d] ->
  let collapse := oriented s collapse_ in
  let connection := Collapsed.vectors s collapse in
  let ready :=
    Collapsed.parallel s (Z.abs collapse_)
    && equal (negate connection) (Collapsed.vectors s (- collapse))
    && checkConnection connection in
  (ready = true ->
   exists s', Collapsed.updateBeforeCollapse s collapse_ = Ok s')
  /\ (ready = false ->
      Collapsed.updateBeforeCollapse s collapse_ = Err InvariantViolated).
Proof.
  intros Hgadget Hnd collapse connection ready.
  rewrite updateBeforeCollapse_gadget. cbv zeta. rewrite Hgadget.
  fold collapse connection.
  split.
  - intros Hready. unfold ready in Hready.
    apply andb_true_iff in Hready. destruct Hready as [Hready Hcheck].
    apply andb_true_iff in Hready. destruct Hready as [Hpar Heq].
    rewrite Hpar, Heq, Hcheck.
    rewrite (@reroute_distinct _ _ _ a b c d Hnd).
    split_NoDup Hnd.
    match goal with
    | |- context [Ok ?store] =>
        assert (Hma : Collapsed.nonempty
                        (Collapsed.collapsedHalfEdges store (- a)) = true)
          by (read_stores; apply nonempty_app_cons);
        assert (Hb : Collapsed.nonempty
                       (Collapsed.collapsedHalfEdges store b) = true)
          by (read_stores; apply nonempty_app_cons);
        assert (Hmc : Collapsed.nonempty
                        (Collapsed.collapsedHalfEdges store (- c)) = true)
          by (read_stores; apply nonempty_app_cons);
        assert (Hd : Collapsed.nonempty
                       (Collapsed.collapsedHalfEdges store d) = true)
          by (read_stores; apply nonempty_app_cons);
        exists store; revert Hma Hb Hmc Hd; generalize store
    end.
    intros store Hma Hb Hmc Hd. simpl. rewrite Hma, Hb, Hmc, Hd. reflexivity.
  - intros Hready. unfold ready in Hready.
    destruct (Collapsed.parallel s (Z.abs collapse_)); [|reflexivity].
    destruct (equal (negate connection) _); [|reflexivity].
    simpl in Hready. rewrite Hready. reflexivity.
Qed.

End CollapseOutcome.
(** On the torus of two squares the edge [3] is vertical and its gadget has
    eight distinct outer half edges: the update goes through. *)
Lemma Collapsed_updateBeforeCollapse_outcome_witness :
  exists s',
    Collapsed.updateBeforeCollapse (H := connectionsOf twoSquares)
      collapsedTwoSquares 3
    = Ok s'.
Proof.
  assert (Hnd : NoDup [-1; -6; 2; 5; - -1; - -6; - 2; - 5]).
  { repeat constructor; simpl; intuition discriminate. }
  apply (proj1 (@Collapsed_updateBeforeCollapse_outcome
                  _ (connectionsOf twoSquares) collapsedTwoSquares
                  3 (-1) (-6) 2 5 eq_refl Hnd)).
  reflexivity.
Defined.

(** ** The collapse of a vertical edge: the case analysis is exhaustive *)

(** Two vectors parallel to the same non-zero vector are parallel. *)
Lemma Vec_cross_parallel (u w vertical : Vector) :
  vertical <> Vec.zero ->
  Vec.cross u vertical = 0 -> Vec.cross w vertical = 0 ->
  Vec.cross u w = 0.
Proof.
  destruct u as [ux uy], w as [wx wy], vertical as [vx vy].
  unfold Vec.cross, Vec.zero. simpl. intros Hv Hu Hw.
  assert (Hu' : uy * vx = ux * vy) by lia.
  assert (Hw' : wy * vx = wx * vy) by lia.
  assert (Hx : (ux * wy - uy * wx) * vx = 0).
  { replace ((ux * wy - uy * wx) * vx)
      with (ux * (wy * vx) - wx * (uy * vx)) by ring.
    rewrite Hu', Hw'. ring. }
  assert (Hy : (ux * wy - uy * wx) * vy = 0).
  { replace ((ux * wy - uy * wx) * vy)
      with (wy * (ux * vy) - uy * (wx * vy)) by ring.
    rewrite <- Hu', <- Hw'. ring. }
  destruct (Z.eq_dec vx 0) as [Hvx|Hvx];
    destruct (Z.eq_dec vy 0) as [Hvy|Hvy]; try nia.
  exfalso. apply Hv. now rewrite Hvx, Hvy.
Qed.

Lemma ccw_left (u w : Vector) :
  Vec.ccw u w = Vec.COUNTERCLOCKWISE <-> 0 < Vec.cross u w.
Proof.
  unfold Vec.ccw. destruct (Z.compare_spec (Vec.cross u w) 0);
    split; intros; try discriminate; try lia; reflexivity.
Qed.

Section GadgetExhaustive.

Context {SC : Type} `{Connection SC}.

Abbreviation Surface := (@Collapsed.Surface SC).

(** The outer half edges of two distinct triangles are distinct from their
    opposites as soon as no two of them are opposite to each other. *)
Lemma gadget_NoDup (a b c d collapse : HalfEdge) :
  NoDup [a; - collapse; d; c; collapse; b] ->
  a <> 0 -> b <> 0 -> c <> 0 -> d <> 0 ->
  a <> - c -> b <> - d -> a <> - d -> b <> - c ->
  a <> - b -> c <> - d ->
  NoDup [a; b; c; d; - a; - b; - c; - d].
Proof.
  intros Hfaces Ha Hb Hc Hd Hac Hbd Had Hbc Hab Hcd.
  split_NoDup Hfaces.
  change (distinct a 0) in Ha. change (distinct b 0) in Hb.
  change (distinct c 0) in Hc. change (distinct d 0) in Hd.
  change (distinct a (- c)) in Hac. change (distinct b (- d)) in Hbd.
  change (distinct a (- d)) in Had. change (distinct b (- c)) in Hbc.
  change (distinct a (- b)) in Hab. change (distinct c (- d)) in Hcd.
  repeat (apply NoDup_cons; [simpl; intros Hor|]);
    [repeat (destruct Hor as [Heq|Hor]; [exfalso; by_distinct|]);
     exact Hor .. | apply NoDup_nil].
Qed.

Lemma leftOf_opposite (s : Surface) (collapse h : HalfEdge) :
  Collapsed.vertical s <> Vec.zero ->
  Collapsed.parallel s collapse = true ->
  oddAcross s h ->
  leftOf s collapse (- h) = - leftOf s collapse h.
Proof.
  unfold Collapsed.parallel, oddAcross, Collapsed.perpendicular, leftOf.
  intros Hv Hpar Hodd. apply Z.eqb_eq in Hpar.
  set (u := vector (Collapsed.fromEdge s collapse)) in *.
  set (p := vector (Collapsed.fromEdge s h)) in *.
  set (q := vector (Collapsed.fromEdge s (- h))) in *.
  assert (Hsum : Vec.cross (Vec.add p q) (Collapsed.vertical s) = 0).
  { destruct p, q, (Collapsed.vertical s). unfold Vec.cross, Vec.add in *.
    simpl in *. lia. }
  pose proof (@Vec_cross_parallel _ _ _ Hv Hpar Hsum) as Hzero.
  destruct u, p, q. unfold Vec.cross, Vec.add in *. simpl in *. lia.
Qed.

(** C4: on a collapsed surface where the two faces at the vertical edge
    [collapse] are the triangles [(a -collapse d)(c collapse b)], both
    turning counter-clockwise at the collapsed edge, where the two half
    edges of the collapsed edge carry opposite vectors and every outer half
    edge and its opposite carry vectors with opposite components across the
    vertical: if none of the identifications [a = -c], [b = -d], [a = -d],
    [b = -c] holds, then the eight half edges [a], [b], [c], [d], [-a],
    [-b], [-c], [-d] are pairwise distinct, the last branch of the case
    analysis is taken and its assertion holds. *)
Theorem Collapsed_gadget_distinct (s : Surface)
    (a b c d collapse : HalfEdge) :
  collapseFaces (Collapsed.combinatorial s) a b c d collapse ->
  Collapsed.vertical s <> Vec.zero ->
  Collapsed.parallel s collapse = true ->
  vector (Collapsed.fromEdge s (- collapse))
  = Vec.opp (vector (Collapsed.fromEdge s collapse)) ->
  turnsLeft s a -> turnsLeft s (- collapse) ->
  turnsLeft s c -> turnsLeft s collapse ->
  oddAcross s a -> oddAcross s b -> oddAcross s c -> oddAcross s d ->
  a <> - c -> b <> - d -> a <> - d -> b <> - c ->
  NoDup [a; b; c; d; - a; - b; - c; - d]
  /\ forall s0 : Surface,
       Collapsed.reroute s0 a b c d
       = Ok (Collapsed.set
               (Collapsed.set
                  (Collapsed.set
                     (Collapsed.set
                        (Collapsed.spliceEnd
                           (Collapsed.spliceEnd
                              (Collapsed.spliceEnd
                                 (Collapsed.spliceEnd s0 (- a) d) (- b) c)
                              (- c) b)
                           (- d) a)
                        a (- d))
                     b (- c))
                  c (- b))
               d (- a)).
Proof.
  intros (Hgadget & Hna & Hnd & Hnc & Hnb) Hv Hpar Hopp
         Hta Htm Htc Htp Hoa Hob Hoc Hod Hac Hbd Had Hbc.
  unfold gadget in Hgadget. injection Hgadget as _ Hb _ Hd.
  unfold turnsLeft in *. rewrite ccw_left in *.
  rewrite Hna in Hta. rewrite Hd in Htm. rewrite Hnc in Htc.
  rewrite Hb in Htp.
  rewrite Hopp in Hta, Htm.
  rewrite Vec_cross_opp_r in Hta.
  assert (Ha : 0 < leftOf s collapse a).
  { unfold leftOf. rewrite Vec_cross_antisym. lia. }
  assert (Hb' : 0 < leftOf s collapse b) by exact Htp.
  assert (Hc : leftOf s collapse c < 0).
  { unfold leftOf. rewrite Vec_cross_antisym. lia. }
  assert (Hd' : leftOf s collapse d < 0).
  { unfold leftOf. rewrite Vec_cross_antisym, Vec_cross_opp_r in Htm.
    rewrite Vec_cross_antisym. lia. }
  assert (Hp : leftOf s collapse collapse = 0)
    by (unfold leftOf; apply Vec_cross_self).
  assert (Hm : leftOf s collapse (- collapse) = 0).
  { unfold leftOf. rewrite Hopp, Vec_cross_opp_r, Vec_cross_self.
    reflexivity. }
  pose proof (@leftOf_opposite s collapse a Hv Hpar Hoa) as Hma.
  pose proof (@leftOf_opposite s collapse b Hv Hpar Hob) as Hmb.
  pose proof (@leftOf_opposite s collapse c Hv Hpar Hoc) as Hmc.
  pose proof (@leftOf_opposite s collapse d Hv Hpar Hod) as Hmd.
  clear Hta Htm Htc Htp Hoa Hob Hoc Hod Hopp Hpar Hv.
  assert (Hnd8 : NoDup [a; b; c; d; - a; - b; - c; - d]).
  { apply (@gadget_NoDup a b c d collapse).
    - assert (Hab : a <> b).
      { intros Heq.
        assert (E : - collapse = c) by (rewrite <- Hna, <- Hnb; now f_equal).
        apply (f_equal (leftOf s collapse)) in E. lia. }
      assert (Hdc : d <> c).
      { intros Heq.
        assert (E : a = collapse) by (rewrite <- Hnd, <- Hnc; now f_equal).
        apply (f_equal (leftOf s collapse)) in E. lia. }
      assert (Hmp : - collapse <> collapse).
      { intros Heq.
        assert (E : d = b) by (rewrite <- Hd, <- Hb; now f_equal).
        apply (f_equal (leftOf s collapse)) in E. lia. }
      repeat (apply NoDup_cons; [simpl; intros Hor|]);
        [repeat (destruct Hor as [Heq|Hor];
                 [exfalso;
                  first [ congruence
                        | apply (f_equal (leftOf s collapse)) in Heq; lia ]|]);
         exact Hor .. | apply NoDup_nil].
    - intros ->. simpl in Hma. lia.
    - intros ->. simpl in Hmb. lia.
    - intros ->. simpl in Hmc. lia.
    - intros ->. simpl in Hmd. lia.
    - assumption.
    - assumption.
    - assumption.
    - assumption.
    - intros ->. lia.
    - intros ->. lia. }
  split; [exact Hnd8|]. intros s0. apply reroute_distinct. exact Hnd8.
Qed.

End GadgetExhaustive.
(** On the torus of two squares the vertical edge [3] lies between the
    triangles [(-1 -3 5)(2 3 -6)], and all the outer half edges are
    distinct. *)
Lemma Collapsed_gadget_distinct_witness :
  gadget twoSquares 3 = (-1, -6, 2, 5)
  /\ NoDup [-1; -6; 2; 5; - -1; - -6; - 2; - 5]
  /\ exists s',
       Collapsed.reroute (H := connectionsOf twoSquares)
         collapsedTwoSquares (-1) (-6) 2 5
       = Ok s'.
Proof.
  split; [reflexivity|].
  destruct (@Collapsed_gadget_distinct _ (connectionsOf twoSquares)
              collapsedTwoSquares (-1) (-6) 2 5 3) as [Hnd Hreroute];
    try reflexivity; try discriminate.
  - repeat split.
  - split; [exact Hnd|]. eexists. apply Hreroute.
Defined.

(** ** The area that [check] sums *)

Lemma sumOver_app (f : HalfEdge -> Z) (l l' : list HalfEdge) :
  sumOver f (l ++ l') = sumOver f l + sumOver f l'.
Proof. induction l as [|e l IH]; simpl; lia. Qed.

Lemma sumOver_ext (f g : HalfEdge -> Z) (l : list HalfEdge) :
  (forall e, In e l -> f e = g e) -> sumOver f l = sumOver g l.
Proof.
  induction l as [|e l IH]; simpl; intros Hfg; [reflexivity|].
  rewrite (Hfg e) by now left. rewrite IH; [reflexivity|].
  intros e' He'. apply Hfg. now right.
Qed.

Lemma sumOver_add (f g : HalfEdge -> Z) (l : list HalfEdge) :
  sumOver (fun e => f e + g e) l = sumOver f l + sumOver g l.
Proof. induction l as [|e l IH]; simpl; lia. Qed.

Lemma sumOver_sub (f g : HalfEdge -> Z) (l : list HalfEdge) :
  sumOver (fun e => f e - g e) l = sumOver f l - sumOver g l.
Proof. induction l as [|e l IH]; simpl; lia. Qed.

Lemma sumOver_zero (f : HalfEdge -> Z) (l : list HalfEdge) :
  (forall e, In e l -> f e = 0) -> sumOver f l = 0.
Proof.
  induction l as [|e l IH]; simpl; intros Hf; [reflexivity|].
  rewrite (Hf e) by now left. rewrite IH; [reflexivity|].
  intros e' He'. apply Hf. now right.
Qed.

(** A sum whose terms vanish away from [k]. *)
Lemma sumOver_at (f : HalfEdge -> Z) (k : HalfEdge) (l : list HalfEdge) :
  NoDup l -> In k l ->
  sumOver (fun e => if e =? k then f e else 0) l = f k.
Proof.
  induction l as [|e l IH]; simpl; intros Hnd Hin; [contradiction|].
  apply NoDup_cons_iff in Hnd. destruct Hnd as [Hnotin Hnd].
  destruct Hin as [->|Hin].
  - rewrite Z.eqb_refl. rewrite sumOver_zero; [lia|].
    intros e He. destruct (Z.eqb_spec e k); [subst; contradiction|reflexivity].
  - destruct (Z.eqb_spec e k) as [->|Hne]; [contradiction|].
    rewrite IH by assumption. lia.
Qed.

(** A sum whose terms vanish away from the half edges of [support]. *)
Lemma sumOver_support (f : HalfEdge -> Z) (support l : list HalfEdge) :
  NoDup l -> NoDup support -> incl support l ->
  (forall e, In e l -> ~ In e support -> f e = 0) ->
  sumOver f l = sumOver f support.
Proof.
  intros Hl. revert f.
  induction support as [|k support IH]; intros f Hs Hincl Hf.
  - simpl. apply sumOver_zero. intros e He. now apply Hf.
  - apply NoDup_cons_iff in Hs. destruct Hs as [Hk Hs]. simpl.
    assert (Hsplit : forall e, f e = (if e =? k then f e else 0)
                                     + (if e =? k then 0 else f e)).
    { intros e. destruct (e =? k); lia. }
    rewrite (sumOver_ext _ _ l (fun e _ => Hsplit e)).
    rewrite sumOver_add.
    rewrite sumOver_at; [|exact Hl|apply Hincl; now left].
    f_equal.
    rewrite (IH (fun e => if e =? k then 0 else f e)).
    + apply sumOver_ext. intros e He.
      destruct (Z.eqb_spec e k); [subst; contradiction|reflexivity].
    + exact Hs.
    + intros e He. apply Hincl. now right.
    + intros e He Hne. destruct (Z.eqb_spec e k) as [->|Hek]; [reflexivity|].
      apply Hf; [exact He|]. simpl. intros [Heq|Hin]; [congruence|contradiction].
Qed.

Section AreaTerms.

Context {SC : Type} `{Connection SC} `{@Collapsed.Collaborators SC}.

Abbreviation Surface := (@Collapsed.Surface SC).

Lemma fold_left_acc {A : Type} (g : A -> Z) (l : list A) (acc : Z) :
  fold_left (fun acc a => acc + g a) l acc
  = acc + fold_left (fun acc a => acc + g a) l 0.
Proof.
  revert acc. induction l as [|a l IH]; intros acc; cbn [fold_left]; [lia|].
  rewrite (IH (acc + g a)), (IH (0 + g a)). lia.
Qed.

Lemma addArea_terms (s : Surface) (acc : Z) (e : HalfEdge) :
  Collapsed.addArea s acc e = acc + faceTerm s e + hiddenTerm s e.
Proof.
  unfold Collapsed.addArea, faceTerm, hiddenTerm.
  rewrite fold_left_acc.
  destruct (negb _); lia.
Qed.

(** The area loop sums the two terms over the half edges, unless one of
    them is on the boundary. *)
Lemma areaLoop_sum (s : Surface) (l : list HalfEdge) (acc : Z) :
  Collapsed.areaLoop s l acc
  = if existsb (boundary (Collapsed.combinatorial s)) l
    then Err NotImplemented
    else Ok (acc + sumOver (fun e => faceTerm s e + hiddenTerm s e) l).
Proof.
  revert acc. induction l as [|e l IH]; intros acc; simpl.
  - f_equal. lia.
  - destruct (boundary (Collapsed.combinatorial s) e); simpl; [reflexivity|].
    rewrite IH, addArea_terms.
    destruct (existsb _ l); [reflexivity|]. f_equal. lia.
Qed.

End AreaTerms.

(** *** Vectors, by their coordinates *)

Lemma Vec_eq (u w : Vector) :
  u = w <-> Vec.x u = Vec.x w /\ Vec.y u = Vec.y w.
Proof.
  split; [now intros ->|]. destruct u, w. simpl. now intros [-> ->].
Qed.

Ltac coordinates :=
  repeat match goal with
         | H : ?u = ?w :> Vector |- _ =>
             apply Vec_eq in H; destruct H as [? ?]
         | |- _ = _ :> Vector => apply Vec_eq; split
         | H : ?u <> ?w :> Vector |- _ => rewrite Vec_eq in H
         end;
  unfold Vec.cross, Vec.dot, Vec.add, Vec.opp, Vec.sub, Vec.zero in *;
  repeat match goal with
         | v : Vector |- _ => destruct v
         end;
  cbn [Vec.x Vec.y] in *.

Section AreaLaws.

Context {SC : Type} `{Connection SC} `{@Collapsed.Collaborators SC}.

Abbreviation Surface := (@Collapsed.Surface SC).

Lemma vectorSum_app (l l' : list SC) :
  vectorSum (l ++ l') = Vec.add (vectorSum l) (vectorSum l').
Proof.
  induction l as [|c l IH]; simpl.
  - destruct (vectorSum l'). reflexivity.
  - rewrite IH. coordinates; lia.
Qed.

Lemma vectorSum_vertical (vertical : Vector) (l : list SC) :
  (forall c, In c l -> Vec.cross (vector c) vertical = 0) ->
  Vec.cross (vectorSum l) vertical = 0.
Proof.
  induction l as [|c l IH]; simpl; intros Hl.
  - destruct vertical. unfold Vec.cross. simpl. lia.
  - rewrite Vec_cross_add_l, (Hl c) by now left.
    rewrite IH; [reflexivity|]. intros c' Hc'. apply Hl. now right.
Qed.

Lemma vector_fold_sum (l : list SC) (c0 : SC) :
  @ConnectionLaws SC _ ->
  vector (fold_left Collapsed.sum l c0) = Vec.add (vector c0) (vectorSum l).
Proof.
  intros Hlaws. revert c0. induction l as [|c l IH]; intros c0; simpl.
  - coordinates; lia.
  - rewrite IH. unfold Collapsed.sum. rewrite vector_connect.
    coordinates; lia.
Qed.

Lemma fold_area_cross (l : list SC) (w : Vector) (acc : Z) :
  areaOfTriangles ->
  fold_left
    (fun acc connection =>
       acc + 3 * Collapsed.area (vector connection)
                                (Vec.sub w (vector connection)) (Vec.opp w))
    l acc
  = acc + 3 * Vec.cross (vectorSum l) w.
Proof.
  intros Harea. revert acc.
  induction l as [|c l IH]; intros acc; cbn [fold_left].
  - destruct w. unfold vectorSum, Vec.cross, Vec.zero.
    cbn [fold_right Vec.x Vec.y]. lia.
  - change (vectorSum (c :: l)) with (Vec.add (vector c) (vectorSum l)).
    rewrite IH. rewrite Harea.
    + rewrite Vec_cross_add_l.
      generalize (vector c) as u. generalize (vectorSum l) as r.
      intros r u. coordinates. ring.
    + generalize (vector c) as u. intros u. coordinates; lia.
Qed.

(** Under the laws, the connections hidden in [e] add three times the cross
    product of their sum with the vector of [e]. *)
Lemma hiddenTerm_cross (s : Surface) (e : HalfEdge) :
  areaOfTriangles -> @ConnectionLaws SC _ ->
  hiddenTerm s e
  = 3 * Vec.cross (vectorSum (Collapsed.cross s e))
                  (vector (Collapsed.fromEdge s e)).
Proof.
  intros Harea Hlaws. unfold hiddenTerm.
  rewrite vector_negate.
  generalize (vector (Collapsed.fromEdge s e)) as w.
  generalize (Collapsed.cross s e) as l.
  intros l w. rewrite fold_area_cross by exact Harea. lia.
Qed.

End AreaLaws.

(** *** The flip keeps the area *)

(** The area of the two triangles and of the connections hidden in the
    flipped edge, before and after the flip: [h] and [hm] are the sums of
    the connections hidden in [flip] and [-flip], [vnb] and [vnd] the
    vectors of [-b] and [-d]. *)
Lemma flip_area_core (va vb vc vd ve vme h hm vnb vnd vertical : Vector) :
  Vec.add (Vec.add va vb) ve = Vec.zero ->
  Vec.add (Vec.add vc vd) vme = Vec.zero ->
  Vec.opp (Vec.add (Vec.add vd hm) va) = Vec.add (Vec.add vb h) vc ->
  vertical <> Vec.zero ->
  Vec.cross h vertical = 0 -> Vec.cross hm vertical = 0 ->
  Vec.cross (Vec.add vnb vb) vertical = 0 ->
  Vec.cross (Vec.add vnd vd) vertical = 0 ->
  let vb' := Vec.add vb h in
  let vd' := Vec.add vd hm in
  let vf := Vec.add vd' va in
  let vmf := Vec.opp vf in
  (Vec.cross va vmf + Vec.cross vmf vd' + Vec.cross vd' va)
  + (Vec.cross vc vf + Vec.cross vf vb' + Vec.cross vb' vc)
  + 3 * Vec.cross h vnb + 3 * Vec.cross hm vnd
  = (Vec.cross va vb + Vec.cross vb ve + Vec.cross ve va)
    + (Vec.cross vc vd + Vec.cross vd vme + Vec.cross vme vc)
    + 3 * Vec.cross h ve + 3 * Vec.cross hm vme.
Proof.
  intros Hface Hmface Hassert Hv Hh Hhm Hob Hod vb' vd' vf vmf.
  pose proof (@Vec_cross_parallel _ _ _ Hv Hh Hob) as E1.
  pose proof (@Vec_cross_parallel _ _ _ Hv Hhm Hod) as E2.
  assert (He : ve = Vec.opp (Vec.add va vb)) by (coordinates; lia).
  assert (Hme : vme = Vec.opp (Vec.add vc vd)) by (coordinates; lia).
  assert (Hm : hm = Vec.opp (Vec.add (Vec.add (Vec.add (Vec.add va vb) vc) vd)
                                     h))
    by (coordinates; lia).
  subst ve vme hm vb' vd' vf vmf.
  clear Hface Hmface Hassert Hv Hh Hhm Hob Hod.
  coordinates. lia.
Qed.

(** The half edge [previousInFace] finds is a half edge of the list that is
    mapped to [e], unless there is none. *)
Lemma preimage_cases (domain : list HalfEdge) (p : Permutation)
    (e : HalfEdge) :
  (In (preimage domain p e) domain /\ p (preimage domain p e) = e)
  \/ preimage domain p e = 0.
Proof.
  unfold preimage.
  destruct (find (fun h => p h =? e) domain) as [h|] eqn:Hfind.
  - left. apply find_some in Hfind. destruct Hfind as [Hin Heq].
    apply Z.eqb_eq in Heq. now split.
  - now right.
Qed.

Lemma preimage_ext (domain : list HalfEdge) (p p' : Permutation)
    (e : HalfEdge) :
  (forall h, In h domain -> (p h =? e) = (p' h =? e)) ->
  preimage domain p e = preimage domain p' e.
Proof.
  intros Hext. unfold preimage.
  induction domain as [|h domain IH]; simpl; [reflexivity|].
  rewrite <- (Hext h) by now left.
  destruct (p h =? e); [reflexivity|].
  apply IH. intros h' Hh'. apply Hext. now right.
Qed.

(** The face permutation of the flipped triangulation. *)
Lemma flipFaces_next (t : FlatTriangulationCombinatorial)
    (a b flip c d : HalfEdge) (h : HalfEdge) :
  facesAt t a b flip c d ->
  nextInFace (Collapsed.flipFaces t flip) h
  = if h =? b then c
    else if h =? flip then b
    else if h =? c then flip
    else if h =? d then a
    else if h =? - flip then d
    else if h =? a then - flip
    else nextInFace t h.
Proof.
  intros (Hab & Hbf & Hfa & Hcd & Hdf & Hfc).
  unfold nextInFace, Collapsed.flipFaces in *. simpl.
  unfold nextInFace. rewrite Hfa, Hab, Hfc, Hcd. reflexivity.
Qed.

(** The half edges before those of the two triangles, before the flip and
    after it. *)
Lemma facesAt_previous (t : FlatTriangulationCombinatorial)
    (a b flip c d : HalfEdge) :
  injective t ->
  (forall h, In h [a; b; flip; c; d; - flip] -> In h (halfEdges t)) ->
  facesAt t a b flip c d ->
  previousInFace t a = flip /\ previousInFace t b = a
  /\ previousInFace t flip = b /\ previousInFace t c = - flip
  /\ previousInFace t d = c /\ previousInFace t (- flip) = d.
Proof.
  intros Hinj Hin (Hab & Hbf & Hfa & Hcd & Hdf & Hfc).
  unfold previousInFace, nextInFace in *.
  repeat split;
    (apply preimage_unique;
     [apply Hin; simpl; tauto
     | assumption
     | intros h' Hh' Heq; apply Hinj;
       [exact Hh' | apply Hin; simpl; tauto | congruence]]).
Qed.

Lemma flipFaces_previous (t : FlatTriangulationCombinatorial)
    (a b flip c d : HalfEdge) :
  injective t ->
  (forall h, In h [a; b; flip; c; d; - flip] -> In h (halfEdges t)) ->
  NoDup [a; b; flip; c; d; - flip] ->
  facesAt t a b flip c d ->
  let t' := Collapsed.flipFaces t flip in
  previousInFace t' a = d /\ previousInFace t' (- flip) = a
  /\ previousInFace t' d = - flip /\ previousInFace t' c = b
  /\ previousInFace t' flip = c /\ previousInFace t' b = flip.
Proof.
  intros Hinj Hin Hnd Hfaces t'.
  pose proof Hfaces as (Hab & Hbf & Hfa & Hcd & Hdf & Hfc).
  assert (Hnext : forall h, faces t' h = nextInFace t' h) by reflexivity.
  assert (Hedges : halfEdges t' = halfEdges t) by reflexivity.
  split_NoDup Hnd.
  unfold previousInFace. rewrite Hedges.
  repeat split;
    (apply preimage_unique;
     [ apply Hin; simpl; tauto
     | rewrite Hnext, (flipFaces_next _ Hfaces); decide_eqb; reflexivity
     | intros h' Hh'; rewrite Hnext, (flipFaces_next _ Hfaces);
       destruct (Z.eqb_spec h' b); [intros; by_distinct|];
       destruct (Z.eqb_spec h' flip); [intros; by_distinct|];
       destruct (Z.eqb_spec h' c); [intros; by_distinct|];
       destruct (Z.eqb_spec h' d); [intros; by_distinct|];
       destruct (Z.eqb_spec h' (- flip)); [intros; by_distinct|];
       destruct (Z.eqb_spec h' a); [intros; by_distinct|];
       unfold nextInFace in *; intros Heq; exfalso;
       match type of Heq with
       | _ = ?tgt =>
           match goal with
           | Hx : faces t ?p = tgt |- _ =>
               assert (E : h' = p)
                 by (apply Hinj;
                     [ exact Hh' | apply Hin; simpl; tauto
                     | rewrite Heq, Hx; reflexivity ]);
               congruence
           end
       end
     ]).
Qed.

(** Away from the two triangles the flip changes nothing, and the half
    edges around a half edge away from them are away from them. *)
Lemma flipFaces_others (t : FlatTriangulationCombinatorial)
    (a b flip c d : HalfEdge) (x : HalfEdge) :
  injective t -> ~ In 0 (halfEdges t) ->
  (forall h, In h [a; b; flip; c; d; - flip] -> In h (halfEdges t)) ->
  facesAt t a b flip c d ->
  In x (halfEdges t) -> ~ In x [a; b; flip; c; d; - flip] ->
  let t' := Collapsed.flipFaces t flip in
  nextInFace t' x = nextInFace t x
  /\ previousInFace t' x = previousInFace t x
  /\ ~ In (nextInFace t x) [a; b; flip; c; d; - flip]
  /\ ~ In (previousInFace t x) [a; b; flip; c; d; - flip].
Proof.
  intros Hinj Hzero Hin Hfaces Hx Hnot t'.
  pose proof Hfaces as (Hab & Hbf & Hfa & Hcd & Hdf & Hfc).
  unfold nextInFace in Hab, Hbf, Hfa, Hcd, Hdf, Hfc.
  assert (Hxa : x <> a) by (intros ->; apply Hnot; simpl; tauto).
  assert (Hxb : x <> b) by (intros ->; apply Hnot; simpl; tauto).
  assert (Hxf : x <> flip) by (intros ->; apply Hnot; simpl; tauto).
  assert (Hxc : x <> c) by (intros ->; apply Hnot; simpl; tauto).
  assert (Hxd : x <> d) by (intros ->; apply Hnot; simpl; tauto).
  assert (Hxm : x <> - flip) by (intros ->; apply Hnot; simpl; tauto).
  assert (Himage : forall h, In h [a; b; flip; c; d; - flip] ->
                     faces t h <> x).
  { intros h Hh. simpl in Hh.
    repeat (destruct Hh as [<-|Hh]; [congruence|]). contradiction. }
  split; [|split; [|split]].
  - rewrite (flipFaces_next _ Hfaces).
    apply Z.eqb_neq in Hxa, Hxb, Hxf, Hxc, Hxd, Hxm.
    now rewrite Hxa, Hxb, Hxf, Hxc, Hxd, Hxm.
  - unfold previousInFace.
    change (halfEdges t') with (halfEdges t).
    symmetry. apply preimage_ext. intros h Hh.
    change (faces t' h) with (nextInFace t' h).
    rewrite (flipFaces_next _ Hfaces).
    destruct (Z.eqb_spec h b) as [->|Hhb];
      [rewrite Hbf; apply Z.eqb_neq in Hxf, Hxc;
       rewrite Z.eqb_sym, Hxf, Z.eqb_sym, Hxc; reflexivity|].
    destruct (Z.eqb_spec h flip) as [->|Hhf];
      [rewrite Hfa; apply Z.eqb_neq in Hxa, Hxb;
       rewrite Z.eqb_sym, Hxa, Z.eqb_sym, Hxb; reflexivity|].
    destruct (Z.eqb_spec h c) as [->|Hhc];
      [rewrite Hcd; apply Z.eqb_neq in Hxd, Hxf;
       rewrite Z.eqb_sym, Hxd, Z.eqb_sym, Hxf; reflexivity|].
    destruct (Z.eqb_spec h d) as [->|Hhd];
      [rewrite Hdf; apply Z.eqb_neq in Hxm, Hxa;
       rewrite Z.eqb_sym, Hxm, Z.eqb_sym, Hxa; reflexivity|].
    destruct (Z.eqb_spec h (- flip)) as [->|Hhm];
      [rewrite Hfc; apply Z.eqb_neq in Hxc, Hxd;
       rewrite Z.eqb_sym, Hxc, Z.eqb_sym, Hxd; reflexivity|].
    destruct (Z.eqb_spec h a) as [->|Hha];
      [rewrite Hab; apply Z.eqb_neq in Hxb, Hxm;
       rewrite Z.eqb_sym, Hxb, Z.eqb_sym, Hxm; reflexivity|].
    reflexivity.
  - unfold nextInFace. intros Hnext. apply Hnot.
    assert (Hpre : exists p, In p [a; b; flip; c; d; - flip]
                             /\ faces t p = faces t x).
    { simpl in Hnext.
      destruct Hnext as [E|[E|[E|[E|[E|[E|[]]]]]]]; rewrite <- E.
      - exists flip. simpl. tauto.
      - exists a. simpl. tauto.
      - exists b. simpl. tauto.
      - exists (- flip). simpl. tauto.
      - exists c. simpl. tauto.
      - exists d. simpl. tauto. }
    destruct Hpre as (p & Hp & Heq).
    apply Hinj in Heq; [now subst|now apply Hin|exact Hx].
  - intros Hprev.
    destruct (preimage_cases (halfEdges t) (faces t) x) as [[_ Himg]|Hz].
    + fold (previousInFace t x) in Himg. now apply (Himage _ Hprev).
    + fold (previousInFace t x) in Hz. rewrite Hz in Hprev.
      apply Hzero. now apply Hin.
Qed.

Lemma closed_rotate (x y z : Vector) :
  Vec.add (Vec.add x y) z = Vec.zero -> Vec.add (Vec.add y z) x = Vec.zero.
Proof. intros Hc. coordinates; lia. Qed.

Lemma closed_opposite (x y : Vector) :
  Vec.add (Vec.add x (Vec.opp (Vec.add y x))) y = Vec.zero.
Proof. coordinates; lia. Qed.

Lemma closed_asserted (f b c : Vector) :
  Vec.opp f = Vec.add b c -> Vec.add (Vec.add c f) b = Vec.zero.
Proof. intros Hc. coordinates; lia. Qed.

Lemma Vec_cross_zero_l (u : Vector) : Vec.cross Vec.zero u = 0.
Proof. destruct u. unfold Vec.cross. simpl. lia. Qed.

Section FlipArea.

Context {SC : Type} `{Connection SC} `{@Collapsed.Collaborators SC}.

Abbreviation Surface := (@Collapsed.Surface SC).

Lemma sumOver_six (f : HalfEdge -> Z) (a b flip c d : HalfEdge) :
  sumOver f [a; b; flip; c; d; - flip]
  = f a + f b + f flip + f c + f d + f (- flip).
Proof. simpl. lia. Qed.

(** The flip of an edge between two triangles whose vectors close, on a
    surface whose hidden connections are vertical, keeps the sum of the
    area loop. *)
Lemma flip_area (s s' : Surface) (a b flip c d : HalfEdge) :
  areaOfTriangles -> @ConnectionLaws SC _ -> equalVectors ->
  let t := Collapsed.combinatorial s in
  let v := fun h => vector (Collapsed.fromEdge s h) in
  NoDup (halfEdges t) -> ~ In 0 (halfEdges t) -> injective t ->
  (forall h, In h [a; b; flip; c; d; - flip; - b; - d] ->
             In h (halfEdges t)) ->
  NoDup [a; b; flip; c; d; - flip] ->
  facesAt t a b flip c d ->
  Collapsed.vertical s <> Vec.zero ->
  hiddenVertical s ->
  oddAcross s b -> oddAcross s d ->
  Vec.add (Vec.add (v a) (v b)) (v flip) = Vec.zero ->
  Vec.add (Vec.add (v c) (v d)) (v (- flip)) = Vec.zero ->
  Collapsed.flipCombinatorial s flip = Ok s' ->
  totalArea s' = totalArea s /\ closedFace s' a /\ closedFace s' c.
Proof.
  intros Harea Hlaws Hequal t v Hnodup Hzero Hinj Hin8 Hnd Hfaces Hvert
         Hhidden Hob Hod Hface Hmface Hflip.
  assert (Hin : forall h, In h [a; b; flip; c; d; - flip] ->
                          In h (halfEdges t)).
  { intros h Hh. apply Hin8. simpl in *. tauto. }
  assert (Hinb : In (- b) (halfEdges t)) by (apply Hin8; simpl; tauto).
  assert (Hind : In (- d) (halfEdges t)) by (apply Hin8; simpl; tauto).
  assert (Hnz : forall k, In k [a; b; flip; c; d; - flip] -> k <> 0).
  { intros k Hk ->. apply Hzero. now apply Hin. }
  assert (Hbnz : b <> 0) by (apply Hnz; simpl; tauto).
  assert (Hdnz : d <> 0) by (apply Hnz; simpl; tauto).
  assert (Hfnz : flip <> 0) by (apply Hnz; simpl; tauto).
  clear Hin8 Hnz.
  set (t' := Collapsed.flipFaces t flip).
  set (s0 := Collapsed.withCombinatorial s t').
  unfold Collapsed.flipCombinatorial in Hflip. fold t t' s0 in Hflip.
  destruct (@flipFaces_gadget t a b flip c d Hinj Hin Hnd Hfaces)
    as (Hga & Hgb & Hgc & Hgd).
  fold t' in Hga, Hgb, Hgc, Hgd.
  pose proof (@updateAfterFlip_effect _ _ s0 s' a b flip c d
                Hnd Hga Hgb Hgc Hgd Hflip) as Heffect.
  cbv zeta in Heffect.
  change (Collapsed.collapsedHalfEdges s0)
    with (Collapsed.collapsedHalfEdges s) in Heffect.
  change (Collapsed.vectors s0) with (Collapsed.vectors s) in Heffect.
  change (Collapsed.combinatorial s0) with t' in Heffect.
  destruct Heffect as (Hvb & Hvd & Hhb & Hhd & Hhf & Hhmf & Hvf & Hvmf
                       & Hassert & Hvo & Hho & Hcomb).
  destruct (@updateAfterFlip_perpendicular _ _ s0 s' flip
              Hlaws Hhidden Hflip) as [Hperp _].
  assert (Hvertical : Collapsed.vertical s' = Collapsed.vertical s).
  { apply updateAfterFlip_frame in Hflip. symmetry. apply Hflip. }
  (* the vectors *)
  set (va := v a) in *. set (vb := v b) in *. set (vc := v c) in *.
  set (vd := v d) in *. set (ve := v flip) in *. set (vme := v (- flip)) in *.
  set (h := vectorSum (Collapsed.collapsedHalfEdges s flip)).
  set (hm := vectorSum (Collapsed.collapsedHalfEdges s (- flip))).
  set (v' := fun k => vector (Collapsed.fromEdge s' k)).
  assert (Hh : Vec.cross h (Collapsed.vertical s) = 0).
  { apply vectorSum_vertical. intros k Hk. exact (Hhidden _ _ Hk). }
  assert (Hhm : Vec.cross hm (Collapsed.vertical s) = 0).
  { apply vectorSum_vertical. intros k Hk. exact (Hhidden _ _ Hk). }
  assert (Hvb' : v' b = Vec.add vb h).
  { unfold v', Collapsed.fromEdge. rewrite Hvb.
    now rewrite vector_fold_sum. }
  assert (Hvd' : v' d = Vec.add vd hm).
  { unfold v', Collapsed.fromEdge. rewrite Hvd.
    now rewrite vector_fold_sum. }
  split_NoDup Hnd.
  assert (Hva' : v' a = va).
  { unfold v', Collapsed.fromEdge. rewrite Hvo; [reflexivity|by_distinct..]. }
  assert (Hvc' : v' c = vc).
  { unfold v', Collapsed.fromEdge. rewrite Hvo; [reflexivity|by_distinct..]. }
  assert (Hvf' : v' flip = Vec.add (Vec.add vd hm) va).
  { unfold v' at 1. unfold Collapsed.fromEdge. rewrite Hvf.
    unfold Collapsed.sum. rewrite vector_connect.
    change (vector (Collapsed.vectors s' d)) with (v' d).
    change (vector (Collapsed.vectors s' a)) with (v' a).
    now rewrite Hvd', Hva'. }
  assert (Hvmf' : v' (- flip) = Vec.opp (Vec.add (Vec.add vd hm) va)).
  { unfold v' at 1. unfold Collapsed.fromEdge. rewrite Hvmf, vector_negate.
    change (vector (Collapsed.vectors s' flip)) with (v' flip).
    now rewrite Hvf'. }
  assert (Hclosed : Vec.opp (Vec.add (Vec.add vd hm) va)
                    = Vec.add (Vec.add vb h) vc).
  { apply Hequal in Hassert. unfold Collapsed.sum in Hassert.
    rewrite vector_connect in Hassert.
    change (vector (Collapsed.vectors s' (- flip))) with (v' (- flip))
      in Hassert.
    change (vector (Collapsed.vectors s' b)) with (v' b) in Hassert.
    change (vector (Collapsed.vectors s' c)) with (v' c) in Hassert.
    now rewrite Hvmf', Hvb', Hvc' in Hassert. }
  (* the faces before the flip *)
  pose proof Hfaces as (Hab & Hbf & Hfa & Hcd & Hdf & Hfc).
  destruct (@facesAt_previous t a b flip c d Hinj Hin Hfaces)
    as (Hpa & Hpb & Hpf & Hpc & Hpd & Hpm).
  assert (Hterm : forall x y z : HalfEdge,
            nextInFace t x = y -> previousInFace t x = z -> y <> z ->
            Vec.add (Vec.add (v x) (v y)) (v z) = Vec.zero ->
            faceTerm s x = Vec.cross (v x) (v y)).
  { intros x y z Hy Hz Hyz Hc. unfold faceTerm. fold t. rewrite Hy, Hz.
    apply Z.eqb_neq in Hyz. rewrite Hyz. cbn [negb]. now apply Harea. }
  assert (Fa : faceTerm s a = Vec.cross va vb)
    by (apply (Hterm a b flip); [assumption..|by_distinct|exact Hface]).
  assert (Fb : faceTerm s b = Vec.cross vb ve)
    by (apply (Hterm b flip a); [assumption..|by_distinct|];
        apply closed_rotate; exact Hface).
  assert (Ff : faceTerm s flip = Vec.cross ve va)
    by (apply (Hterm flip a b); [assumption..|by_distinct|];
        do 2 apply closed_rotate; exact Hface).
  assert (Fc : faceTerm s c = Vec.cross vc vd)
    by (apply (Hterm c d (- flip)); [assumption..|by_distinct|exact Hmface]).
  assert (Fd : faceTerm s d = Vec.cross vd vme)
    by (apply (Hterm d (- flip) c); [assumption..|by_distinct|];
        apply closed_rotate; exact Hmface).
  assert (Fm : faceTerm s (- flip) = Vec.cross vme vc)
    by (apply (Hterm (- flip) c d); [assumption..|by_distinct|];
        do 2 apply closed_rotate; exact Hmface).
  (* the faces after the flip *)
  assert (Hnd6 : NoDup [a; b; flip; c; d; - flip]).
  { repeat (apply NoDup_cons; [simpl; intros Hor|]);
      [repeat (destruct Hor as [Heq|Hor]; [exfalso; by_distinct|]);
       exact Hor .. | apply NoDup_nil]. }
  destruct (@flipFaces_faces t a b flip c d Hnd6 Hfaces)
    as (Hna' & Hnm' & Hnd' & Hnc' & Hnf' & Hnb').
  destruct (@flipFaces_previous t a b flip c d Hinj Hin Hnd6 Hfaces)
    as (Hpa' & Hpm' & Hpd' & Hpc' & Hpf' & Hpb').
  fold t' in Hna', Hnm', Hnd', Hnc', Hnf', Hnb',
             Hpa', Hpm', Hpd', Hpc', Hpf', Hpb'.
  assert (Hterm' : forall x y z : HalfEdge,
            nextInFace t' x = y -> previousInFace t' x = z -> y <> z ->
            Vec.add (Vec.add (v' x) (v' y)) (v' z) = Vec.zero ->
            faceTerm s' x = Vec.cross (v' x) (v' y)).
  { intros x y z Hy Hz Hyz Hc. unfold faceTerm. rewrite Hcomb, Hy, Hz.
    apply Z.eqb_neq in Hyz. rewrite Hyz. cbn [negb]. now apply Harea. }
  set (vb' := Vec.add vb h) in *.
  set (vd' := Vec.add vd hm) in *.
  set (vf := Vec.add vd' va) in *.
  assert (Hright : Vec.add (Vec.add va (Vec.opp vf)) vd' = Vec.zero)
    by apply closed_opposite.
  assert (Hleft : Vec.add (Vec.add vc vf) vb' = Vec.zero)
    by (apply closed_asserted; exact Hclosed).
  assert (Fa' : faceTerm s' a = Vec.cross va (Vec.opp vf)).
  { rewrite (Hterm' a (- flip) d); [|assumption|assumption|by_distinct|].
    - now rewrite Hva', Hvmf'.
    - rewrite Hva', Hvmf', Hvd'. exact Hright. }
  assert (Fm' : faceTerm s' (- flip) = Vec.cross (Vec.opp vf) vd').
  { rewrite (Hterm' (- flip) d a); [|assumption|assumption|by_distinct|].
    - now rewrite Hvd', Hvmf'.
    - rewrite Hva', Hvmf', Hvd'. apply closed_rotate. exact Hright. }
  assert (Fd' : faceTerm s' d = Vec.cross vd' va).
  { rewrite (Hterm' d a (- flip)); [|assumption|assumption|by_distinct|].
    - now rewrite Hvd', Hva'.
    - rewrite Hva', Hvmf', Hvd'. do 2 apply closed_rotate. exact Hright. }
  assert (Fc' : faceTerm s' c = Vec.cross vc vf).
  { rewrite (Hterm' c flip b); [|assumption|assumption|by_distinct|].
    - now rewrite Hvc', Hvf'.
    - rewrite Hvc', Hvf', Hvb'. exact Hleft. }
  assert (Ff' : faceTerm s' flip = Vec.cross vf vb').
  { rewrite (Hterm' flip b c); [|assumption|assumption|by_distinct|].
    - now rewrite Hvf', Hvb'.
    - rewrite Hvc', Hvf', Hvb'. apply closed_rotate. exact Hleft. }
  assert (Fb' : faceTerm s' b = Vec.cross vb' vc).
  { rewrite (Hterm' b c flip); [|assumption|assumption|by_distinct|].
    - now rewrite Hvb', Hvc'.
    - rewrite Hvc', Hvf', Hvb'. do 2 apply closed_rotate. exact Hleft. }
  (* away from the two triangles *)
  assert (Hsame : forall y, ~ In y [a; b; flip; c; d; - flip] ->
            Collapsed.fromEdge s' y = Collapsed.fromEdge s y).
  { intros y Hy. unfold Collapsed.fromEdge.
    apply Hvo; intros ->; apply Hy; simpl; tauto. }
  assert (Hfar : forall x, In x (halfEdges t) ->
            ~ In x [a; b; flip; c; d; - flip] ->
            faceTerm s' x - faceTerm s x = 0).
  { intros x Hx Hnot.
    destruct (@flipFaces_others t a b flip c d x Hinj Hzero Hin Hfaces
                Hx Hnot) as (Hn & Hp & Hnn & Hpn).
    fold t' in Hn, Hp.
    unfold faceTerm. rewrite Hcomb. fold t. rewrite Hn, Hp.
    rewrite (Hsame x Hnot), (Hsame _ Hnn), (Hsame _ Hpn). lia. }
  assert (HA : sumOver (faceTerm s') (halfEdges t)
               - sumOver (faceTerm s) (halfEdges t)
               = sumOver (fun x => faceTerm s' x - faceTerm s x)
                         [a; b; flip; c; d; - flip]).
  { rewrite <- sumOver_sub.
    apply sumOver_support; [exact Hnodup|exact Hnd6| |exact Hfar].
    intros x Hx. now apply Hin. }
  rewrite sumOver_six in HA.
  rewrite Fa, Fb, Ff, Fc, Fd, Fm, Fa', Fb', Ff', Fc', Fd', Fm' in HA.
  (* the hidden connections *)
  assert (Hvertical' : forall x, x <> flip -> x <> - flip ->
            Vec.cross (Vec.sub (v' x) (v x)) (Collapsed.vertical s) = 0).
  { intros x Hxf Hxm. specialize (Hperp x Hxf Hxm).
    unfold Collapsed.perpendicular in Hperp.
    rewrite Hvertical in Hperp.
    change (Collapsed.vertical s0) with (Collapsed.vertical s) in Hperp.
    change (Collapsed.vectors s0) with (Collapsed.vectors s) in Hperp.
    change (vector (Collapsed.vectors s' x)) with (v' x) in Hperp.
    change (vector (Collapsed.vectors s x)) with (v x) in Hperp.
    revert Hperp. generalize (v' x) (v x) (Collapsed.vertical s).
    intros p q w Hperp. coordinates. lia. }
  assert (Hsums : forall k, Vec.cross
                    (vectorSum (Collapsed.collapsedHalfEdges s k))
                    (Collapsed.vertical s) = 0).
  { intros k. apply vectorSum_vertical. intros k' Hk'.
    exact (Hhidden _ _ Hk'). }
  assert (Hmove : forall (l : list SC) x, x <> flip -> x <> - flip ->
            Vec.cross (vectorSum l) (Collapsed.vertical s) = 0 ->
            Vec.cross (vectorSum l) (v' x) = Vec.cross (vectorSum l) (v x)).
  { intros l x Hxf Hxm Hl.
    pose proof (@Vec_cross_parallel _ _ _ Hvert Hl (Hvertical' x Hxf Hxm))
      as Hz.
    revert Hz. generalize (vectorSum l) (v' x) (v x).
    intros p q r Hz. coordinates. lia. }
  assert (HB : forall x,
            hiddenTerm s' x
            = hiddenTerm s x
              - (if x =? flip then hiddenTerm s x else 0)
              - (if x =? - flip then hiddenTerm s x else 0)
              + (if x =? - b then 3 * Vec.cross h (v x) else 0)
              + (if x =? - d then 3 * Vec.cross hm (v x) else 0)).
  { intros x.
    rewrite (hiddenTerm_cross s' x Harea Hlaws).
    rewrite (hiddenTerm_cross s x Harea Hlaws).
    unfold Collapsed.cross.
    change (vector (Collapsed.fromEdge s' x)) with (v' x).
    change (vector (Collapsed.fromEdge s x)) with (v x).
    destruct (Z.eqb_spec x flip) as [->|Hxf].
    { rewrite Hhf. decide_eqb.
      change (vectorSum []) with Vec.zero. rewrite Vec_cross_zero_l. lia. }
    destruct (Z.eqb_spec x (- flip)) as [->|Hxm].
    { rewrite Hhmf. decide_eqb.
      change (vectorSum []) with Vec.zero. rewrite Vec_cross_zero_l. lia. }
    destruct (Z.eqb_spec x (- b)) as [->|Hxb].
    { rewrite Hhb. decide_eqb.
      rewrite Hmove by
        (try assumption; rewrite vectorSum_app, Vec_cross_add_l, !Hsums;
         reflexivity).
      rewrite vectorSum_app, Vec_cross_add_l. fold h. lia. }
    destruct (Z.eqb_spec x (- d)) as [->|Hxd].
    { rewrite Hhd.
      rewrite Hmove by
        (try assumption; rewrite vectorSum_app, Vec_cross_add_l, !Hsums;
         reflexivity).
      rewrite vectorSum_app, Vec_cross_add_l. fold hm. lia. }
    rewrite Hho by assumption.
    rewrite Hmove by (try assumption; apply Hsums). lia. }
  (* the sums *)
  assert (Hoddb : Vec.cross (Vec.add (v (- b)) vb) (Collapsed.vertical s) = 0).
  { unfold oddAcross, Collapsed.perpendicular in Hob.
    rewrite Vec_cross_add_l. fold (v (- b)) (v b) in Hob. fold vb in Hob.
    lia. }
  assert (Hoddd : Vec.cross (Vec.add (v (- d)) vd) (Collapsed.vertical s) = 0).
  { unfold oddAcross, Collapsed.perpendicular in Hod.
    rewrite Vec_cross_add_l. fold (v (- d)) (v d) in Hod. fold vd in Hod.
    lia. }
  pose proof (@flip_area_core va vb vc vd ve vme h hm (v (- b)) (v (- d))
                (Collapsed.vertical s) Hface Hmface Hclosed Hvert Hh Hhm
                Hoddb Hoddd) as Hcore.
  cbv zeta in Hcore. fold vb' vd' in Hcore. fold vf in Hcore.
  assert (Hhf0 : hiddenTerm s flip = 3 * Vec.cross h ve)
    by (rewrite (hiddenTerm_cross s flip Harea Hlaws); reflexivity).
  assert (Hhm0 : hiddenTerm s (- flip) = 3 * Vec.cross hm vme)
    by (rewrite (hiddenTerm_cross s (- flip) Harea Hlaws); reflexivity).
  assert (HBsum : sumOver (hiddenTerm s') (halfEdges t)
                  = sumOver (hiddenTerm s) (halfEdges t)
                    - hiddenTerm s flip - hiddenTerm s (- flip)
                    + 3 * Vec.cross h (v (- b))
                    + 3 * Vec.cross hm (v (- d))).
  { rewrite (sumOver_ext _ _ _ (fun x _ => HB x)).
    rewrite !sumOver_add, !sumOver_sub.
    rewrite (sumOver_at (hiddenTerm s) flip Hnodup)
      by (apply Hin; simpl; tauto).
    rewrite (sumOver_at (hiddenTerm s) (- flip) Hnodup)
      by (apply Hin; simpl; tauto).
    rewrite (sumOver_at (fun x => 3 * Vec.cross h (v x)) (- b) Hnodup Hinb).
    rewrite (sumOver_at (fun x => 3 * Vec.cross hm (v x)) (- d) Hnodup Hind).
    reflexivity. }
  split; [|split].
  - unfold totalArea. rewrite !areaLoop_sum. rewrite Hcomb.
    change (halfEdges t') with (halfEdges t).
    change (boundary t') with (boundary t). fold t.
    destruct (existsb (boundary t) (halfEdges t)); [reflexivity|].
    f_equal. rewrite !sumOver_add. lia.
  - unfold closedFace. cbv zeta. rewrite Hcomb, Hna', Hnm'.
    change (vector (Collapsed.fromEdge s' a)) with (v' a).
    change (vector (Collapsed.fromEdge s' (- flip))) with (v' (- flip)).
    change (vector (Collapsed.fromEdge s' d)) with (v' d).
    rewrite Hva', Hvmf', Hvd'. exact Hright.
  - unfold closedFace. cbv zeta. rewrite Hcomb, Hnc', Hnf'.
    change (vector (Collapsed.fromEdge s' c)) with (v' c).
    change (vector (Collapsed.fromEdge s' flip)) with (v' flip).
    change (vector (Collapsed.fromEdge s' b)) with (v' b).
    rewrite Hvc', Hvf', Hvb'. exact Hleft.
Qed.

End FlipArea.

(** *** The update before a collapse hands the area on *)

(** Shifting a vector along the vertical does not change its cross product
    with a vertical vector. *)
Lemma Vec_cross_shift (p w w' vertical : Vector) :
  vertical <> Vec.zero ->
  Vec.cross p vertical = 0 ->
  Vec.cross (Vec.sub w w') vertical = 0 ->
  Vec.cross p w = Vec.cross p w'.
Proof.
  intros Hv Hp Hw.
  pose proof (@Vec_cross_parallel _ _ _ Hv Hp Hw) as Hz.
  coordinates. lia.
Qed.

(** What the two triangles at the collapsed edge and the connections
    hidden in their outer half edges add to the area: [vm] is the vector of
    [-collapse], [na], ..., [nd] are the vectors of [-a], ..., [-d] and
    [ha], ..., [hd], [hna], ..., [hnd] the sums of the hidden
    connections. *)
Lemma collapse_area_core
    (va vb vc vd vp vm na nb nc nd ha hb hc hd vertical : Vector) :
  Vec.add (Vec.add va vm) vd = Vec.zero ->
  Vec.add (Vec.add vc vp) vb = Vec.zero ->
  vm = Vec.opp vp ->
  vertical <> Vec.zero ->
  Vec.cross vp vertical = 0 ->
  Vec.cross ha vertical = 0 -> Vec.cross hb vertical = 0 ->
  Vec.cross hc vertical = 0 -> Vec.cross hd vertical = 0 ->
  Vec.cross (Vec.add na va) vertical = 0 ->
  Vec.cross (Vec.add nb vb) vertical = 0 ->
  Vec.cross (Vec.add nc vc) vertical = 0 ->
  Vec.cross (Vec.add nd vd) vertical = 0 ->
  Vec.cross (Vec.add vm hd) na
  = Vec.cross hd vd
    + Vec.cross vm vd
  /\ Vec.cross vm vd = Vec.cross va vm
  /\ Vec.cross vm vd = Vec.cross vd va
  /\ Vec.cross (Vec.add vp hb) nc
     = Vec.cross hb vb + Vec.cross vp vb
  /\ Vec.cross vp vb = Vec.cross vc vp
  /\ Vec.cross vp vb = Vec.cross vb vc
  /\ Vec.cross ha nd = Vec.cross ha va
  /\ Vec.cross hc nb = Vec.cross hc vc.
Proof.
  intros Hright Hleft Hopp Hv Hp Hha Hhb Hhc Hhd Hoa Hob Hoc Hod.
  assert (Hm : Vec.cross vm vertical = 0).
  { rewrite Hopp, Vec_cross_opp_l. lia. }
  assert (Sna : Vec.cross (Vec.sub na vd) vertical = 0).
  { clear - Hright Hoa Hm. revert Hoa Hm.
    rewrite !Vec_cross_add_l. intros Hoa Hm.
    assert (E : Vec.sub na vd = Vec.add (Vec.add na va) vm)
      by (coordinates; lia).
    rewrite E, !Vec_cross_add_l. lia. }
  assert (Snc : Vec.cross (Vec.sub nc vb) vertical = 0).
  { clear - Hleft Hoc Hp. revert Hoc.
    rewrite !Vec_cross_add_l. intros Hoc.
    assert (E : Vec.sub nc vb = Vec.add (Vec.add nc vc) vp)
      by (coordinates; lia).
    rewrite E, !Vec_cross_add_l. lia. }
  assert (Snd : Vec.cross (Vec.sub nd va) vertical = 0).
  { clear - Hright Hod Hm. revert Hod.
    rewrite !Vec_cross_add_l. intros Hod.
    assert (E : Vec.sub nd va = Vec.add (Vec.add nd vd) vm)
      by (coordinates; lia).
    rewrite E, !Vec_cross_add_l. lia. }
  assert (Snb : Vec.cross (Vec.sub nb vc) vertical = 0).
  { clear - Hleft Hob Hp. revert Hob.
    rewrite !Vec_cross_add_l. intros Hob.
    assert (E : Vec.sub nb vc = Vec.add (Vec.add nb vb) vp)
      by (coordinates; lia).
    rewrite E, !Vec_cross_add_l. lia. }
  assert (Hmhd : Vec.cross (Vec.add vm hd) vertical = 0)
    by (rewrite Vec_cross_add_l; lia).
  assert (Hphb : Vec.cross (Vec.add vp hb) vertical = 0)
    by (rewrite Vec_cross_add_l; lia).
  repeat split.
  - rewrite (@Vec_cross_shift _ na vd vertical Hv Hmhd Sna).
    rewrite Vec_cross_add_l. lia.
  - clear - Hright. coordinates. lia.
  - clear - Hright. coordinates. lia.
  - rewrite (@Vec_cross_shift _ nc vb vertical Hv Hphb Snc).
    rewrite Vec_cross_add_l. lia.
  - clear - Hleft. coordinates. lia.
  - clear - Hleft. coordinates. lia.
  - exact (@Vec_cross_shift _ nd va vertical Hv Hha Snd).
  - exact (@Vec_cross_shift _ nb vc vertical Hv Hhc Snb).
Qed.

Section CollapseArea.

Context {SC : Type} `{Connection SC} `{@Collapsed.Collaborators SC}.

Abbreviation Surface := (@Collapsed.Surface SC).

Lemma collapseFaces_previous (t : FlatTriangulationCombinatorial)
    (a b c d collapse : HalfEdge) :
  injective t ->
  (forall h, In h [a; - collapse; d; c; collapse; b] ->
             In h (halfEdges t)) ->
  collapseFaces t a b c d collapse ->
  nextInFace t (- collapse) = d /\ nextInFace t collapse = b
  /\ previousInFace t a = d /\ previousInFace t (- collapse) = a
  /\ previousInFace t d = - collapse /\ previousInFace t c = b
  /\ previousInFace t collapse = c /\ previousInFace t b = collapse.
Proof.
  intros Hinj Hin (Hgadget & Hna & Hnd & Hnc & Hnb).
  unfold gadget in Hgadget. injection Hgadget as Hpm Hb Hpc Hd.
  split; [exact Hd|]. split; [exact Hb|].
  unfold previousInFace, nextInFace in *.
  repeat split;
    try (apply preimage_unique;
         [apply Hin; simpl; tauto
         | assumption
         | intros h' Hh' Heq; apply Hinj;
           [exact Hh' | apply Hin; simpl; tauto | congruence]]).
Qed.

(** The update before the collapse of an edge whose outer half edges are
    distinct: the area of the two triangles at the edge has gone into the
    connections hidden in [-a] and [-c]. *)
Lemma collapse_area (s s1 : Surface) (collapse_ a b c d : HalfEdge) :
  areaOfTriangles -> @ConnectionLaws SC _ -> equalVectors ->
  let t := Collapsed.combinatorial s in
  let collapse := oriented s collapse_ in
  let v := fun h => vector (Collapsed.fromEdge s h) in
  injective t ->
  (forall h, In h [a; - collapse; d; c; collapse; b] ->
             In h (halfEdges t)) ->
  collapseFaces t a b c d collapse ->
  NoDup [a; - collapse; d; c; collapse; b] ->
  NoDup [a; b; c; d; - a; - b; - c; - d] ->
  Collapsed.vertical s <> Vec.zero ->
  hiddenVertical s ->
  oddAcross s a -> oddAcross s b -> oddAcross s c -> oddAcross s d ->
  Vec.add (Vec.add (v a) (v (- collapse))) (v d) = Vec.zero ->
  Vec.add (Vec.add (v c) (v collapse)) (v b) = Vec.zero ->
  Collapsed.updateBeforeCollapse s collapse_ = Ok s1 ->
  hiddenTerm s1 (- a)
  = hiddenTerm s (- a) + hiddenTerm s d
    + (faceTerm s a + faceTerm s (- collapse) + faceTerm s d)
  /\ hiddenTerm s1 (- c)
     = hiddenTerm s (- c) + hiddenTerm s b
       + (faceTerm s c + faceTerm s collapse + faceTerm s b)
  /\ hiddenTerm s1 (- d) = hiddenTerm s (- d) + hiddenTerm s a
  /\ hiddenTerm s1 (- b) = hiddenTerm s (- b) + hiddenTerm s c.
Proof.
  intros Harea Hlaws Hequal t collapse v Hinj Hin Hfaces Hnd6 Hnd8 Hvert
         Hhidden Hoa Hob Hoc Hod Hright Hleft Hupd.
  destruct (@collapseFaces_previous t a b c d collapse Hinj Hin Hfaces)
    as (Hnm & Hnp & Hpa & Hpm & Hpd & Hpc & Hpp & Hpb).
  pose proof Hfaces as (Hgadget & Hna & Hnd & Hnc & Hnb).
  apply updateBeforeCollapse_Ok in Hupd. cbv zeta in Hupd.
  fold t collapse in Hupd. rewrite Hgadget in Hupd.
  destruct Hupd as (Hpar & Hopp & Hreroute).
  rewrite (@reroute_distinct _ _ _ a b c d Hnd8) in Hreroute.
  injection Hreroute as Hs1.
  (* the vectors *)
  apply Hequal in Hopp. rewrite vector_negate in Hopp.
  change (vector (Collapsed.vectors s collapse)) with (v collapse) in Hopp.
  change (vector (Collapsed.vectors s (- collapse))) with (v (- collapse))
    in Hopp.
  symmetry in Hopp.
  assert (Hp : Vec.cross (v collapse) (Collapsed.vertical s) = 0).
  { unfold Collapsed.parallel, Collapsed.perpendicular in Hpar.
    apply Z.eqb_eq in Hpar.
    change (vector (Collapsed.fromEdge s (Z.abs collapse_)))
      with (v (Z.abs collapse_)) in Hpar.
    assert (Hcases : collapse = Z.abs collapse_
                     \/ - collapse = Z.abs collapse_).
    { unfold collapse, oriented. destruct (_ <? 0); [right; lia|now left]. }
    destruct Hcases as [E|E].
    - rewrite E. exact Hpar.
    - rewrite <- E, Hopp, Vec_cross_opp_l in Hpar. lia. }
  set (va := v a) in *. set (vb := v b) in *. set (vc := v c) in *.
  set (vd := v d) in *. set (vp := v collapse) in *.
  set (vm := v (- collapse)) in *.
  set (hidden := Collapsed.collapsedHalfEdges s) in *.
  assert (Hsums : forall k, Vec.cross (vectorSum (hidden k))
                                      (Collapsed.vertical s) = 0).
  { intros k. apply vectorSum_vertical. intros k' Hk'.
    exact (Hhidden _ _ Hk'). }
  assert (Hodd : forall k, oddAcross s k ->
            Vec.cross (Vec.add (v (- k)) (v k)) (Collapsed.vertical s) = 0).
  { intros k Hk. unfold oddAcross, Collapsed.perpendicular in Hk.
    rewrite Vec_cross_add_l. fold (v (- k)) (v k) in Hk. lia. }
  destruct (@collapse_area_core va vb vc vd vp vm
              (v (- a)) (v (- b)) (v (- c)) (v (- d))
              (vectorSum (hidden a)) (vectorSum (hidden b))
              (vectorSum (hidden c)) (vectorSum (hidden d))
              (Collapsed.vertical s)
              Hright Hleft Hopp Hvert Hp
              (Hsums a) (Hsums b) (Hsums c) (Hsums d)
              (Hodd a Hoa) (Hodd b Hob) (Hodd c Hoc) (Hodd d Hod))
    as (Ca & Ca1 & Ca2 & Cc & Cc1 & Cc2 & Cd & Cb).
  (* the triangles *)
  split_NoDup Hnd6.
  assert (Hterm : forall x y z : HalfEdge,
            nextInFace t x = y -> previousInFace t x = z -> y <> z ->
            Vec.add (Vec.add (v x) (v y)) (v z) = Vec.zero ->
            faceTerm s x = Vec.cross (v x) (v y)).
  { intros x y z Hy Hz Hyz Hc. unfold faceTerm. fold t. rewrite Hy, Hz.
    apply Z.eqb_neq in Hyz. rewrite Hyz. cbn [negb]. now apply Harea. }
  assert (Fa : faceTerm s a = Vec.cross va vm)
    by (apply (Hterm a (- collapse) d);
        [assumption..|by_distinct|exact Hright]).
  assert (Fm : faceTerm s (- collapse) = Vec.cross vm vd)
    by (apply (Hterm (- collapse) d a); [assumption..|by_distinct|];
        apply closed_rotate; exact Hright).
  assert (Fd : faceTerm s d = Vec.cross vd va)
    by (apply (Hterm d a (- collapse)); [assumption..|by_distinct|];
        do 2 apply closed_rotate; exact Hright).
  assert (Fc : faceTerm s c = Vec.cross vc vp)
    by (apply (Hterm c collapse b);
        [assumption..|by_distinct|exact Hleft]).
  assert (Fp : faceTerm s collapse = Vec.cross vp vb)
    by (apply (Hterm collapse b c); [assumption..|by_distinct|];
        apply closed_rotate; exact Hleft).
  assert (Fb : faceTerm s b = Vec.cross vb vc)
    by (apply (Hterm b c collapse); [assumption..|by_distinct|];
        do 2 apply closed_rotate; exact Hleft).
  rewrite Fa, Fm, Fd, Fc, Fp, Fb.
  (* the hidden connections *)
  rewrite !(fun e => hiddenTerm_cross s e Harea Hlaws).
  rewrite !(fun e => hiddenTerm_cross s1 e Harea Hlaws).
  unfold Collapsed.cross, Collapsed.fromEdge. rewrite <- Hs1.
  split_NoDup Hnd8.
  repeat split; read_stores; fold hidden;
    rewrite ?vectorSum_app;
    change (Collapsed.vectors s collapse) with (Collapsed.fromEdge s collapse);
    repeat match goal with
           | |- context [vectorSum (?c :: ?l)] =>
               change (vectorSum (c :: l))
                 with (Vec.add (vector c) (vectorSum l))
           end;
    rewrite ?vector_negate;
    change (vector (Collapsed.fromEdge s collapse)) with vp;
    rewrite <- ?Hopp;
    repeat match goal with
           | |- context [vector (Collapsed.vectors s ?k)] =>
               change (vector (Collapsed.vectors s k)) with (v k)
           end;
    fold va vb vc vd;
    rewrite ?Vec_cross_add_l in *; lia.
Qed.

End CollapseArea.

Section AreaHooks.

Context {SC : Type} `{Connection SC} `{@Collapsed.Collaborators SC}.

Abbreviation Surface := (@Collapsed.Surface SC).

(** The closed triangles of the invariants, half edge by half edge. *)
Lemma flipInvariants_closed (s : Surface) (a b flip c d : HalfEdge) :
  flipInvariants s a b flip c d ->
  let v := fun h => vector (Collapsed.fromEdge s h) in
  Vec.add (Vec.add (v a) (v b)) (v flip) = Vec.zero
  /\ Vec.add (Vec.add (v c) (v d)) (v (- flip)) = Vec.zero.
Proof.
  intros (_ & _ & _ & _ & _ & Hfaces & _ & _ & _ & _ & Hca & Hcc) v.
  destruct Hfaces as (Hab & Hbf & _ & Hcd & Hdf & _).
  unfold closedFace in Hca, Hcc. cbv zeta in Hca, Hcc.
  rewrite Hab, Hbf in Hca. rewrite Hcd, Hdf in Hcc. now split.
Qed.

Lemma collapseInvariants_closed (s : Surface) (a b c d collapse : HalfEdge) :
  collapseInvariants s a b c d collapse ->
  let v := fun h => vector (Collapsed.fromEdge s h) in
  Vec.add (Vec.add (v a) (v (- collapse))) (v d) = Vec.zero
  /\ Vec.add (Vec.add (v c) (v collapse)) (v b) = Vec.zero.
Proof.
  intros (Hinj & Hin & Hfaces & _ & _ & _ & _ & _ & _ & _ & _ & Hca & Hcc) v.
  destruct (@collapseFaces_previous _ a b c d collapse Hinj Hin Hfaces)
    as (Hnm & Hnp & _).
  destruct Hfaces as (_ & Hna & _ & Hnc & _).
  unfold closedFace in Hca, Hcc. cbv zeta in Hca, Hcc.
  rewrite Hna, Hnm in Hca. rewrite Hnc, Hnp in Hcc. now split.
Qed.

(** After the update the half edges [a], [b], [c], [d] carry the stores of
    [-d], [-c], [-b], [-a]. *)
Lemma collapse_twins (s s1 : Surface) (collapse_ a b c d : HalfEdge) :
  gadget (Collapsed.combinatorial s) (oriented s collapse_) = (a, b, c, d) ->
  NoDup [a; b; c; d; - a; - b; - c; - d] ->
  Collapsed.updateBeforeCollapse s collapse_ = Ok s1 ->
  (Collapsed.fromEdge s1 a = Collapsed.fromEdge s1 (- d)
   /\ Collapsed.cross s1 a = Collapsed.cross s1 (- d))
  /\ (Collapsed.fromEdge s1 b = Collapsed.fromEdge s1 (- c)
      /\ Collapsed.cross s1 b = Collapsed.cross s1 (- c))
  /\ (Collapsed.fromEdge s1 c = Collapsed.fromEdge s1 (- b)
      /\ Collapsed.cross s1 c = Collapsed.cross s1 (- b))
  /\ (Collapsed.fromEdge s1 d = Collapsed.fromEdge s1 (- a)
      /\ Collapsed.cross s1 d = Collapsed.cross s1 (- a)).
Proof.
  intros Hgadget Hnd Hupd.
  apply updateBeforeCollapse_Ok in Hupd. cbv zeta in Hupd.
  rewrite Hgadget in Hupd. destruct Hupd as (_ & _ & Hreroute).
  rewrite (@reroute_distinct _ _ _ a b c d Hnd) in Hreroute.
  injection Hreroute as Hs1.
  unfold Collapsed.fromEdge, Collapsed.cross. rewrite <- Hs1.
  split_NoDup Hnd.
  repeat split; read_stores; reflexivity.
Qed.

(** X14: the flip of an edge between two triangles whose vectors close, on
    a collapsed surface whose hidden connections are vertical, with the
    hook [updateAfterFlip] run, keeps the sum that the area loop of [check]
    compares with the area of the original surface, whatever is hidden in
    the flipped edge; and the vectors of the two new triangles close. *)
Theorem Collapsed_flip_area (s s' : Surface) (a b flip c d : HalfEdge) :
  areaOfTriangles -> @ConnectionLaws SC _ -> equalVectors ->
  flipInvariants s a b flip c d ->
  Collapsed.flipCombinatorial s flip = Ok s' ->
  totalArea s' = totalArea s /\ closedFace s' a /\ closedFace s' c.
Proof.
  intros Harea Hlaws Hequal Hinv Hflip.
  destruct (flipInvariants_closed Hinv) as [Hca Hcc].
  destruct Hinv as (Hnodup & Hzero & Hinj & Hin & Hnd & Hfaces & Hvert
                    & Hhidden & Hob & Hod & _).
  exact (@flip_area _ _ _ s s' a b flip c d Harea Hlaws Hequal
           Hnodup Hzero Hinj Hin Hnd Hfaces Hvert Hhidden Hob Hod
           Hca Hcc Hflip).
Qed.

(** X25: the update before the collapse of a vertical edge between the
    triangles [(a -collapse d)(c collapse b)] whose outer half edges are
    distinct hands the area of the two triangles to the hidden
    connections: afterwards the connections hidden in [-a] add to the area
    what those hidden in [-a] and in [d] and the triangle [(a -collapse d)]
    added before, those hidden in [-c] what those hidden in [-c] and in [b]
    and the triangle [(c collapse b)] added, those hidden in [-d] and [-b]
    what those hidden in [-d] and [a], and in [-b] and [c], added; and the
    half edges [a], [b], [c], [d] carry the vectors and the hidden lists of
    [-d], [-c], [-b], [-a]. *)
Theorem Collapsed_collapse_area (s s1 : Surface)
    (collapse_ a b c d : HalfEdge) :
  areaOfTriangles -> @ConnectionLaws SC _ -> equalVectors ->
  collapseInvariants s a b c d (oriented s collapse_) ->
  Collapsed.updateBeforeCollapse s collapse_ = Ok s1 ->
  let collapse := oriented s collapse_ in
  (hiddenTerm s1 (- a)
   = hiddenTerm s (- a) + hiddenTerm s d
     + (faceTerm s a + faceTerm s (- collapse) + faceTerm s d)
   /\ hiddenTerm s1 (- c)
      = hiddenTerm s (- c) + hiddenTerm s b
        + (faceTerm s c + faceTerm s collapse + faceTerm s b)
   /\ hiddenTerm s1 (- d) = hiddenTerm s (- d) + hiddenTerm s a
   /\ hiddenTerm s1 (- b) = hiddenTerm s (- b) + hiddenTerm s c)
  /\ (Collapsed.fromEdge s1 a = Collapsed.fromEdge s1 (- d)
      /\ Collapsed.cross s1 a = Collapsed.cross s1 (- d))
  /\ (Collapsed.fromEdge s1 b = Collapsed.fromEdge s1 (- c)
      /\ Collapsed.cross s1 b = Collapsed.cross s1 (- c))
  /\ (Collapsed.fromEdge s1 c = Collapsed.fromEdge s1 (- b)
      /\ Collapsed.cross s1 c = Collapsed.cross s1 (- b))
  /\ (Collapsed.fromEdge s1 d = Collapsed.fromEdge s1 (- a)
      /\ Collapsed.cross s1 d = Collapsed.cross s1 (- a)).
Proof.
  intros Harea Hlaws Hequal Hinv Hupd collapse.
  destruct (collapseInvariants_closed Hinv) as [Hca Hcc].
  destruct Hinv as (Hinj & Hin & Hfaces & Hnd6 & Hnd8 & Hvert & Hhidden
                    & Hoa & Hob & Hoc & Hod & _).
  split.
  - exact (@collapse_area _ _ _ s s1 collapse_ a b c d Harea Hlaws Hequal
             Hinj Hin Hfaces Hnd6 Hnd8 Hvert Hhidden Hoa Hob Hoc Hod
             Hca Hcc Hupd).
  - destruct Hfaces as (Hgadget & _).
    exact (@collapse_twins s s1 collapse_ a b c d Hgadget Hnd8 Hupd).
Qed.


End AreaHooks.


(** The stand-ins of the examples obey the laws. *)
Lemma exampleArea_triangles {SC : Type} `{Connection SC} :
  areaOfTriangles (H0 := exampleCollaborators).
Proof. intros x y z _. reflexivity. Qed.

Lemma connectionsOf_laws (t : FlatTriangulationCombinatorial) :
  @ConnectionLaws _ (connectionsOf t).
Proof. split; reflexivity. Qed.

Lemma connectionsOf_equal (t : FlatTriangulationCombinatorial) :
  equalVectors (H := connectionsOf t).
Proof.
  intros c d Heq. simpl in Heq. unfold Triple.equal in Heq.
  apply andb_true_iff in Heq. destruct Heq as [_ Heq].
  now apply Vec_eqb_eq.
Qed.

(** Every collapsed surface on the square torus with the vertical [(0,1)]
    or [(1,2)] that carries the vectors of the torus and hides vertical
    connections only is ready for the flip of its diagonal. *)
Lemma torus_flipInvariants (s : @Collapsed.Surface Triple.SaddleConnection) :
  let H := connectionsOf torus in
  Collapsed.combinatorial s = torus ->
  Collapsed.vertical s <> Vec.zero ->
  (forall e, Triple.vector (Collapsed.vectors s e)
             = Flat.fromList torusVectors e) ->
  hiddenVertical s ->
  flipInvariants s 1 2 3 (-1) (-2).
Proof.
  intros H Hcomb Hvert Hvec Hhidden.
  destruct torus_gadget as (Hin & Hzero & Hnd & Hfaces).
  unfold flipInvariants. rewrite Hcomb.
  split; [exact torus_NoDup|]. split; [exact Hzero|].
  split; [exact torus_injective|].
  split; [intros h Hh; simpl in *; intuition|].
  split; [exact Hnd|]. split; [exact Hfaces|].
  split; [exact Hvert|]. split; [exact Hhidden|].
  unfold oddAcross, closedFace, Collapsed.perpendicular, Collapsed.fromEdge.
  rewrite Hcomb. simpl vector. rewrite !Hvec.
  repeat split; try reflexivity.
  - change (Flat.fromList torusVectors (- 2))
      with (Vec.opp (Flat.fromList torusVectors 2)).
    apply Vec_cross_opp_l.
  - change (Flat.fromList torusVectors (- 2))
      with (Vec.opp (Flat.fromList torusVectors 2)).
    rewrite Vec_cross_opp_l. lia.
Qed.

(** On the torus whose diagonal hides a vertical connection on either side
    the flip of the diagonal keeps the sum of the area loop. *)
Lemma Collapsed_flip_area_witness :
  let H := connectionsOf torus in
  let K := exampleCollaborators (H := H) in
  exists s',
    Collapsed.flipCombinatorial torusWithHidden 3 = Ok s'
    /\ totalArea torusWithHidden = Ok 12
    /\ totalArea s' = Ok 12.
Proof.
  intros H K.
  destruct (Collapsed.flipCombinatorial torusWithHidden 3) as [s'|err]
    eqn:Hflip; [|vm_compute in Hflip; discriminate].
  exists s'. split; [reflexivity|].
  assert (Hinv : flipInvariants torusWithHidden 1 2 3 (-1) (-2)).
  { apply torus_flipInvariants;
      [reflexivity|discriminate|reflexivity|].
    intros e c. unfold torusWithHidden, upd. simpl.
    destruct (e =? -3); [intros [<-|[]]; reflexivity|].
    destruct (e =? 3); [intros [<-|[]]; reflexivity|]. intros []. }
  destruct (@Collapsed_flip_area _ H K torusWithHidden s' 1 2 3 (-1) (-2)
              exampleArea_triangles (connectionsOf_laws torus)
              (connectionsOf_equal torus) Hinv Hflip) as [Harea _].
  split; [reflexivity|]. rewrite Harea. reflexivity.
Defined.

Lemma twoSquares_injective : injective twoSquares.
Proof.
  intros h h' Hh Hh'. simpl in Hh, Hh'.
  repeat (destruct Hh as [<-|Hh]; [|]); try contradiction;
    repeat (destruct Hh' as [<-|Hh']; [|]); try contradiction;
    vm_compute; congruence.
Qed.

(** The torus of two squares is ready for the collapse of its vertical edge
    [3], between the triangles [(-1 -3 5)(2 3 -6)]. *)
Lemma twoSquares_collapseInvariants :
  let H := connectionsOf twoSquares in
  collapseInvariants collapsedTwoSquares (-1) (-6) 2 5
                     (oriented collapsedTwoSquares 3).
Proof.
  intros H. change (oriented collapsedTwoSquares 3) with 3.
  unfold collapseInvariants.
  split; [exact twoSquares_injective|].
  split; [intros h Hh; simpl in *; intuition|].
  split; [repeat split|].
  split; [repeat constructor; simpl; intuition discriminate|].
  split; [repeat constructor; simpl; intuition discriminate|].
  split; [discriminate|].
  split; [intros e c []|].
  repeat split.
Qed.

(** On the torus of two squares the update before the collapse of the edge
    [3] moves the area of the two triangles at the edge, [3] each, into the
    connections hidden in [1] and [-2]. *)
Lemma Collapsed_collapse_area_witness :
  let H := connectionsOf twoSquares in
  let K := exampleCollaborators (H := H) in
  exists s1,
    Collapsed.updateBeforeCollapse collapsedTwoSquares 3 = Ok s1
    /\ hiddenTerm s1 1 = 3 /\ hiddenTerm s1 (- 2) = 3
    /\ hiddenTerm s1 (- 5) = 0 /\ hiddenTerm s1 6 = 0
    /\ Collapsed.cross s1 (- 1) = Collapsed.cross s1 (- 5).
Proof.
  intros H K.
  destruct (Collapsed.updateBeforeCollapse collapsedTwoSquares 3)
    as [s1|err] eqn:Hupd; [|vm_compute in Hupd; discriminate].
  exists s1. split; [reflexivity|].
  destruct (@Collapsed_collapse_area _ H K collapsedTwoSquares s1 3
              (-1) (-6) 2 5
              exampleArea_triangles (connectionsOf_laws twoSquares)
              (connectionsOf_equal twoSquares)
              twoSquares_collapseInvariants Hupd)
    as ((Ea & Ec & Ed & Eb) & (_ & Ta) & _).
  change (oriented collapsedTwoSquares 3) with 3 in Ea, Ec.
  split; [exact Ea|]. split; [exact Ec|]. split; [exact Ed|].
  split; [exact Eb|]. exact Ta.
Defined.

